(** * liuxinbot/cache: indexed thread-safe store and eviction policies

    A shallow embedding of the Go package [cache] (the index engine
    [storeIndex], the store [threadSafeMap], the plain store [cache], the
    eviction-backed facade [evictionCache]), of the package [sets] and of
    the package [eviction] (the policies [FIFO], [lru], [LFU]), followed
    by the properties of the specification and by further properties of
    the code.

    Conventions of the embedding.
    - A Go map is a [gmap], a [sets.Set] is a [gset]; a [range] loop over a
      map visits [map_to_list] (resp. [elements]) in that list's order.
    - An [interface{}] value is an [option Obj]: [None] is Go's [nil].
    - A function that returns [(v, error)] returns a [result]; a function
      that may panic returns an [outcome].  Mutated receivers are threaded
      explicitly: a method takes the receiver last and returns the new one.
    - Locks are not modelled: every method body runs under its mutex, so a
      method is one atomic state transformer. *)

From stdpp Require Import base option list gmap sets strings.
From Stdlib Require Import ZArith Lia ZifyNat.

Set Default Proof Using "Type*".

(** ** Go values: errors, results, panics *)

(** The errors the package builds or passes on.  [UserError] stands for an
    error value returned by a caller-supplied key or index function. *)
Inductive error (Obj : Type) : Type :=
  | UserError (msg : string)
  | IndexNotExist (name : string)
  | IndexerConflict (names : list string)
  | KeyError (obj : option Obj) (err : error Obj)
  | NoItemsToEvict.
Arguments UserError {Obj} msg.
Arguments IndexNotExist {Obj} name.
Arguments IndexerConflict {Obj} names.
Arguments KeyError {Obj} obj err.
Arguments NoItemsToEvict {Obj}.

(** A Go [(value, error)] pair: [Err e] is a non-nil error. *)
Inductive result (Obj A : Type) : Type :=
  | Ok (a : A)
  | Err (e : error Obj).
Arguments Ok {Obj A} a.
Arguments Err {Obj A} e.

(** The values [updateSingleIndex] panics with. *)
Inductive panic_value (Obj T : Type) : Type :=
  | IndexerDoesNotExist (name : string)
  | UnableToCalculateIndexEntry (key : T) (name : string) (err : error Obj).
Arguments IndexerDoesNotExist {Obj T} name.
Arguments UnableToCalculateIndexEntry {Obj T} key name err.

(** What a call does: it returns, or it panics (the stack unwinds). *)
Inductive outcome (Obj T A : Type) : Type :=
  | Returned (a : A)
  | Panicked (p : panic_value Obj T).
Arguments Returned {Obj T A} a.
Arguments Panicked {Obj T A} p.

Definition obind {Obj T A B} (m : outcome Obj T A) (k : A → outcome Obj T B)
  : outcome Obj T B :=
  match m with
  | Returned a => k a
  | Panicked p => Panicked p
  end.

Notation "'let!' x ':=' m 'in' k" := (obind m (λ x, k))
  (at level 10, x name, m at level 100, k at level 200, only parsing).

(** A [for ... range xs] loop whose body may panic. *)
Fixpoint forRange {Obj T A S} (body : A → S → outcome Obj T S)
    (xs : list A) (s : S) : outcome Obj T S :=
  match xs with
  | [] => Returned s
  | x :: xs' => let! s' := body x s in forRange body xs' s'
  end.

(** Go's [int] on a 64-bit platform: [x++] wraps around. *)
Definition int_min : Z := (- 2 ^ 63)%Z.
Definition int_max : Z := (2 ^ 63 - 1)%Z.
Definition int_wrap (z : Z) : Z := ((z + 2 ^ 63) mod 2 ^ 64 - 2 ^ 63)%Z.
Definition int_incr (z : Z) : Z := int_wrap (z + 1).

(** The zero value of a Go type ([var zero T]). *)
Class ZeroValue (T : Type) : Type := zero_value : T.
Global Instance Z_ZeroValue : ZeroValue Z := 0%Z.
Global Instance string_ZeroValue : ZeroValue string := EmptyString.

(** ** Package sets *)
Module sets.
Section defs.
Context {T : Type} `{Countable T}.

(** [type Set[T] map[T]Empty] *)
Definition NewSet : gset T := ∅.
Definition Insert (item : T) (s : gset T) : gset T := {[item]} ∪ s.
Definition Delete (item : T) (s : gset T) : gset T := s ∖ {[item]}.
Definition Has (s : gset T) (item : T) : bool := bool_decide (item ∈ s).
Definition Len (s : gset T) : nat := size s.
Definition UnsortedList (s : gset T) : list T := elements s.

Fixpoint HasAny (s : gset T) (items : list T) : bool :=
  match items with
  | [] => false
  | item :: rest => if Has s item then true else HasAny s rest
  end.

(** [Intersection] walks one of the two sets and keeps the keys the other
    one has. *)
Definition Intersection (s s2 : gset T) : gset T :=
  let '(walk, other) :=
    if bool_decide (Len s < Len s2) then (s, s2) else (s2, s) in
  foldl (λ res key, if Has other key then Insert key res else res)
        NewSet (elements walk).

(** [KeySet] of a map: the set of its keys. *)
Definition KeySet {V} (theMap : gmap T V) : gset T :=
  foldl (λ ret kv, Insert kv.1 ret) ∅ (map_to_list theMap).

(** The variadic forms [Insert(items...)], [Delete(items...)] and
    [NewSet(items...)]. *)
Definition InsertItems (items : list T) (s : gset T) : gset T :=
  foldl (λ s' item, Insert item s') s items.
Definition DeleteItems (items : list T) (s : gset T) : gset T :=
  foldl (λ s' item, Delete item s') s items.
Definition NewSetOf (items : list T) : gset T := InsertItems items ∅.

Fixpoint HasAll (s : gset T) (items : list T) : bool :=
  match items with
  | [] => true
  | item :: rest => if negb (Has s item) then false else HasAll s rest
  end.

Definition Difference (s s2 : gset T) : gset T :=
  foldl (λ result key, if negb (Has s2 key) then Insert key result else result)
        NewSet (elements s).

Definition Union (s s2 : gset T) : gset T :=
  foldl (λ result key, Insert key result)
        (foldl (λ result key, Insert key result) NewSet (elements s))
        (elements s2).

(** [for item := range s2 { if !s.Has(item) { return false } }; return true] *)
Fixpoint IsSuperset_range (s : gset T) (items : list T) : bool :=
  match items with
  | [] => true
  | item :: rest => if negb (Has s item) then false else IsSuperset_range s rest
  end.
Definition IsSuperset (s s2 : gset T) : bool :=
  IsSuperset_range s (elements s2).

Definition Equal (s s2 : gset T) : bool :=
  bool_decide (Len s = Len s2) && IsSuperset s s2.

(** [PopAny] takes the key the iteration meets first. *)
Definition PopAny `{ZeroValue T} (s : gset T) : T * bool * gset T :=
  match elements s with
  | key :: _ => (key, true, Delete key s)
  | [] => (zero_value, false, s)
  end.
End defs.
End sets.

(** ** storeIndex: the index engine *)
Module storeIndex.
(** [type IndexFunc[K] func(obj interface{}) ([]K, error)] *)
Abbreviation IndexFunc K Obj := (option Obj → result Obj (list K)) (only parsing).

Section defs.
Context {K T : Type} `{Countable K} `{Countable T} {Obj : Type}.

(** [type storeIndex struct { indexers Indexers[K]; indices Indexes[K, T] }]
    with [Indexers = map[string]IndexFunc], [Index = map[K]sets.Set[T]]
    and [Indexes = map[string]Index].  A bucket that is absent from an
    index is the Go [nil] set. *)
Record t : Type := mk {
  indexers : gmap string (IndexFunc K Obj);
  indices : gmap string (gmap K (gset T));
}.

Definition reset (si : t) : t :=
  {| indexers := indexers si; indices := ∅ |}.

(** [index[indexValue]]: reading a missing bucket yields the nil set,
    which ranges and lists as the empty set. *)
Definition bucket (index : gmap K (gset T)) (v : K) : gset T :=
  default ∅ (index !! v).

Definition getKeysFromIndex (indexName : string) (obj : option Obj) (si : t)
  : result Obj (option (gset T)) :=
  match indexers si !! indexName with
  | None => Err (IndexNotExist indexName)
  | Some indexFunc =>
    match indexFunc obj with
    | Err e => Err e
    | Ok indexValues =>
      let index := default ∅ (indices si !! indexName) in
      match indexValues with
      | [v] => Ok (index !! v)
      | _ =>
        Ok (Some (foldl (λ keySet v,
                     foldl (λ ks key, sets.Insert key ks) keySet
                           (elements (bucket index v)))
                   sets.NewSet indexValues))
      end
    end
  end.

Definition getKeysByIndex (indexName : string) (indexedValue : K) (si : t)
  : result Obj (option (gset T)) :=
  match indexers si !! indexName with
  | None => Err (IndexNotExist indexName)
  | Some _ => Ok (default ∅ (indices si !! indexName) !! indexedValue)
  end.

(** [addIndexer] returns the error (or nil) and the receiver. *)
Definition addIndexer (indexName : string) (indexFunc : IndexFunc K Obj) (si : t)
  : option (error Obj) * t :=
  match indexers si !! indexName with
  | Some _ => (Some (IndexerConflict [indexName]), si)
  | None =>
    (None, {| indexers := <[indexName := indexFunc]> (indexers si);
              indices := indices si |})
  end.

Definition addIndexers (newIndexers : gmap string (IndexFunc K Obj)) (si : t)
  : option (error Obj) * t :=
  let existingKeys := sets.KeySet (indexers si) in
  let newKeys := sets.KeySet newIndexers in
  if sets.HasAny existingKeys (sets.UnsortedList newKeys) then
    (Some (IndexerConflict
             (elements (sets.Intersection existingKeys newKeys))), si)
  else
    (None,
     {| indexers := foldl (λ m ni, <[ni.1 := ni.2]> m) (indexers si)
                          (map_to_list newIndexers);
        indices := indices si |}).

(** The first loop of [updateSingleIndex], over [oldIndexValues].  The
    boolean is [true] when the loop left the function through the
    [return] taken at a missing bucket. *)
Fixpoint removeOldValues (key : T) (oldIndexValues : list K)
    (index : gmap K (gset T)) : gmap K (gset T) * bool :=
  match oldIndexValues with
  | [] => (index, false)
  | indexValue :: rest =>
    match index !! indexValue with
    | None => (index, true)
    | Some keySet =>
      let keySet' := sets.Delete key keySet in
      let index' :=
        if bool_decide (sets.Len keySet' = 0)
        then delete indexValue index
        else <[indexValue := keySet']> index in
      removeOldValues key rest index'
    end
  end.

(** The second loop, over [newIndexValues]. *)
Fixpoint insertNewValues (key : T) (newIndexValues : list K)
    (index : gmap K (gset T)) : gmap K (gset T) :=
  match newIndexValues with
  | [] => index
  | indexValue :: rest =>
    let keySet := default sets.NewSet (index !! indexValue) in
    insertNewValues key rest (<[indexValue := sets.Insert key keySet]> index)
  end.

(** [len(new) == 1 && len(old) == 1 && new[0] == old[0]] *)
Definition sameSingleValue (newIndexValues oldIndexValues : list K) : bool :=
  match newIndexValues, oldIndexValues with
  | [n], [o] => bool_decide (n = o)
  | _, _ => false
  end.

(** The index values of an object that may be nil; a failing index
    function makes the caller panic. *)
Definition indexValuesOf (indexFunc : IndexFunc K Obj) (name : string) (key : T)
    (obj : option Obj) : outcome Obj T (list K) :=
  match obj with
  | None => Returned []
  | Some _ =>
    match indexFunc obj with
    | Ok vs => Returned vs
    | Err e => Panicked (UnableToCalculateIndexEntry key name e)
    end
  end.

Definition updateSingleIndex (name : string) (oldObj newObj : option Obj)
    (key : T) (si : t) : outcome Obj T t :=
  match indexers si !! name with
  | None => Panicked (IndexerDoesNotExist name)
  | Some indexFunc =>
    let! oldIndexValues := indexValuesOf indexFunc name key oldObj in
    let! newIndexValues := indexValuesOf indexFunc name key newObj in
    let index := default ∅ (indices si !! name) in
    if sameSingleValue newIndexValues oldIndexValues then
      Returned {| indexers := indexers si;
                  indices := <[name := index]> (indices si) |}
    else
      let '(index1, returned) := removeOldValues key oldIndexValues index in
      let index2 :=
        if returned then index1
        else insertNewValues key newIndexValues index1 in
      Returned {| indexers := indexers si;
                  indices := <[name := index2]> (indices si) |}
  end.

Definition updateIndices (oldObj newObj : option Obj) (key : T) (si : t)
  : outcome Obj T t :=
  forRange (λ name si', updateSingleIndex name oldObj newObj key si')
           (map_to_list (indexers si)).*1 si.
End defs.
Arguments t _ _ {_ _ _ _} _.
End storeIndex.

(** ** threadSafeMap: the store *)
Module threadSafeMap.
Section defs.
Context {K T : Type} `{Countable K} `{Countable T} {Obj : Type}.

(** [type threadSafeMap struct { mu; items map[T]interface{}; index *storeIndex }] *)
Record t : Type := mk {
  items : gmap T (option Obj);
  index : storeIndex.t K T Obj;
}.

Definition NewThreadSafeStore
    (indexers : gmap string (storeIndex.IndexFunc K Obj))
    (indices : gmap string (gmap K (gset T))) : t :=
  {| items := ∅; index := storeIndex.mk indexers indices |}.

(** [oldObject := tsm.items[key]] is nil when the key is absent. *)
Definition Update (key : T) (obj : option Obj) (tsm : t) : outcome Obj T t :=
  let oldObject := mjoin (items tsm !! key) in
  let items' := <[key := obj]> (items tsm) in
  let! index' := storeIndex.updateIndices oldObject obj key (index tsm) in
  Returned {| items := items'; index := index' |}.

Definition Add (key : T) (obj : option Obj) (tsm : t) : outcome Obj T t :=
  Update key obj tsm.

Definition Delete (key : T) (tsm : t) : outcome Obj T t :=
  match items tsm !! key with
  | Some obj =>
    let! index' := storeIndex.updateIndices obj None key (index tsm) in
    Returned {| items := delete key (items tsm); index := index' |}
  | None => Returned tsm
  end.

Definition Get (key : T) (tsm : t) : option Obj * bool :=
  match items tsm !! key with
  | Some item => (item, true)
  | None => (None, false)
  end.

Definition List (tsm : t) : list (option Obj) := (map_to_list (items tsm)).*2.
Definition ListKeys (tsm : t) : list T := (map_to_list (items tsm)).*1.

Definition Replace (newItems : gmap T (option Obj)) (tsm : t)
  : outcome Obj T t :=
  let! index' :=
    forRange (λ ki si, storeIndex.updateIndices None ki.2 ki.1 si)
             (map_to_list newItems) (storeIndex.reset (index tsm)) in
  Returned {| items := newItems; index := index' |}.

Definition Size (tsm : t) : nat := size (items tsm).

(** The index queries, with [lessFunc == nil] (the order of the answer is
    then the iteration order of the bucket). *)
Definition IndexKeys (indexName : string) (indexedValue : K) (tsm : t)
  : result Obj (list T) :=
  match storeIndex.getKeysByIndex indexName indexedValue (index tsm) with
  | Err e => Err e
  | Ok keySet => Ok (sets.UnsortedList (default ∅ keySet))
  end.

Definition ByIndex (indexName : string) (indexedValue : K) (tsm : t)
  : result Obj (list (option Obj)) :=
  match IndexKeys indexName indexedValue tsm with
  | Err e => Err e
  | Ok keys => Ok ((λ key, mjoin (items tsm !! key)) <$> keys)
  end.

Definition Index (indexName : string) (obj : option Obj) (tsm : t)
  : result Obj (list (option Obj)) :=
  match storeIndex.getKeysFromIndex indexName obj (index tsm) with
  | Err e => Err e
  | Ok keySet =>
    Ok ((λ key, mjoin (items tsm !! key))
          <$> sets.UnsortedList (default ∅ keySet))
  end.

(** Registration returns the error (or nil) and the receiver, or panics
    while it back-fills the new index over the stored items. *)
Definition AddIndexers (newIndexers : gmap string (storeIndex.IndexFunc K Obj))
    (tsm : t) : outcome Obj T (option (error Obj) * t) :=
  match storeIndex.addIndexers newIndexers (index tsm) with
  | (Some err, si) => Returned (Some err, {| items := items tsm; index := si |})
  | (None, si) =>
    let! si' :=
      forRange (λ ki si1,
                  forRange (λ name si2,
                              storeIndex.updateSingleIndex name None ki.2 ki.1 si2)
                           (map_to_list newIndexers).*1 si1)
               (map_to_list (items tsm)) si in
    Returned (None, {| items := items tsm; index := si' |})
  end.

Definition AddIndexer (indexName : string)
    (indexFunc : storeIndex.IndexFunc K Obj) (tsm : t)
  : outcome Obj T (option (error Obj) * t) :=
  match storeIndex.addIndexer indexName indexFunc (index tsm) with
  | (Some err, si) => Returned (Some err, {| items := items tsm; index := si |})
  | (None, si) =>
    let! si' :=
      forRange (λ ki si1,
                  storeIndex.updateSingleIndex indexName None ki.2 ki.1 si1)
               (map_to_list (items tsm)) si in
    Returned (None, {| items := items tsm; index := si' |})
  end.
End defs.
Arguments t _ _ {_ _ _ _} _.
End threadSafeMap.

(** ** Package eviction *)

(** Go's [container/list], as far as the policies use it: the list is the
    sequence of the keys its cells hold, front first.  A cell pointer
    [*list.Element] is named by the key of its entry: the policies create
    one cell per tracked key and store it under that key. *)
Module containerList.
Section defs.
Context {T : Type} `{EqDecision T}.

Definition Len (l : list T) : nat := length l.
Definition Front (l : list T) : option T := head l.
Definition Back (l : list T) : option T := last l.
Definition PushBack (key : T) (l : list T) : list T := l ++ [key].
Definition PushFront (key : T) (l : list T) : list T := key :: l.

(** [Remove(elem)] unlinks the cell of [key]. *)
Fixpoint Remove (key : T) (l : list T) : list T :=
  match l with
  | [] => []
  | x :: l' => if decide (x = key) then l' else x :: Remove key l'
  end.

Definition MoveToFront (key : T) (l : list T) : list T :=
  if decide (Front l = Some key) then l else key :: Remove key l.
End defs.
End containerList.

Module FIFO.
Section defs.
Context {T : Type} `{Countable T} `{ZeroValue T}.

(** [type FIFO struct { mu; capacity int; cache map[T]*list.Element; list *list.List }];
    [cache] is kept as the set of its keys. *)
Record t : Type := mk {
  capacity : Z;
  cache : gset T;
  lst : list T;
}.

Definition NewFIFO (capacity : Z) : t :=
  {| capacity := capacity; cache := ∅; lst := [] |}.

Definition evict (f : t) : T * bool * t :=
  match containerList.Front (lst f) with
  | None => (zero_value, false, f)
  | Some key =>
    (key, true,
     {| capacity := capacity f;
        cache := cache f ∖ {[key]};
        lst := containerList.Remove key (lst f) |})
  end.

Definition Put (key : T) (f : t) : T * bool * t :=
  if bool_decide (key ∈ cache f) then (zero_value, false, f)
  else
    let '(evictedKey, evicted, f1) :=
      if bool_decide (capacity f ≤ Z.of_nat (containerList.Len (lst f)))%Z
      then evict f else (zero_value, false, f) in
    (evictedKey, evicted,
     {| capacity := capacity f1;
        cache := {[key]} ∪ cache f1;
        lst := containerList.PushBack key (lst f1) |}).

Definition Delete (key : T) (f : t) : t :=
  if bool_decide (key ∈ cache f) then
    {| capacity := capacity f;
       cache := cache f ∖ {[key]};
       lst := containerList.Remove key (lst f) |}
  else f.

Definition Evict (f : t) : T * bool * t := evict f.

Definition Reset (f : t) : t :=
  {| capacity := capacity f; cache := ∅; lst := [] |}.

Definition Size (f : t) : nat := size (cache f).
End defs.
Arguments t _ {_ _}.
End FIFO.

Module lru.
Section defs.
Context {T : Type} `{Countable T} `{ZeroValue T}.

(** [type lru struct { mu; capacity int; cache map[T]*list.Element; list *list.List }];
    the front of the list is the most recently used key. *)
Record t : Type := mk {
  capacity : Z;
  cache : gset T;
  lst : list T;
}.

Definition NewLRU (capacity : Z) : t :=
  {| capacity := capacity; cache := ∅; lst := [] |}.

Definition evict (l : t) : T * bool * t :=
  match containerList.Back (lst l) with
  | None => (zero_value, false, l)
  | Some key =>
    (key, true,
     {| capacity := capacity l;
        cache := cache l ∖ {[key]};
        lst := removelast (lst l) |})
  end.

Definition Put (key : T) (l : t) : T * bool * t :=
  if bool_decide (key ∈ cache l) then
    (zero_value, false,
     {| capacity := capacity l;
        cache := cache l;
        lst := containerList.MoveToFront key (lst l) |})
  else
    let '(evictedKey, evicted, l1) :=
      if bool_decide (capacity l ≤ Z.of_nat (containerList.Len (lst l)))%Z
      then evict l else (zero_value, false, l) in
    (evictedKey, evicted,
     {| capacity := capacity l1;
        cache := {[key]} ∪ cache l1;
        lst := containerList.PushFront key (lst l1) |}).

Definition Delete (key : T) (l : t) : t :=
  if bool_decide (key ∈ cache l) then
    {| capacity := capacity l;
       cache := cache l ∖ {[key]};
       lst := containerList.Remove key (lst l) |}
  else l.

Definition Reset (l : t) : t :=
  {| capacity := capacity l; cache := ∅; lst := [] |}.

Definition Size (l : t) : nat := size (cache l).

Definition Evict (l : t) : T * bool * t := evict l.
End defs.
Arguments t _ {_ _}.
End lru.

(** [type lfuEntry struct { key T; frequency int; index int }] *)
Module lfuEntry.
Section defs.
Context {T : Type}.
Record t : Type := mk {
  key : T;
  frequency : Z;
  index : nat;
}.
Definition withIndex (i : nat) (e : t) : t :=
  {| key := key e; frequency := frequency e; index := i |}.
Definition withFrequency (f : Z) (e : t) : t :=
  {| key := key e; frequency := f; index := index e |}.
End defs.
Arguments t : clear implicits.
End lfuEntry.

(** [type lfuHeap []*lfuEntry] with its [heap.Interface] methods.  The
    slice of pointers is the list of the entries pointed to: an entry is
    reachable from one slice cell only.  An index out of range makes Go
    panic; [Less] and [Swap] are only called in range (see [down_loop] and
    [up_loop]), and here they then leave the heap as it is. *)
Module lfuHeap.
Section defs.
Context {T : Type}.
Abbreviation entry := (lfuEntry.t T).

Definition Len (h : list entry) : nat := length h.

Definition Less (h : list entry) (i j : nat) : bool :=
  match h !! i, h !! j with
  | Some a, Some b => bool_decide (lfuEntry.frequency a < lfuEntry.frequency b)%Z
  | _, _ => false
  end.

(** [h[i], h[j] = h[j], h[i]; h[i].index = i; h[j].index = j] *)
Definition Swap (h : list entry) (i j : nat) : list entry :=
  match h !! i, h !! j with
  | Some a, Some b =>
    <[j := lfuEntry.withIndex j a]> (<[i := lfuEntry.withIndex i b]> h)
  | _, _ => h
  end.

Definition Push (h : list entry) (x : entry) : list entry :=
  h ++ [lfuEntry.withIndex (length h) x].

(** [Pop] returns the last entry and the slice without it. *)
Definition Pop (h : list entry) : option entry * list entry :=
  (last h, removelast h).
End defs.
End lfuHeap.

(** Go's [container/heap], instantiated at [lfuHeap].  The two loops take
    the number of iterations they may run as fuel; [up] and [down] give
    them more than they can use ([up_loop_fuel], [down_loop_fuel]). *)
Module heap.
Section defs.
Context {T : Type}.
Abbreviation entry := (lfuEntry.t T).

(** [for { i := (j - 1) / 2; if i == j || !h.Less(j, i) { break };
          h.Swap(i, j); j = i }]
    (Go's division truncates: [(0 - 1) / 2 = 0]). *)
Fixpoint up_loop (fuel : nat) (h : list entry) (j : nat) : list entry :=
  match fuel with
  | O => h
  | S fuel' =>
    let i := (j - 1) / 2 in
    if bool_decide (i = j) || negb (lfuHeap.Less h j i) then h
    else up_loop fuel' (lfuHeap.Swap h i j) i
  end.

Definition up (h : list entry) (j : nat) : list entry :=
  up_loop (S j) h j.

(** [for { j1 := 2*i + 1; if j1 >= n || j1 < 0 { break }; j := j1;
          if j2 := j1 + 1; j2 < n && h.Less(j2, j1) { j = j2 };
          if !h.Less(j, i) { break }; h.Swap(i, j); i = j }] *)
Fixpoint down_loop (fuel : nat) (h : list entry) (i n : nat)
  : list entry * nat :=
  match fuel with
  | O => (h, i)
  | S fuel' =>
    let j1 := 2 * i + 1 in
    if bool_decide (n ≤ j1) then (h, i)
    else
      let j2 := j1 + 1 in
      let j := if bool_decide (j2 < n) && lfuHeap.Less h j2 j1
               then j2 else j1 in
      if negb (lfuHeap.Less h j i) then (h, i)
      else down_loop fuel' (lfuHeap.Swap h i j) j n
  end.

(** [down] returns [i > i0]. *)
Definition down (h : list entry) (i0 n : nat) : list entry * bool :=
  let '(h', i) := down_loop n h i0 n in (h', bool_decide (i0 < i)).

Definition Push (h : list entry) (x : entry) : list entry :=
  let h1 := lfuHeap.Push h x in
  up h1 (lfuHeap.Len h1 - 1).

Definition Pop (h : list entry) : option entry * list entry :=
  let n := lfuHeap.Len h - 1 in
  let h1 := lfuHeap.Swap h 0 n in
  let '(h2, _) := down h1 0 n in
  lfuHeap.Pop h2.

Definition Remove (h : list entry) (i : nat) : option entry * list entry :=
  let n := lfuHeap.Len h - 1 in
  let h' :=
    if bool_decide (n ≠ i) then
      let h1 := lfuHeap.Swap h i n in
      let '(h2, moved) := down h1 i n in
      if moved then h2 else up h2 i
    else h in
  lfuHeap.Pop h'.

Definition Fix (h : list entry) (i : nat) : list entry :=
  let '(h1, moved) := down h i (lfuHeap.Len h) in
  if moved then h1 else up h1 i.
End defs.
End heap.

Module LFU.
Section defs.
Context {T : Type} `{Countable T} `{ZeroValue T}.
Abbreviation entry := (lfuEntry.t T).

(** [type LFU struct { mu; capacity int; cache map[T]*lfuEntry; freqHeap *lfuHeap }].
    [cache] and [freqHeap] share their entries by pointer: [cache] is
    kept as the set of its keys, and the entry [cache[key]] points to is
    the heap cell that holds [key]. *)
Record t : Type := mk {
  capacity : Z;
  cache : gset T;
  freqHeap : list entry;
}.

Definition NewLFU (capacity : Z) : t :=
  {| capacity := capacity; cache := ∅; freqHeap := [] |}.

(** [l.cache[key]]: the position and the contents of the entry of [key]. *)
Definition entryOf (key : T) (h : list entry) : option (nat * entry) :=
  list_find (λ e, lfuEntry.key e = key) h.

Definition evict (l : t) : T * bool * t :=
  if bool_decide (length (freqHeap l) = 0) then (zero_value, false, l)
  else
    match heap.Pop (freqHeap l) with
    | (Some e, h') =>
      (lfuEntry.key e, true,
       {| capacity := capacity l;
          cache := cache l ∖ {[lfuEntry.key e]};
          freqHeap := h' |})
    | (None, _) => (zero_value, false, l)
    end.

Definition Put (key : T) (l : t) : T * bool * t :=
  if bool_decide (key ∈ cache l) then
    match entryOf key (freqHeap l) with
    | Some (pos, e) =>
      let h1 :=
        <[pos := lfuEntry.withFrequency (int_incr (lfuEntry.frequency e)) e]>
          (freqHeap l) in
      (zero_value, false,
       {| capacity := capacity l;
          cache := cache l;
          freqHeap := heap.Fix h1 (lfuEntry.index e) |})
    | None => (zero_value, false, l)
    end
  else
    let '(evictedKey, evicted, l1) :=
      if bool_decide (capacity l ≤ Z.of_nat (size (cache l)))%Z
      then evict l else (zero_value, false, l) in
    let e := {| lfuEntry.key := key; lfuEntry.frequency := 1;
                lfuEntry.index := 0 |} in
    (evictedKey, evicted,
     {| capacity := capacity l1;
        cache := {[key]} ∪ cache l1;
        freqHeap := heap.Push (freqHeap l1) e |}).

Definition Delete (key : T) (l : t) : t :=
  if bool_decide (key ∈ cache l) then
    match entryOf key (freqHeap l) with
    | Some (_, e) =>
      {| capacity := capacity l;
         cache := cache l ∖ {[key]};
         freqHeap := (heap.Remove (freqHeap l) (lfuEntry.index e)).2 |}
    | None => l
    end
  else l.

Definition Reset (l : t) : t :=
  {| capacity := capacity l; cache := ∅; freqHeap := [] |}.

Definition Size (l : t) : nat := size (cache l).

Definition Evict (l : t) : T * bool * t := evict l.
End defs.
Arguments t _ {_ _}.
End LFU.

(** [type Policy[T] interface { Put; Delete; Evict; Reset; Size }]: a value
    of the interface is one of the three implementations. *)
Module Policy.
Section defs.
Context {T : Type} `{Countable T} `{ZeroValue T}.

Inductive t : Type :=
  | OfFIFO (f : FIFO.t T)
  | OfLRU (l : lru.t T)
  | OfLFU (l : LFU.t T).

Definition Put (key : T) (p : t) : T * bool * t :=
  match p with
  | OfFIFO f => let '(k, b, f') := FIFO.Put key f in (k, b, OfFIFO f')
  | OfLRU l => let '(k, b, l') := lru.Put key l in (k, b, OfLRU l')
  | OfLFU l => let '(k, b, l') := LFU.Put key l in (k, b, OfLFU l')
  end.

Definition Delete (key : T) (p : t) : t :=
  match p with
  | OfFIFO f => OfFIFO (FIFO.Delete key f)
  | OfLRU l => OfLRU (lru.Delete key l)
  | OfLFU l => OfLFU (LFU.Delete key l)
  end.

Definition Evict (p : t) : T * bool * t :=
  match p with
  | OfFIFO f => let '(k, b, f') := FIFO.Evict f in (k, b, OfFIFO f')
  | OfLRU l => let '(k, b, l') := lru.Evict l in (k, b, OfLRU l')
  | OfLFU l => let '(k, b, l') := LFU.Evict l in (k, b, OfLFU l')
  end.

Definition Reset (p : t) : t :=
  match p with
  | OfFIFO f => OfFIFO (FIFO.Reset f)
  | OfLRU l => OfLRU (lru.Reset l)
  | OfLFU l => OfLFU (LFU.Reset l)
  end.

Definition Size (p : t) : nat :=
  match p with
  | OfFIFO f => FIFO.Size f
  | OfLRU l => lru.Size l
  | OfLFU l => LFU.Size l
  end.
End defs.
Arguments t _ {_ _}.
End Policy.

(** ** cache: the plain store *)
Module cache.
(** [type KeyFunc[T] func(obj interface{}) (T, error)] *)
Abbreviation KeyFunc T Obj := (option Obj → result Obj T) (only parsing).

Section defs.
Context {K T : Type} `{Countable K} `{Countable T} {Obj : Type}.

(** [type cache struct { store ThreadSafeStore[K, T]; keyFunc KeyFunc[T] }] *)
Record t : Type := mk {
  store : threadSafeMap.t K T Obj;
  keyFunc : KeyFunc T Obj;
}.

Definition NewStore (keyFunc : KeyFunc T Obj) : t :=
  {| store := threadSafeMap.NewThreadSafeStore ∅ ∅; keyFunc := keyFunc |}.

Definition NewIndexer (keyFunc : KeyFunc T Obj) : t :=
  {| store := threadSafeMap.NewThreadSafeStore ∅ ∅; keyFunc := keyFunc |}.

Definition Add (obj : option Obj) (c : t)
  : outcome Obj T (option (error Obj) * t) :=
  match keyFunc c obj with
  | Err err => Returned (Some (KeyError obj err), c)
  | Ok key =>
    let! store1 := threadSafeMap.Add key obj (store c) in
    Returned (None, {| store := store1; keyFunc := keyFunc c |})
  end.

Definition Update (obj : option Obj) (c : t)
  : outcome Obj T (option (error Obj) * t) :=
  match keyFunc c obj with
  | Err err => Returned (Some (KeyError obj err), c)
  | Ok key =>
    let! store1 := threadSafeMap.Update key obj (store c) in
    Returned (None, {| store := store1; keyFunc := keyFunc c |})
  end.

Definition Delete (obj : option Obj) (c : t)
  : outcome Obj T (option (error Obj) * t) :=
  match keyFunc c obj with
  | Err err => Returned (Some (KeyError obj err), c)
  | Ok key =>
    let! store1 := threadSafeMap.Delete key (store c) in
    Returned (None, {| store := store1; keyFunc := keyFunc c |})
  end.

Definition List (c : t) : list (option Obj) := threadSafeMap.List (store c).
Definition ListKeys (c : t) : list T := threadSafeMap.ListKeys (store c).

Definition ListKeysByIndex (indexName : string) (indexedValue : K) (c : t)
  : result Obj (list T) :=
  threadSafeMap.IndexKeys indexName indexedValue (store c).

Definition ListByIndex (indexName : string) (indexedValue : K) (c : t)
  : result Obj (list (option Obj)) :=
  threadSafeMap.ByIndex indexName indexedValue (store c).

Definition AddIndexer (indexName : string)
    (indexFunc : storeIndex.IndexFunc K Obj) (c : t)
  : outcome Obj T (option (error Obj) * t) :=
  let! r := threadSafeMap.AddIndexer indexName indexFunc (store c) in
  Returned (r.1, {| store := r.2; keyFunc := keyFunc c |}).

Definition AddIndexers (newIndexers : gmap string (storeIndex.IndexFunc K Obj))
    (c : t) : outcome Obj T (option (error Obj) * t) :=
  let! r := threadSafeMap.AddIndexers newIndexers (store c) in
  Returned (r.1, {| store := r.2; keyFunc := keyFunc c |}).

(** [GetByKey] and [Get] return [(item, exists, err)]. *)
Definition GetByKey (key : T) (c : t)
  : option Obj * bool * option (error Obj) :=
  let '(item, exists_) := threadSafeMap.Get key (store c) in
  (item, exists_, None).

Definition Get (obj : option Obj) (c : t)
  : option Obj * bool * option (error Obj) :=
  match keyFunc c obj with
  | Err err => (None, false, Some (KeyError obj err))
  | Ok key => GetByKey key c
  end.

(** The first loop of [Replace]: the objects of the list by key, or the
    error of the first object that has no key. *)
Fixpoint keyItems (keyFunc : KeyFunc T Obj) (l : list (option Obj))
    (items : gmap T (option Obj)) : result Obj (gmap T (option Obj)) :=
  match l with
  | [] => Ok items
  | item :: rest =>
    match keyFunc item with
    | Err err => Err (KeyError item err)
    | Ok key => keyItems keyFunc rest (<[key := item]> items)
    end
  end.

Definition Replace (l : list (option Obj)) (c : t)
  : outcome Obj T (option (error Obj) * t) :=
  match keyItems (keyFunc c) l ∅ with
  | Err e => Returned (Some e, c)
  | Ok items =>
    let! store1 := threadSafeMap.Replace items (store c) in
    Returned (None, {| store := store1; keyFunc := keyFunc c |})
  end.

Definition Size (c : t) : nat := threadSafeMap.Size (store c).
End defs.
Arguments t _ _ {_ _ _ _} _.
End cache.

(** ** evictionCache: the eviction-backed facade *)
Module evictionCache.
(** [type KeyFunc[T] func(obj interface{}) (T, error)] *)
Abbreviation KeyFunc T Obj := (option Obj → result Obj T) (only parsing).

Section defs.
Context {K T : Type} `{Countable K} `{Countable T} `{ZeroValue T} {Obj : Type}.

(** [type evictionCache struct { store; keyFunc; evictionPolicy; mu }] *)
Record t : Type := mk {
  store : threadSafeMap.t K T Obj;
  keyFunc : KeyFunc T Obj;
  evictionPolicy : Policy.t T;
}.

Definition NewEvictionCache (keyFunc : KeyFunc T Obj) (evictionPolicy : Policy.t T)
    (indexers : gmap string (storeIndex.IndexFunc K Obj)) : t :=
  {| store := threadSafeMap.NewThreadSafeStore indexers ∅;
     keyFunc := keyFunc;
     evictionPolicy := evictionPolicy |}.

Definition Add (obj : option Obj) (c : t)
  : outcome Obj T (option (error Obj) * t) :=
  match keyFunc c obj with
  | Err err => Returned (Some (KeyError obj err), c)
  | Ok key =>
    let '(evictedKey, evicted, policy') :=
      Policy.Put key (evictionPolicy c) in
    let! store1 :=
      if evicted then threadSafeMap.Delete evictedKey (store c)
      else Returned (store c) in
    let! store2 := threadSafeMap.Add key obj store1 in
    Returned (None, {| store := store2; keyFunc := keyFunc c;
                       evictionPolicy := policy' |})
  end.

Definition Update (obj : option Obj) (c : t)
  : outcome Obj T (option (error Obj) * t) :=
  match keyFunc c obj with
  | Err err => Returned (Some (KeyError obj err), c)
  | Ok key =>
    let! store1 := threadSafeMap.Update key obj (store c) in
    let '(_, _, policy') := Policy.Put key (evictionPolicy c) in
    Returned (None, {| store := store1; keyFunc := keyFunc c;
                       evictionPolicy := policy' |})
  end.

Definition Delete (obj : option Obj) (c : t)
  : outcome Obj T (option (error Obj) * t) :=
  match keyFunc c obj with
  | Err err => Returned (Some (KeyError obj err), c)
  | Ok key =>
    let policy' := Policy.Delete key (evictionPolicy c) in
    let! store1 := threadSafeMap.Delete key (store c) in
    Returned (None, {| store := store1; keyFunc := keyFunc c;
                       evictionPolicy := policy' |})
  end.

Definition GetByKey (key : T) (c : t) : option Obj * bool * t :=
  let '(item, exists_) := threadSafeMap.Get key (store c) in
  if exists_ then
    let '(_, _, policy') := Policy.Put key (evictionPolicy c) in
    (item, true, {| store := store c; keyFunc := keyFunc c;
                    evictionPolicy := policy' |})
  else (item, false, c).

Definition Evict (c : t) : outcome Obj T (option (error Obj) * t) :=
  let '(key, ok, policy') := Policy.Evict (evictionPolicy c) in
  if ok then
    let! store1 := threadSafeMap.Delete key (store c) in
    Returned (None, {| store := store1; keyFunc := keyFunc c;
                       evictionPolicy := policy' |})
  else
    Returned (Some NoItemsToEvict,
              {| store := store c; keyFunc := keyFunc c;
                 evictionPolicy := policy' |}).

Definition Size (c : t) : nat := threadSafeMap.Size (store c).

Definition List (c : t) : list (option Obj) := threadSafeMap.List (store c).
Definition ListKeys (c : t) : list T := threadSafeMap.ListKeys (store c).

(** [for _, key := range keys { c.evictionPolicy.Put(key) }]: what [Put]
    returns is dropped. *)
Definition putKeys (keys : list T) (p : Policy.t T) : Policy.t T :=
  foldl (λ p' key, (Policy.Put key p').2) p keys.

Definition ListKeysByIndex (indexName : string) (indexedValue : K) (c : t)
  : result Obj (list T) * t :=
  match threadSafeMap.IndexKeys indexName indexedValue (store c) with
  | Err e => (Err e, c)
  | Ok keys =>
    (Ok keys, {| store := store c; keyFunc := keyFunc c;
                 evictionPolicy := putKeys keys (evictionPolicy c) |})
  end.

Definition ListByIndex (indexName : string) (indexedValue : K) (c : t)
  : result Obj (list (option Obj)) :=
  threadSafeMap.ByIndex indexName indexedValue (store c).

Definition AddIndexer (indexName : string)
    (indexFunc : storeIndex.IndexFunc K Obj) (c : t)
  : outcome Obj T (option (error Obj) * t) :=
  let! r := threadSafeMap.AddIndexer indexName indexFunc (store c) in
  Returned (r.1, {| store := r.2; keyFunc := keyFunc c;
                    evictionPolicy := evictionPolicy c |}).

Definition AddIndexers (newIndexers : gmap string (storeIndex.IndexFunc K Obj))
    (c : t) : outcome Obj T (option (error Obj) * t) :=
  let! r := threadSafeMap.AddIndexers newIndexers (store c) in
  Returned (r.1, {| store := r.2; keyFunc := keyFunc c;
                    evictionPolicy := evictionPolicy c |}).

(** [Get] returns [(item, exists, err)] and the receiver. *)
Definition Get (obj : option Obj) (c : t)
  : option Obj * bool * option (error Obj) * t :=
  match keyFunc c obj with
  | Err err => (None, false, Some (KeyError obj err), c)
  | Ok key =>
    let '(item, exists_, c') := GetByKey key c in (item, exists_, None, c')
  end.

(** [Replace] keys the objects as [cache.Replace] does, resets the
    policy, replaces the store, and puts every key of the new map. *)
Definition Replace (l : list (option Obj)) (c : t)
  : outcome Obj T (option (error Obj) * t) :=
  match cache.keyItems (keyFunc c) l ∅ with
  | Err e => Returned (Some e, c)
  | Ok items =>
    let policy1 := Policy.Reset (evictionPolicy c) in
    let! store1 := threadSafeMap.Replace items (store c) in
    Returned (None, {| store := store1; keyFunc := keyFunc c;
                       evictionPolicy := putKeys (map_to_list items).*1 policy1 |})
  end.
End defs.
Arguments t _ _ {_ _ _ _} _.
End evictionCache.

(** * Specification-level definitions

    The representation invariants of the policies, the abstractions the
    properties are stated on, and the concrete values of the examples. *)

Section heap_defs.
Context {T : Type}.
Implicit Types (h : list (lfuEntry.t T)).

Definition freqAt h (i : nat) : Z :=
  default 0%Z (lfuEntry.frequency <$> h !! i).

Definition heap_ordered h (n : nat) : Prop :=
  ∀ c, 0 < c < n → (freqAt h ((c - 1) / 2) ≤ freqAt h c)%Z.

Definition index_ok h : Prop :=
  ∀ i e, h !! i = Some e → lfuEntry.index e = i.

Definition keyFreq (e : lfuEntry.t T) : T * Z :=
  (lfuEntry.key e, lfuEntry.frequency e).

Definition transp (i j k : nat) : nat :=
  if decide (k = i) then j else if decide (k = j) then i else k.
End heap_defs.

Section heap_wf_defs.
Context {T : Type}.
Definition heap_wf (h : list (lfuEntry.t T)) : Prop :=
  NoDup (lfuEntry.key <$> h) ∧ index_ok h ∧ heap_ordered h (length h).
End heap_wf_defs.

Section list_policy_defs.
Context {T : Type} `{Countable T} `{ZeroValue T}.

Definition FIFO_wf (f : FIFO.t T) : Prop :=
  NoDup (FIFO.lst f) ∧ FIFO.cache f = list_to_set (FIFO.lst f).

Definition lru_wf (l : lru.t T) : Prop :=
  NoDup (lru.lst l) ∧ lru.cache l = list_to_set (lru.lst l).
End list_policy_defs.

Section lfu_defs.
Context {T : Type} `{Countable T} `{ZeroValue T}.

(** The frequency counters of a heap, by key. *)
Definition heapFreqs (h : list (lfuEntry.t T)) : gmap T Z :=
  list_to_map (keyFreq <$> h).

Definition LFU_freqs (l : LFU.t T) : gmap T Z := heapFreqs (LFU.freqHeap l).

Definition LFU_wf (l : LFU.t T) : Prop :=
  heap_wf (LFU.freqHeap l) ∧
  LFU.cache l = list_to_set (lfuEntry.key <$> LFU.freqHeap l).
End lfu_defs.

Section policy_defs.
Context {T : Type} `{Countable T} `{ZeroValue T}.

(** The keys a policy tracks ([len(cache)] is what [Size] returns). *)
Definition Policy_tracked (p : Policy.t T) : gset T :=
  match p with
  | Policy.OfFIFO f => FIFO.cache f
  | Policy.OfLRU l => lru.cache l
  | Policy.OfLFU l => LFU.cache l
  end.

Definition Policy_capacity (p : Policy.t T) : Z :=
  match p with
  | Policy.OfFIFO f => FIFO.capacity f
  | Policy.OfLRU l => lru.capacity l
  | Policy.OfLFU l => LFU.capacity l
  end.

(** The representation invariant of a policy value. *)
Definition Policy_wf (p : Policy.t T) : Prop :=
  match p with
  | Policy.OfFIFO f => FIFO_wf f
  | Policy.OfLRU l => lru_wf l
  | Policy.OfLFU l => LFU_wf l
  end.

(** The three constructors. *)
Inductive policyKind : Type := KindFIFO | KindLRU | KindLFU.

Definition newPolicy (kind : policyKind) (capacity : Z) : Policy.t T :=
  match kind with
  | KindFIFO => Policy.OfFIFO (FIFO.NewFIFO capacity)
  | KindLRU => Policy.OfLRU (lru.NewLRU capacity)
  | KindLFU => Policy.OfLFU (LFU.NewLFU capacity)
  end.

(** The policy values a program can hold: a constructor's result, and
    what the methods make of it. *)
Inductive Policy_reachable : Policy.t T → Prop :=
  | reach_new kind capacity : Policy_reachable (newPolicy kind capacity)
  | reach_Put key p : Policy_reachable p → Policy_reachable (Policy.Put key p).2
  | reach_Delete key p : Policy_reachable p → Policy_reachable (Policy.Delete key p)
  | reach_Evict p : Policy_reachable p → Policy_reachable (Policy.Evict p).2
  | reach_Reset p : Policy_reachable p → Policy_reachable (Policy.Reset p).
End policy_defs.

Section index_inv_defs.
Context {K T : Type} `{Countable K} `{Countable T} {Obj : Type}.

(** An index reflects the stored objects: no bucket is empty, and a key
    is in the bucket of a value exactly when the index function yields
    that value for the object stored under the key. *)
Definition index_reflects (f : storeIndex.IndexFunc K Obj)
    (index : gmap K (gset T)) (items : gmap T (option Obj)) : Prop :=
  (∀ v ks, index !! v = Some ks → ks ≠ ∅) ∧
  (∀ v k, k ∈ storeIndex.bucket index v ↔
          ∃ o vs, items !! k = Some (Some o) ∧ f (Some o) = Ok vs ∧ v ∈ vs).

Definition indices_reflect (si : storeIndex.t K T Obj)
    (items : gmap T (option Obj)) : Prop :=
  ∀ name f, storeIndex.indexers si !! name = Some f →
    index_reflects f (default ∅ (storeIndex.indices si !! name)) items.

Definition store_consistent (tsm : threadSafeMap.t K T Obj) : Prop :=
  indices_reflect (threadSafeMap.index tsm) (threadSafeMap.items tsm).

(** Index functions that never fail and never yield a value twice. *)
Definition duplicate_free (indexers : gmap string (storeIndex.IndexFunc K Obj))
  : Prop :=
  ∀ name f o, indexers !! name = Some f →
    ∃ vs, f (Some o) = Ok vs ∧ NoDup vs.

(** Index functions that never fail. *)
Definition never_fails (indexers : gmap string (storeIndex.IndexFunc K Obj))
  : Prop :=
  ∀ name f o, indexers !! name = Some f → ∃ vs, f (Some o) = Ok vs.

(** The calls that change a store. *)
Inductive storeCall : Type :=
  | StoreAdd (key : T) (obj : option Obj)
  | StoreUpdate (key : T) (obj : option Obj)
  | StoreDelete (key : T)
  | StoreReplace (items : gmap T (option Obj)).

Definition doStoreCall (call : storeCall) (tsm : threadSafeMap.t K T Obj)
  : outcome Obj T (threadSafeMap.t K T Obj) :=
  match call with
  | StoreAdd key obj => threadSafeMap.Add key obj tsm
  | StoreUpdate key obj => threadSafeMap.Update key obj tsm
  | StoreDelete key => threadSafeMap.Delete key tsm
  | StoreReplace items => threadSafeMap.Replace items tsm
  end.

Definition runStoreCalls (calls : list storeCall)
    (tsm : threadSafeMap.t K T Obj)
  : outcome Obj T (threadSafeMap.t K T Obj) :=
  forRange doStoreCall calls tsm.
End index_inv_defs.
Arguments storeCall : clear implicits.

Section facade_defs.
Context {K T : Type} `{Countable K} `{Countable T} `{ZeroValue T} {Obj : Type}.

(** A call of the facade that changes the cache. *)
Inductive facadeCall : Type :=
  | CallAdd (obj : option Obj)
  | CallDelete (obj : option Obj).

Definition doCall (call : facadeCall) (c : evictionCache.t K T Obj)
  : outcome Obj T (option (error Obj) * evictionCache.t K T Obj) :=
  match call with
  | CallAdd obj => evictionCache.Add obj c
  | CallDelete obj => evictionCache.Delete obj c
  end.

(** The calls one after the other; the cache a failed call returns is
    the cache it was given. *)
Fixpoint runCalls (calls : list facadeCall) (c : evictionCache.t K T Obj)
  : outcome Obj T (evictionCache.t K T Obj) :=
  match calls with
  | [] => Returned c
  | call :: rest => let! r := doCall call c in runCalls rest r.2
  end.

(** What links the two halves of the facade. *)
Definition facade_inv (capacity : Z) (c : evictionCache.t K T Obj) : Prop :=
  Policy_wf (evictionCache.evictionPolicy c) ∧
  Policy_capacity (evictionCache.evictionPolicy c) = capacity ∧
  dom (threadSafeMap.items (evictionCache.store c))
    = Policy_tracked (evictionCache.evictionPolicy c) ∧
  ((1 ≤ capacity)%Z →
   (Z.of_nat (size (Policy_tracked (evictionCache.evictionPolicy c)))
    ≤ capacity)%Z).
End facade_defs.
Arguments facadeCall : clear implicits.

Section lfu_scenario_defs.
(** [Put] of each key in turn, with what each call returned. *)
Fixpoint LFU_puts (keys : list Z) (l : LFU.t Z)
  : list (Z * bool) * LFU.t Z :=
  match keys with
  | [] => ([], l)
  | key :: rest =>
    let '(evictedKey, evicted, l1) := LFU.Put key l in
    let '(out, l2) := LFU_puts rest l1 in
    ((evictedKey, evicted) :: out, l2)
  end.
End lfu_scenario_defs.

Section policy_run_defs.
Context {T : Type} `{Countable T} `{ZeroValue T}.

(** Up to [n] calls of [Evict], until one reports that nothing is left:
    the keys evicted, in the order of their eviction, and the policy
    afterwards. *)
Fixpoint evictN (n : nat) (p : Policy.t T) : list T * Policy.t T :=
  match n with
  | 0 => ([], p)
  | S n' =>
    let '(key, ok, p1) := Policy.Evict p in
    if ok then let '(keys, p2) := evictN n' p1 in (key :: keys, p2)
    else ([], p1)
  end.
End policy_run_defs.

Section replace_defs.
Context {T : Type} `{Countable T} {Obj : Type}.

(** The objects of a list that have the key [k]. *)
Definition hasKey (keyFunc : cache.KeyFunc T Obj) (k : T)
    (o : option Obj) : bool :=
  match keyFunc o with
  | Ok k' => bool_decide (k' = k)
  | Err _ => false
  end.

Definition objectsWithKey (keyFunc : cache.KeyFunc T Obj) (k : T)
    (l : list (option Obj)) : list (option Obj) :=
  filter (λ o, hasKey keyFunc k o = true) l.
End replace_defs.

Section cache_call_defs.
Context {K T : Type} `{Countable K} `{Countable T} {Obj : Type}.

(** The calls that change a plain store. *)
Inductive cacheCall : Type :=
  | CacheAdd (obj : option Obj)
  | CacheUpdate (obj : option Obj)
  | CacheDelete (obj : option Obj)
  | CacheReplace (l : list (option Obj)).

(** The objects a call hands to the key function. *)
Definition callObjects (call : cacheCall) : list (option Obj) :=
  match call with
  | CacheAdd obj | CacheUpdate obj | CacheDelete obj => [obj]
  | CacheReplace l => l
  end.

(** What a call that returns no error has done to the stored objects. *)
Definition callStores (call : cacheCall) (keyFunc : cache.KeyFunc T Obj)
    (before after : gmap T (option Obj)) : Prop :=
  match call with
  | CacheAdd obj | CacheUpdate obj =>
      ∃ key, keyFunc obj = Ok key ∧ after = <[key := obj]> before
  | CacheDelete obj =>
      ∃ key, keyFunc obj = Ok key ∧ after = delete key before
  | CacheReplace l => cache.keyItems keyFunc l ∅ = Ok after
  end.

Definition doCacheCall (call : cacheCall) (c : cache.t K T Obj)
  : outcome Obj T (option (error Obj) * cache.t K T Obj) :=
  match call with
  | CacheAdd obj => cache.Add obj c
  | CacheUpdate obj => cache.Update obj c
  | CacheDelete obj => cache.Delete obj c
  | CacheReplace l => cache.Replace l c
  end.

(** The calls one after the other, whether they return an error or
    not. *)
Fixpoint runCacheCalls (calls : list cacheCall) (c : cache.t K T Obj)
  : outcome Obj T (cache.t K T Obj) :=
  match calls with
  | [] => Returned c
  | call :: rest => let! r := doCacheCall call c in runCacheCalls rest r.2
  end.
End cache_call_defs.
Arguments cacheCall : clear implicits.

(** ** Concrete values for the examples *)
Module Examples.
(** Objects that are lists of integer tags, indexed by their tags (a
    multi-valued index); keys and indexed values are integers. *)
Definition byTags : storeIndex.IndexFunc Z (list Z) :=
  λ obj, match obj with
         | Some tags => Ok tags
         | None => Err (UserError "object is nil")
         end.

(** An index function that fails on an object without tags. *)
Definition byFirstTag : storeIndex.IndexFunc Z (list Z) :=
  λ obj, match obj with
         | Some (tag :: _) => Ok [tag]
         | _ => Err (UserError "object has no tag")
         end.

(** The index of a store that holds key 7 with the tags [1; 1]. *)
Definition tagIndex : storeIndex.t Z Z (list Z) :=
  storeIndex.mk {[ "tags" := byTags ]} {[ "tags" := {[ 1%Z := {[ 7%Z ]} ]} ]}.

Definition emptyStore : threadSafeMap.t Z Z (list Z) :=
  threadSafeMap.NewThreadSafeStore {[ "tags" := byTags ]} ∅.

(** The store after [Add(7, [])]: one object, without tags. *)
Definition storeWithUntagged : threadSafeMap.t Z Z (list Z) :=
  threadSafeMap.mk {[ 7%Z := Some [] ]}
                   (storeIndex.mk {[ "tags" := byTags ]} {[ "tags" := ∅ ]}).

(** [Add(7, [1; 1])] then [Update(7, tags)]. *)
Definition addThenUpdate (tags : list Z)
  : outcome (list Z) Z (threadSafeMap.t Z Z (list Z)) :=
  let! s1 := threadSafeMap.Add 7%Z (Some [1; 1]%Z) emptyStore in
  threadSafeMap.Update 7%Z (Some tags) s1.

(** Caches of integers that are their own keys, without indexers. *)
Definition intKeyFunc : evictionCache.KeyFunc Z Z :=
  λ obj, match obj with
         | Some z => Ok z
         | None => Err (UserError "object is nil")
         end.

Definition intCache (policy : Policy.t Z) (items : gmap Z (option Z))
  : evictionCache.t Z Z Z :=
  evictionCache.mk (threadSafeMap.mk items (storeIndex.mk ∅ ∅))
                   intKeyFunc policy.

Definition newIntCache (kind : policyKind) (capacity : Z)
  : evictionCache.t Z Z Z :=
  evictionCache.NewEvictionCache intKeyFunc (newPolicy kind capacity) ∅.

(** A FIFO policy of capacity 1 that tracks key 1, and the same after
    [Put(2)] evicted key 1. *)
Definition fifoWith1 : Policy.t Z := Policy.OfFIFO (FIFO.mk 1 {[ 1%Z ]} [1%Z]).
Definition fifoWith2 : Policy.t Z := Policy.OfFIFO (FIFO.mk 1 {[ 2%Z ]} [2%Z]).

(** An LRU policy of capacity 2 after [Put(1)], [Put(2)]. *)
Definition lruAfterTwoPuts : Policy.t Z :=
  (Policy.Put 2%Z (Policy.Put 1%Z (newPolicy KindLRU 2)).2).2.

(** An LFU policy of capacity 2 after [Put(1)], [Put(2)], [Put(2)]. *)
Definition lfuAfterThreePuts : LFU.t Z :=
  LFU.mk 2 {[ 1%Z; 2%Z ]}
         [lfuEntry.mk 1%Z 1%Z 0; lfuEntry.mk 2%Z 2%Z 1].
End Examples.
Import Examples.

Module MoreExamples.
(** An index function with one value per object: the number of its tags. *)
Definition bySize : storeIndex.IndexFunc Z (list Z) :=
  λ obj, match obj with
         | Some tags => Ok [Z.of_nat (length tags)]
         | None => Err (UserError "object is nil")
         end.

(** The store after [Add(7, [5])] on an empty store indexed by [bySize]. *)
Definition sizedStore : threadSafeMap.t Z Z (list Z) :=
  threadSafeMap.mk {[ 7%Z := Some [5%Z] ]}
                   (storeIndex.mk {[ "size" := bySize ]}
                                  {[ "size" := {[ 1%Z := {[ 7%Z ]} ]} ]}).

(** The LRU-backed cache of capacity 2 after [Add(1)]. *)
Definition lruCacheWith1 : evictionCache.t Z Z Z :=
  intCache (Policy.OfLRU (lru.mk 2 {[ 1%Z ]} [1%Z])) {[ 1%Z := Some 1%Z ]}.

(** Objects that are lists of integers and start with their key. *)
Definition headKeyFunc : evictionCache.KeyFunc Z (list Z) :=
  λ obj, match obj with
         | Some (k :: _) => Ok k
         | _ => Err (UserError "object has no key")
         end.

(** The FIFO-backed cache of capacity 2, indexed by [bySize], after
    [Add([7])]. *)
Definition sizedCache : evictionCache.t Z Z (list Z) :=
  evictionCache.mk
    (threadSafeMap.mk {[ 7%Z := Some [7%Z] ]}
       (storeIndex.mk {[ "size" := bySize ]}
                      {[ "size" := {[ 1%Z := {[ 7%Z ]} ]} ]}))
    headKeyFunc
    (Policy.OfFIFO (FIFO.mk 2 {[ 7%Z ]} [7%Z])).

(** The FIFO-backed cache of capacity 1 after [Add(1)], which is full,
    and the same after [Update(2)]: the store holds both objects, the
    policy tracks key 2 only. *)
Definition fullCache : evictionCache.t Z Z Z :=
  intCache fifoWith1 {[ 1%Z := Some 1%Z ]}.
Definition overfullCache : evictionCache.t Z Z Z :=
  intCache fifoWith2 {[ 1%Z := Some 1%Z; 2%Z := Some 2%Z ]}.

(** A plain store of integers that are their own keys. *)
Definition intStore : cache.t Z Z Z := cache.NewStore intKeyFunc.
End MoreExamples.
Import MoreExamples.

(** * Lemmas *)

(** [lia] with the equations of the divisions by a constant. *)
Ltac dlia := zify; Z.to_euclidean_division_equations; lia.

Local Arguments Nat.div : simpl never.
Local Arguments Nat.mul : simpl never.

Section sets_facts.
Context {T : Type} `{Countable T}.

Lemma KeySet_dom {V} (m : gmap T V) : sets.KeySet m = dom m.
Proof.
  unfold sets.KeySet.
  assert (Hgen : ∀ (l : list (T * V)) (acc : gset T),
    foldl (λ ret kv, sets.Insert kv.1 ret) acc l = list_to_set l.*1 ∪ acc).
  { induction l as [|[k v] l IH]; intros acc; simpl.
    - set_solver.
    - rewrite IH. unfold sets.Insert. set_solver. }
  rewrite Hgen. apply set_eq. intros k.
  rewrite elem_of_union, elem_of_list_to_set, elem_of_dom.
  rewrite list_elem_of_fmap. split.
  - intros [[[k' v] [-> Hin]]|Hin]; [|set_solver].
    apply elem_of_map_to_list in Hin. eauto.
  - intros [v Hv]. left. exists (k, v). split; [done|].
    by apply elem_of_map_to_list.
Qed.

Lemma HasAny_true (s : gset T) (items : list T) :
  sets.HasAny s items = true ↔ ∃ x, x ∈ items ∧ x ∈ s.
Proof.
  induction items as [|a items IH]; simpl.
  - split; [done|]. intros (x & Hx & _). by apply elem_of_nil in Hx.
  - unfold sets.Has. case_bool_decide as Ha.
    + split; [|done]. intros _. exists a. split; [left|done].
    + rewrite IH. split.
      * intros (x & Hx & Hs). exists x. split; [by right|done].
      * intros (x & Hx & Hs). apply elem_of_cons in Hx as [->|Hx]; [done|].
        eauto.
Qed.
End sets_facts.

Section index_facts.
Context {K T : Type} `{Countable K} `{Countable T} {Obj : Type}.
Implicit Types (si : storeIndex.t K T Obj) (tsm : threadSafeMap.t K T Obj).

Lemma addIndexer_conflict si name f :
  name ∈ dom (storeIndex.indexers si) →
  storeIndex.addIndexer name f si = (Some (IndexerConflict [name]), si).
Proof.
  intros [g Hg]%elem_of_dom. unfold storeIndex.addIndexer. by rewrite Hg.
Qed.

Lemma addIndexer_fresh si name f :
  name ∉ dom (storeIndex.indexers si) →
  storeIndex.addIndexer name f si =
    (None, storeIndex.mk (<[name := f]> (storeIndex.indexers si))
                         (storeIndex.indices si)).
Proof.
  intros Hn%not_elem_of_dom. unfold storeIndex.addIndexer. by rewrite Hn.
Qed.

Lemma addIndexers_conflict si new name :
  name ∈ dom new → name ∈ dom (storeIndex.indexers si) →
  ∃ names, storeIndex.addIndexers new si = (Some (IndexerConflict names), si).
Proof.
  intros Hnew Hold. unfold storeIndex.addIndexers.
  rewrite !KeySet_dom. unfold sets.UnsortedList.
  destruct (sets.HasAny _ _) eqn:Hany; [eauto|].
  exfalso. apply not_true_iff_false in Hany. apply Hany.
  apply HasAny_true. exists name. split; [|done].
  by apply elem_of_elements.
Qed.

Lemma addIndexers_fresh si new :
  dom new ## dom (storeIndex.indexers si) →
  ∃ ixs, storeIndex.addIndexers new si = (None, storeIndex.mk ixs (storeIndex.indices si))
         ∧ ∀ name f, new !! name = Some f → ixs !! name = Some f.
Proof.
  intros Hdisj. unfold storeIndex.addIndexers.
  rewrite !KeySet_dom. unfold sets.UnsortedList.
  destruct (sets.HasAny _ _) eqn:Hany.
  { apply HasAny_true in Hany as (x & Hx%elem_of_elements & Hx'). set_solver. }
  eexists. split; [done|].
  intros name f Hf. apply elem_of_map_to_list in Hf.
  pose proof (NoDup_fst_map_to_list new) as Hnd.
  revert Hf Hnd. generalize (storeIndex.indexers si) as m.
  induction (map_to_list new) as [|[n g] l IH]; intros m Hin Hnd; simpl.
  - by apply elem_of_nil in Hin.
  - apply NoDup_cons in Hnd as [Hnotin Hnd].
    apply elem_of_cons in Hin as [Heq|Hin].
    + inversion Heq; subst. clear IH Hnd.
      revert m. induction l as [|[n' g'] l IH]; intros m; simpl.
      * by rewrite lookup_insert_eq.
      * rewrite insert_insert_ne.
        2:{ intros ->. apply Hnotin. simpl. left. }
        apply IH. intros Hin. apply Hnotin. simpl. by right.
    + by apply IH.
Qed.
End index_facts.

Section store_facts.
Context {K T : Type} `{Countable K} `{Countable T} {Obj : Type}.
Implicit Types (si : storeIndex.t K T Obj) (tsm : threadSafeMap.t K T Obj).

Lemma updateSingleIndex_indexers name oldObj newObj key si si' :
  storeIndex.updateSingleIndex name oldObj newObj key si = Returned si' →
  storeIndex.indexers si' = storeIndex.indexers si.
Proof.
  unfold storeIndex.updateSingleIndex.
  destruct (storeIndex.indexers si !! name) as [f|]; [|done].
  destruct (storeIndex.indexValuesOf f name key oldObj) as [ovs|]; [|done].
  destruct (storeIndex.indexValuesOf f name key newObj) as [nvs|]; [|done].
  simpl. destruct (storeIndex.sameSingleValue nvs ovs).
  - by intros [= <-].
  - destruct (storeIndex.removeOldValues key ovs _) as [i1 r].
    by intros [= <-].
Qed.



Lemma forRange_inv {A S} (Inv : S → Prop)
    (body : A → S → outcome Obj T S) (xs : list A) (s s' : S) :
  (∀ y s0 s1, y ∈ xs → Inv s0 → body y s0 = Returned s1 → Inv s1) →
  Inv s → forRange body xs s = Returned s' → Inv s'.
Proof.
  revert s. induction xs as [|y xs IH]; intros s Hpres Hs; simpl.
  - by intros [= <-].
  - destruct (body y s) as [s1|p] eqn:Hy; simpl; [|done].
    apply IH.
    + intros z s0 s2 Hz. apply Hpres. by right.
    + eapply Hpres; [left|done..].
Qed.
End store_facts.

Section index_update_facts.
Context {K T : Type} `{Countable K} `{Countable T} {Obj : Type}.
Implicit Types (si : storeIndex.t K T Obj) (tsm : threadSafeMap.t K T Obj).
Implicit Types (index : gmap K (gset T)) (items : gmap T (option Obj)).

Lemma bucket_insert index v ks u :
  storeIndex.bucket (<[v := ks]> index) u
  = if decide (u = v) then ks else storeIndex.bucket index u.
Proof.
  unfold storeIndex.bucket. case_decide as Hu.
  - subst. by rewrite lookup_insert_eq.
  - by rewrite lookup_insert_ne.
Qed.

Lemma bucket_delete index v u :
  storeIndex.bucket (delete v index) u
  = if decide (u = v) then ∅ else storeIndex.bucket index u.
Proof.
  unfold storeIndex.bucket. case_decide as Hu.
  - subst. by rewrite lookup_delete_eq.
  - by rewrite lookup_delete_ne.
Qed.

(** With the key in the bucket of every old value and no value listed
    twice, the first loop never meets a missing bucket. *)
Lemma removeOldValues_spec key ovs index :
  NoDup ovs →
  (∀ v ks, index !! v = Some ks → ks ≠ ∅) →
  (∀ v, v ∈ ovs → key ∈ storeIndex.bucket index v) →
  ∃ index1,
    storeIndex.removeOldValues key ovs index = (index1, false) ∧
    (∀ v ks, index1 !! v = Some ks → ks ≠ ∅) ∧
    ∀ u, storeIndex.bucket index1 u
         = if decide (u ∈ ovs) then storeIndex.bucket index u ∖ {[key]}
           else storeIndex.bucket index u.
Proof.
  revert index. induction ovs as [|v ovs IH]; intros index Hnd Hne Hin;
    cbn [storeIndex.removeOldValues].
  { exists index. split; [done|]. split; [done|]. intros u.
    rewrite decide_False; [done|]. apply not_elem_of_nil. }
  apply NoDup_cons in Hnd as [Hv Hnd].
  assert (Hkv : key ∈ storeIndex.bucket index v) by (apply Hin; left).
  unfold storeIndex.bucket in Hkv.
  destruct (index !! v) as [ks|] eqn:Hlook; simpl in Hkv; [|set_solver].
  set (index' := if bool_decide (sets.Len (sets.Delete key ks) = 0)
                 then delete v index
                 else <[v := sets.Delete key ks]> index).
  assert (Hb' : ∀ u, storeIndex.bucket index' u
                = if decide (u = v) then ks ∖ {[key]}
                  else storeIndex.bucket index u).
  { intros u. unfold index'. case_bool_decide as Hlen.
    - rewrite bucket_delete. case_decide; [|done].
      unfold sets.Len, sets.Delete in Hlen.
      apply size_empty_inv in Hlen. by apply leibniz_equiv in Hlen.
    - by rewrite bucket_insert. }
  destruct (IH index') as (index1 & Hrem & Hne1 & Hb1); [done|..].
  - intros u ks'. unfold index'. case_bool_decide as Hlen.
    + intros Hu. destruct (decide (u = v)) as [->|Huv].
      * by rewrite lookup_delete_eq in Hu.
      * rewrite lookup_delete_ne in Hu by done. by eapply Hne.
    + destruct (decide (u = v)) as [->|Huv].
      * rewrite lookup_insert_eq. intros [= <-] Hem. apply Hlen.
        unfold sets.Len. rewrite Hem. apply size_empty.
      * rewrite lookup_insert_ne by done. apply Hne.
  - intros u Hu. rewrite Hb'. rewrite decide_False by (intros ->; done).
    apply Hin. by right.
  - exists index1. split; [done|]. split; [done|]. intros u.
    rewrite Hb1, Hb'. destruct (decide (u = v)) as [->|Huv].
    + rewrite decide_False by done. rewrite decide_True by left.
      unfold storeIndex.bucket. by rewrite Hlook.
    + destruct (decide (u ∈ ovs)) as [Hu|Hu].
      * rewrite decide_True by (by right). done.
      * rewrite decide_False; [done|].
        intros [->|?]%elem_of_cons; done.
Qed.

Lemma insertNewValues_spec key nvs index :
  (∀ v ks, index !! v = Some ks → ks ≠ ∅) →
  (∀ v ks, storeIndex.insertNewValues key nvs index !! v = Some ks → ks ≠ ∅) ∧
  ∀ u, storeIndex.bucket (storeIndex.insertNewValues key nvs index) u
       = if decide (u ∈ nvs) then {[key]} ∪ storeIndex.bucket index u
         else storeIndex.bucket index u.
Proof.
  revert index. induction nvs as [|v nvs IH]; intros index Hne;
    cbn [storeIndex.insertNewValues].
  { split; [done|]. intros u. rewrite decide_False; [done|].
    apply not_elem_of_nil. }
  set (index' := <[v := sets.Insert key (default sets.NewSet (index !! v))]> index).
  destruct (IH index') as [Hne' Hb'].
  - intros u ks. unfold index'. destruct (decide (u = v)) as [->|Huv].
    + rewrite lookup_insert_eq. intros [= <-]. unfold sets.Insert. set_solver.
    + rewrite lookup_insert_ne by done. apply Hne.
  - split; [done|]. intros u. rewrite Hb'. unfold index'.
    rewrite bucket_insert. unfold sets.Insert, sets.NewSet.
    fold (storeIndex.bucket index v).
    destruct (decide (u = v)) as [->|Huv].
    + rewrite (decide_True (P := v ∈ v :: nvs)) by left.
      case_decide; set_solver.
    + destruct (decide (u ∈ nvs)) as [Hu|Hu].
      * rewrite decide_True by (by right). done.
      * rewrite decide_False; [done|].
        intros [->|?]%elem_of_cons; done.
Qed.
End index_update_facts.

Section index_invariant_facts.
Context {K T : Type} `{Countable K} `{Countable T} {Obj : Type}.
Implicit Types (si : storeIndex.t K T Obj) (tsm : threadSafeMap.t K T Obj).
Implicit Types (index : gmap K (gset T)) (items : gmap T (option Obj)).

Lemma mjoin_lookup_Some items key o :
  mjoin (items !! key) = Some o ↔ items !! key = Some (Some o).
Proof. destruct (items !! key) as [[o'|]|]; simpl; naive_solver. Qed.

Lemma indexValuesOf_ok (f : storeIndex.IndexFunc K Obj) name key obj :
  (∀ o, obj = Some o → ∃ vs, f (Some o) = Ok vs) →
  ∃ vs, storeIndex.indexValuesOf (T:=T) f name key obj = Returned vs ∧
        (∀ o vs', obj = Some o → f (Some o) = Ok vs' → vs = vs') ∧
        (obj = None → vs = []) ∧
        ∀ v, v ∈ vs ↔ ∃ o vs', obj = Some o ∧ f (Some o) = Ok vs' ∧ v ∈ vs'.
Proof.
  intros Hf. unfold storeIndex.indexValuesOf. destruct obj as [o|].
  - destruct (Hf o eq_refl) as (vs & Hvs). rewrite Hvs.
    exists vs. split; [done|]. split; [|split; [done|]].
    + intros o' vs' [= <-] Hvs'. congruence.
    + intros v. split.
      * intros Hv. by exists o, vs.
      * intros (o' & vs' & [= <-] & Hvs' & Hv). congruence.
  - exists []. split; [done|]. split; [done|]. split; [done|].
    intros v. split.
    + by intros ?%elem_of_nil.
    + by intros (? & ? & ? & _).
Qed.

Lemma sameSingleValue_true (nvs ovs : list K) :
  storeIndex.sameSingleValue nvs ovs = true → ∃ v, nvs = [v] ∧ ovs = [v].
Proof.
  unfold storeIndex.sameSingleValue.
  destruct nvs as [|n [|]]; try done. destruct ovs as [|o [|]]; try done.
  intros ->%bool_decide_eq_true. eauto.
Qed.

(** One index, updated for one key whose object changes from [oldObj]
    to [newObj]. *)
Lemma updateSingleIndex_reflects name f oldObj newObj key si items items' :
  storeIndex.indexers si !! name = Some f →
  (∀ o, oldObj = Some o → ∃ vs, f (Some o) = Ok vs ∧ NoDup vs) →
  (∀ o, newObj = Some o → ∃ vs, f (Some o) = Ok vs) →
  index_reflects f (default ∅ (storeIndex.indices si !! name)) items →
  oldObj = mjoin (items !! key) →
  newObj = mjoin (items' !! key) →
  (∀ k, k ≠ key → items' !! k = items !! k) →
  ∃ index2,
    storeIndex.updateSingleIndex name oldObj newObj key si
      = Returned (storeIndex.mk (storeIndex.indexers si)
                    (<[name := index2]> (storeIndex.indices si))) ∧
    index_reflects f index2 items'.
Proof.
  intros Hname Hfo Hfn [Hne Hrefl] Hold Hnew Hother.
  unfold storeIndex.updateSingleIndex. rewrite Hname.
  destruct (indexValuesOf_ok f name key oldObj)
    as (ovs & -> & Hoeq & Honil & Hovs).
  { intros o Ho. destruct (Hfo o Ho) as (vs & Hvs & _). by exists vs. }
  destruct (indexValuesOf_ok f name key newObj Hfn)
    as (nvs & -> & _ & _ & Hnvs).
  assert (Hndo : NoDup ovs).
  { destruct oldObj as [o|].
    - destruct (Hfo o eq_refl) as (vs & Hvs & Hnd).
      by rewrite (Hoeq o vs eq_refl Hvs).
    - rewrite Honil by done. constructor. }
  simpl. set (index := default ∅ (storeIndex.indices si !! name)) in *.
  assert (Hkey : ∀ v, key ∈ storeIndex.bucket index v ↔ v ∈ ovs).
  { intros v. rewrite Hrefl, Hovs. split.
    - intros (o & vs & Hit & Hvs & Hv). exists o, vs.
      split; [|done]. rewrite Hold. by apply mjoin_lookup_Some.
    - intros (o & vs & Ho & Hvs & Hv). exists o, vs.
      split; [|done]. apply mjoin_lookup_Some. congruence. }
  assert (Hkey' : ∀ v, v ∈ nvs ↔
            ∃ o vs, items' !! key = Some (Some o) ∧ f (Some o) = Ok vs ∧ v ∈ vs).
  { intros v. rewrite Hnvs. split.
    - intros (o & vs & Ho & Hvs & Hv). exists o, vs.
      split; [|done]. apply mjoin_lookup_Some. congruence.
    - intros (o & vs & Hit & Hvs & Hv). exists o, vs.
      split; [|done]. rewrite Hnew. by apply mjoin_lookup_Some. }
  destruct (storeIndex.sameSingleValue nvs ovs) eqn:Hsame.
  - apply sameSingleValue_true in Hsame as (v0 & -> & ->).
    exists index. split; [done|]. split; [done|]. intros v k.
    destruct (decide (k = key)) as [->|Hk].
    + by rewrite Hkey, <- Hkey'.
    + rewrite Hrefl. by setoid_rewrite (Hother k Hk).
  - destruct (removeOldValues_spec key ovs index Hndo Hne) as (index1 & -> & Hne1 & Hb1).
    { intros v Hv. by apply Hkey. }
    destruct (insertNewValues_spec key nvs index1 Hne1) as [Hne2 Hb2].
    eexists. split; [done|]. split; [done|]. intros v k.
    rewrite Hb2, Hb1.
    destruct (decide (k = key)) as [->|Hk].
    + rewrite <- Hkey'. pose proof (Hkey v) as Hkv.
      repeat case_decide; set_solver.
    + setoid_rewrite (Hother k Hk). rewrite <- Hrefl.
      repeat case_decide; set_solver.
Qed.

Lemma updateSingleIndex_other name name' oldObj newObj key si si' :
  storeIndex.updateSingleIndex name oldObj newObj key si = Returned si' →
  name' ≠ name →
  storeIndex.indices si' !! name' = storeIndex.indices si !! name'.
Proof.
  unfold storeIndex.updateSingleIndex.
  destruct (storeIndex.indexers si !! name) as [f|]; [|done].
  destruct (storeIndex.indexValuesOf f name key oldObj) as [ovs|]; [|done].
  destruct (storeIndex.indexValuesOf f name key newObj) as [nvs|]; [|done].
  simpl. destruct (storeIndex.sameSingleValue nvs ovs).
  - intros [= <-] Hne. simpl. by rewrite lookup_insert_ne.
  - destruct (storeIndex.removeOldValues key ovs _) as [i1 r].
    intros [= <-] Hne. simpl. by rewrite lookup_insert_ne.
Qed.

(** Every index, updated for one key. *)
Lemma updateIndices_reflects oldObj newObj key si items items' :
  (∀ name f o, storeIndex.indexers si !! name = Some f → oldObj = Some o →
     ∃ vs, f (Some o) = Ok vs ∧ NoDup vs) →
  (∀ name f o, storeIndex.indexers si !! name = Some f → newObj = Some o →
     ∃ vs, f (Some o) = Ok vs) →
  indices_reflect si items →
  oldObj = mjoin (items !! key) →
  newObj = mjoin (items' !! key) →
  (∀ k, k ≠ key → items' !! k = items !! k) →
  ∃ si', storeIndex.updateIndices oldObj newObj key si = Returned si' ∧
         storeIndex.indexers si' = storeIndex.indexers si ∧
         indices_reflect si' items'.
Proof.
  intros Hfo Hfn Hrefl Hold Hnew Hother. unfold storeIndex.updateIndices.
  set (ixs := storeIndex.indexers si).
  assert (Hgen : ∀ (names : list string) si0,
    NoDup names →
    storeIndex.indexers si0 = ixs →
    (∀ n f, ixs !! n = Some f → n ∈ names →
       index_reflects f (default ∅ (storeIndex.indices si0 !! n)) items) →
    (∀ n f, ixs !! n = Some f → n ∉ names →
       index_reflects f (default ∅ (storeIndex.indices si0 !! n)) items') →
    (∀ n, n ∈ names → is_Some (ixs !! n)) →
    ∃ si', forRange (λ name si1,
               storeIndex.updateSingleIndex name oldObj newObj key si1)
             names si0 = Returned si' ∧
           storeIndex.indexers si' = ixs ∧
           ∀ n f, ixs !! n = Some f →
             index_reflects f (default ∅ (storeIndex.indices si' !! n)) items').
  { induction names as [|name names IH]; intros si0 Hnd Hixs Hin Hout Hreg.
    { exists si0. split; [done|]. split; [done|]. intros n f Hn.
      apply Hout; [done|]. apply not_elem_of_nil. }
    apply NoDup_cons in Hnd as [Hname Hnd].
    destruct (Hreg name ltac:(left)) as [f Hf].
    destruct (updateSingleIndex_reflects name f oldObj newObj key si0
                items items') as (index2 & Hupd & Hrefl2); try done.
    { by rewrite Hixs. }
    { intros o. by apply (Hfo name). }
    { intros o. by apply (Hfn name). }
    { apply Hin; [done|left]. }
    simpl. rewrite Hupd. simpl.
    apply IH; [done|by rewrite <- Hixs|..].
    - intros n g Hg Hn. simpl. rewrite lookup_insert_ne by (intros ->; done).
      apply Hin; [done|by right].
    - intros n g Hg Hn. simpl. destruct (decide (n = name)) as [->|Hnn].
      + rewrite lookup_insert_eq. simpl. congruence.
      + rewrite lookup_insert_ne by done. apply Hout; [done|].
        intros [->|?]%elem_of_cons; done.
    - intros n Hn. apply Hreg. by right. }
  destruct (Hgen (map_to_list ixs).*1 si) as (si' & Hrun & Hix & Hr).
  - apply NoDup_fst_map_to_list.
  - done.
  - intros n f Hn _. by apply Hrefl.
  - intros n f Hn Hnotin. exfalso. apply Hnotin.
    apply list_elem_of_fmap. exists (n, f). split; [done|].
    by apply elem_of_map_to_list.
  - intros n ((n' & f) & -> & Hin%elem_of_map_to_list)%list_elem_of_fmap.
    by exists f.
  - exists si'. split; [done|]. split; [done|]. intros n f Hn.
    apply Hr. by rewrite Hix in Hn.
Qed.

Lemma Update_consistent key obj tsm :
  duplicate_free (storeIndex.indexers (threadSafeMap.index tsm)) →
  store_consistent tsm →
  ∃ tsm', threadSafeMap.Update key obj tsm = Returned tsm' ∧
          threadSafeMap.items tsm' = <[key := obj]> (threadSafeMap.items tsm) ∧
          storeIndex.indexers (threadSafeMap.index tsm')
            = storeIndex.indexers (threadSafeMap.index tsm) ∧
          store_consistent tsm'.
Proof.
  intros Hdf Hcons. unfold threadSafeMap.Update.
  destruct (updateIndices_reflects (mjoin (threadSafeMap.items tsm !! key))
              obj key (threadSafeMap.index tsm) (threadSafeMap.items tsm)
              (<[key := obj]> (threadSafeMap.items tsm)))
    as (si' & -> & Hix & Hr); try done.
  - intros name f o Hf _. by apply (Hdf name).
  - intros name f o Hf _. destruct (Hdf name f o Hf) as (vs & ? & _).
    by exists vs.
  - by rewrite lookup_insert_eq.
  - intros k Hk. by rewrite lookup_insert_ne.
  - eexists. split; [done|]. done.
Qed.

Lemma Delete_consistent key tsm :
  duplicate_free (storeIndex.indexers (threadSafeMap.index tsm)) →
  store_consistent tsm →
  ∃ tsm', threadSafeMap.Delete key tsm = Returned tsm' ∧
          threadSafeMap.items tsm' = delete key (threadSafeMap.items tsm) ∧
          storeIndex.indexers (threadSafeMap.index tsm')
            = storeIndex.indexers (threadSafeMap.index tsm) ∧
          store_consistent tsm'.
Proof.
  intros Hdf Hcons. unfold threadSafeMap.Delete.
  destruct (threadSafeMap.items tsm !! key) as [obj|] eqn:Hkey.
  - destruct (updateIndices_reflects obj None key (threadSafeMap.index tsm)
                (threadSafeMap.items tsm)
                (delete key (threadSafeMap.items tsm)))
      as (si' & -> & Hix & Hr); try done.
    + intros name f o Hf _. by apply (Hdf name).
    + by rewrite Hkey.
    + by rewrite lookup_delete_eq.
    + intros k Hk. by rewrite lookup_delete_ne.
    + eexists. split; [done|]. done.
  - exists tsm. split; [done|]. split; [|done].
    by rewrite delete_id.
Qed.

Lemma reset_reflects si :
  indices_reflect (storeIndex.reset si) ∅.
Proof.
  intros name f _. split.
  - intros v ks. simpl. by rewrite lookup_empty.
  - intros v k. unfold storeIndex.bucket. simpl. rewrite !lookup_empty.
    simpl. split; [set_solver|].
    by intros (o & vs & Hk & _).
Qed.

(** [Replace] builds every index anew: the old values of a key are
    never looked at. *)
Lemma Replace_rebuilds newItems tsm :
  never_fails (storeIndex.indexers (threadSafeMap.index tsm)) →
  ∃ tsm', threadSafeMap.Replace newItems tsm = Returned tsm' ∧
          threadSafeMap.items tsm' = newItems ∧
          storeIndex.indexers (threadSafeMap.index tsm')
            = storeIndex.indexers (threadSafeMap.index tsm) ∧
          store_consistent tsm'.
Proof.
  intros Hnf. unfold threadSafeMap.Replace.
  set (ixs := storeIndex.indexers (threadSafeMap.index tsm)) in *.
  assert (Hgen : ∀ (l : list (T * option Obj)) si0 acc,
    NoDup l.*1 →
    storeIndex.indexers si0 = ixs →
    indices_reflect si0 acc →
    (∀ k, k ∈ l.*1 → acc !! k = None) →
    ∃ si', forRange (λ ki si1, storeIndex.updateIndices None ki.2 ki.1 si1)
             l si0 = Returned si' ∧
           storeIndex.indexers si' = ixs ∧
           indices_reflect si' (list_to_map l ∪ acc)).
  { induction l as [|[k o] l IH]; intros si0 acc Hnd Hix Hr Hfresh.
    { exists si0. split; [done|]. split; [done|].
      simpl. by rewrite (left_id_L ∅ (∪)). }
    simpl in Hnd. apply NoDup_cons in Hnd as [Hk Hnd].
    destruct (updateIndices_reflects None o k si0 acc (<[k := o]> acc))
      as (si1 & Hrun & Hix1 & Hr1); try done.
    { intros name f o' Hf _. apply (Hnf name). by rewrite <- Hix. }
    { rewrite Hfresh; [done|]. simpl. left. }
    { by rewrite lookup_insert_eq. }
    { intros k' Hk'. by rewrite lookup_insert_ne. }
    simpl. rewrite Hrun. simpl.
    destruct (IH si1 (<[k := o]> acc)) as (si' & Hrun' & Hix' & Hr'); try done.
    { congruence. }
    { intros k' Hk'. rewrite lookup_insert_ne by (intros ->; done).
      apply Hfresh. simpl. by right. }
    exists si'. split; [done|]. split; [done|].
    assert (Heq : <[k := o]> (list_to_map l) ∪ acc
                  = list_to_map l ∪ <[k := o]> acc).
    { rewrite <- insert_union_l. rewrite insert_union_r; [done|].
      by apply not_elem_of_list_to_map_1. }
    by rewrite Heq. }
  destruct (Hgen (map_to_list newItems)
              (storeIndex.reset (threadSafeMap.index tsm)) ∅)
    as (si' & -> & Hix & Hr).
  - apply NoDup_fst_map_to_list.
  - done.
  - apply reset_reflects.
  - intros k _. apply lookup_empty.
  - eexists. split; [done|]. split; [done|]. split; [done|].
    unfold store_consistent. simpl.
    by rewrite list_to_map_to_list, (right_id_L ∅ (∪)) in Hr.
Qed.

Lemma duplicate_free_never_fails
    (indexers : gmap string (storeIndex.IndexFunc K Obj)) :
  duplicate_free indexers → never_fails indexers.
Proof.
  intros Hdf name f o Hf. destruct (Hdf name f o Hf) as (vs & ? & _).
  by exists vs.
Qed.

Lemma Replace_consistent newItems tsm :
  duplicate_free (storeIndex.indexers (threadSafeMap.index tsm)) →
  ∃ tsm', threadSafeMap.Replace newItems tsm = Returned tsm' ∧
          threadSafeMap.items tsm' = newItems ∧
          storeIndex.indexers (threadSafeMap.index tsm')
            = storeIndex.indexers (threadSafeMap.index tsm) ∧
          store_consistent tsm'.
Proof.
  intros Hdf. apply Replace_rebuilds. by apply duplicate_free_never_fails.
Qed.

Lemma doStoreCall_consistent call tsm :
  duplicate_free (storeIndex.indexers (threadSafeMap.index tsm)) →
  store_consistent tsm →
  ∃ tsm', doStoreCall call tsm = Returned tsm' ∧
          storeIndex.indexers (threadSafeMap.index tsm')
            = storeIndex.indexers (threadSafeMap.index tsm) ∧
          store_consistent tsm'.
Proof.
  intros Hdf Hcons. destruct call as [key obj|key obj|key|newItems]; simpl.
  - destruct (Update_consistent key obj tsm Hdf Hcons) as (t' & ? & ? & ? & ?).
    by exists t'.
  - destruct (Update_consistent key obj tsm Hdf Hcons) as (t' & ? & ? & ? & ?).
    by exists t'.
  - destruct (Delete_consistent key tsm Hdf Hcons) as (t' & ? & ? & ? & ?).
    by exists t'.
  - destruct (Replace_consistent newItems tsm Hdf) as (t' & ? & ? & ? & ?).
    by exists t'.
Qed.

Lemma runStoreCalls_consistent calls tsm :
  duplicate_free (storeIndex.indexers (threadSafeMap.index tsm)) →
  store_consistent tsm →
  ∃ tsm', runStoreCalls calls tsm = Returned tsm' ∧
          storeIndex.indexers (threadSafeMap.index tsm')
            = storeIndex.indexers (threadSafeMap.index tsm) ∧
          store_consistent tsm'.
Proof.
  unfold runStoreCalls. revert tsm.
  induction calls as [|call calls IH]; intros tsm Hdf Hcons.
  { by exists tsm. }
  destruct (doStoreCall_consistent call tsm Hdf Hcons) as (t1 & Hrun & Hix & Hc).
  simpl. rewrite Hrun. simpl.
  destruct (IH t1) as (t' & ? & ? & ?); [by rewrite Hix|done|].
  exists t'. split; [done|]. split; [congruence|done].
Qed.

(** With index functions that never fail and never yield a value twice,
    every index of a fresh store reflects the stored objects after any
    sequence of Add, Update, Delete and Replace. *)
Lemma fresh_store_consistent indexers calls :
  duplicate_free indexers →
  ∃ tsm', runStoreCalls (K:=K) (T:=T) calls
            (threadSafeMap.NewThreadSafeStore indexers ∅) = Returned tsm' ∧
          store_consistent tsm'.
Proof.
  intros Hdf.
  destruct (runStoreCalls_consistent calls
              (threadSafeMap.NewThreadSafeStore indexers ∅))
    as (t' & ? & ? & ?); [done| |by exists t'].
  intros name f _. split.
  - intros v ks. simpl. by rewrite lookup_empty.
  - intros v k. unfold storeIndex.bucket. simpl. rewrite !lookup_empty.
    simpl. split; [set_solver|].
    by intros (o & vs & Hk & _).
Qed.
End index_invariant_facts.

Section list_facts.
Context {T : Type} `{Countable T}.
Implicit Types (l : list T) (k x : T).

Lemma Remove_notin k l : k ∉ l → containerList.Remove k l = l.
Proof.
  induction l as [|y l IH]; simpl; [done|].
  intros [Hne Hnotin]%not_elem_of_cons. case_decide; [congruence|].
  by rewrite IH.
Qed.

Lemma elem_of_Remove k x l :
  NoDup l → x ∈ containerList.Remove k l ↔ x ∈ l ∧ x ≠ k.
Proof.
  induction l as [|y l IH]; simpl; intros Hnd.
  - split; [by intros ?%elem_of_nil|by intros [?%elem_of_nil _]].
  - apply NoDup_cons in Hnd as [Hy Hnd]. case_decide as Hyk.
    + subst y. rewrite elem_of_cons. split.
      * intros Hx. split; [by right|]. by intros ->.
      * by intros [[->|Hx] Hne].
    + rewrite !elem_of_cons, IH by done. split.
      * intros [->|[Hx Hne]]; [split; [by left|done]|split; [by right|done]].
      * intros [[->|Hx] Hne]; [by left|right; done].
Qed.

Lemma NoDup_Remove k l : NoDup l → NoDup (containerList.Remove k l).
Proof.
  induction l as [|y l IH]; simpl; intros Hnd; [done|].
  apply NoDup_cons in Hnd as [Hy Hnd]. case_decide; [done|].
  apply NoDup_cons. split; [|by apply IH].
  rewrite elem_of_Remove by done. by intros [? _].
Qed.

Lemma list_to_set_Remove k l :
  NoDup l →
  list_to_set (C:=gset T) (containerList.Remove k l) = list_to_set l ∖ {[k]}.
Proof.
  intros Hnd. apply set_eq. intros x.
  rewrite elem_of_difference, !elem_of_list_to_set, elem_of_Remove by done.
  set_solver.
Qed.

Lemma last_removelast l k : last l = Some k → l = removelast l ++ [k].
Proof.
  intros Hl. destruct l as [|y l] using rev_ind; [done|].
  rewrite last_snoc in Hl. injection Hl as ->.
  by rewrite removelast_last.
Qed.

Lemma size_list_to_set_NoDup l :
  NoDup l → size (list_to_set (C:=gset T) l) = length l.
Proof. apply size_list_to_set. Qed.
End list_facts.

Section fifo_facts.
Context {T : Type} `{Countable T} `{ZeroValue T}.
Implicit Types (f : FIFO.t T) (k : T).

Lemma FIFO_wf_size f : FIFO_wf f → size (FIFO.cache f) = length (FIFO.lst f).
Proof. intros [Hnd ->]. by apply size_list_to_set. Qed.

Lemma FIFO_New_wf c : FIFO_wf (FIFO.NewFIFO (T:=T) c).
Proof. split; simpl; [constructor|done]. Qed.

Lemma FIFO_Reset_wf f : FIFO_wf (FIFO.Reset f).
Proof. split; simpl; [constructor|done]. Qed.

Lemma FIFO_evict_spec f ek ev f' :
  FIFO_wf f → FIFO.evict f = (ek, ev, f') →
  FIFO_wf f' ∧ FIFO.capacity f' = FIFO.capacity f ∧
  (FIFO.cache f = ∅ → ev = false ∧ ek = zero_value ∧ f' = f) ∧
  (FIFO.cache f ≠ ∅ →
     ev = true ∧ ek ∈ FIFO.cache f ∧ FIFO.cache f' = FIFO.cache f ∖ {[ek]}).
Proof.
  intros [Hnd Hc]. unfold FIFO.evict, containerList.Front.
  destruct (FIFO.lst f) as [|x l] eqn:Hl; simpl.
  - intros [= <- <- <-].
    split; [split; by rewrite Hl|]. split; [done|]. split; [done|].
    intros Hne. by rewrite Hc in Hne.
  - intros [= <- <- <-]. simpl. rewrite decide_True by done.
    apply NoDup_cons in Hnd as [Hx Hnd].
    split; [split; simpl; [done|]|].
    { rewrite Hc. simpl. set_solver. }
    split; [done|]. split.
    { intros He. rewrite Hc in He. set_solver. }
    intros _. split; [done|]. split; [|done].
    rewrite Hc. set_solver.
Qed.

Lemma FIFO_Put_spec k f ek ev f' :
  FIFO_wf f → FIFO.Put k f = (ek, ev, f') →
  FIFO_wf f' ∧ FIFO.capacity f' = FIFO.capacity f ∧
  (k ∈ FIFO.cache f → ev = false ∧ ek = zero_value ∧ FIFO.cache f' = FIFO.cache f) ∧
  (k ∉ FIFO.cache f →
     (ev = true →
        ek ∈ FIFO.cache f ∧
        (FIFO.capacity f ≤ Z.of_nat (size (FIFO.cache f)))%Z ∧
        FIFO.cache f' = {[k]} ∪ (FIFO.cache f ∖ {[ek]})) ∧
     (ev = false →
        ek = zero_value ∧ FIFO.cache f' = {[k]} ∪ FIFO.cache f ∧
        ((Z.of_nat (size (FIFO.cache f)) < FIFO.capacity f)%Z
         ∨ FIFO.cache f = ∅))).
Proof.
  intros Hwf. unfold FIFO.Put. case_bool_decide as Hk.
  { intros [= <- <- <-]. repeat split; try done; apply Hwf. }
  pose proof (FIFO_wf_size f Hwf) as Hsz.
  unfold containerList.Len. rewrite <- Hsz.
  assert (Hpush : ∀ f1, FIFO_wf f1 → k ∉ FIFO.cache f1 →
    FIFO_wf (FIFO.mk (FIFO.capacity f1) ({[k]} ∪ FIFO.cache f1)
               (containerList.PushBack k (FIFO.lst f1)))).
  { intros f1 [Hnd Hc] Hk1. split; simpl.
    - unfold containerList.PushBack. apply NoDup_app. split; [done|].
      split; [|apply NoDup_singleton].
      intros x Hx ->%list_elem_of_singleton. apply Hk1. rewrite Hc.
      by apply elem_of_list_to_set.
    - unfold containerList.PushBack. rewrite list_to_set_app_L, Hc.
      simpl. set_solver. }
  case_bool_decide as Hcap.
  - destruct (FIFO.evict f) as [[ek1 ev1] f1] eqn:Hev.
    intros [= <- <- <-].
    destruct (FIFO_evict_spec f ek1 ev1 f1 Hwf Hev) as (Hwf1 & Hcap1 & Hemp & Hne).
    destruct (decide (FIFO.cache f = ∅)) as [He|He].
    + destruct (Hemp He) as (-> & -> & ->).
      split; [by apply Hpush|]. repeat split; try done. by right.
    + destruct (Hne He) as (-> & Hin & Hc1).
      split; [apply Hpush; [done|rewrite Hc1; set_solver]|].
      split; [done|]. split; [done|]. intros _. split; [|done].
      intros _. split; [done|]. split; [done|]. simpl. by rewrite Hc1.
  - intros [= <- <- <-].
    split; [by apply Hpush|]. repeat split; try done. left. lia.
Qed.

Lemma FIFO_Delete_spec k f :
  FIFO_wf f →
  FIFO_wf (FIFO.Delete k f) ∧
  FIFO.capacity (FIFO.Delete k f) = FIFO.capacity f ∧
  FIFO.cache (FIFO.Delete k f) = FIFO.cache f ∖ {[k]}.
Proof.
  intros [Hnd Hc]. unfold FIFO.Delete. case_bool_decide as Hk; simpl.
  - repeat split; simpl; try done.
    + by apply NoDup_Remove.
    + by rewrite list_to_set_Remove, Hc.
  - repeat split; try done. set_solver.
Qed.
End fifo_facts.

Section lru_facts.
Context {T : Type} `{Countable T} `{ZeroValue T}.
Implicit Types (l : lru.t T) (k : T).

Lemma lru_wf_size l : lru_wf l → size (lru.cache l) = length (lru.lst l).
Proof. intros [Hnd ->]. by apply size_list_to_set. Qed.

Lemma lru_New_wf c : lru_wf (lru.NewLRU (T:=T) c).
Proof. split; simpl; [constructor|done]. Qed.

Lemma lru_Reset_wf l : lru_wf (lru.Reset l).
Proof. split; simpl; [constructor|done]. Qed.

Lemma lru_evict_spec l ek ev l' :
  lru_wf l → lru.evict l = (ek, ev, l') →
  lru_wf l' ∧ lru.capacity l' = lru.capacity l ∧
  (lru.cache l = ∅ → ev = false ∧ ek = zero_value ∧ l' = l) ∧
  (lru.cache l ≠ ∅ →
     ev = true ∧ ek ∈ lru.cache l ∧ lru.cache l' = lru.cache l ∖ {[ek]}).
Proof.
  intros [Hnd Hc]. unfold lru.evict, containerList.Back.
  destruct (last (lru.lst l)) as [x|] eqn:Hl; simpl.
  - intros [= <- <- <-]. simpl.
    apply last_removelast in Hl. rewrite Hl in Hnd, Hc.
    apply NoDup_app in Hnd as (Hnd & Hx & _).
    rewrite list_to_set_app_L in Hc. simpl in Hc.
    assert (x ∉ removelast (lru.lst l)) as Hx'.
    { intros Hin. apply (Hx x Hin). by apply list_elem_of_singleton. }
    split; [split; simpl; [done|]|].
    { rewrite Hc. set_solver. }
    split; [done|]. split.
    { intros He. rewrite Hc in He. set_solver. }
    intros _. split; [done|]. split; [|done].
    rewrite Hc. set_solver.
  - intros [= <- <- <-]. apply last_None in Hl.
    split; [by split|]. split; [done|]. split; [done|].
    intros Hne. rewrite Hc, Hl in Hne. done.
Qed.

Lemma lru_Put_spec k l ek ev l' :
  lru_wf l → lru.Put k l = (ek, ev, l') →
  lru_wf l' ∧ lru.capacity l' = lru.capacity l ∧
  (k ∈ lru.cache l → ev = false ∧ ek = zero_value ∧ lru.cache l' = lru.cache l) ∧
  (k ∉ lru.cache l →
     (ev = true →
        ek ∈ lru.cache l ∧
        (lru.capacity l ≤ Z.of_nat (size (lru.cache l)))%Z ∧
        lru.cache l' = {[k]} ∪ (lru.cache l ∖ {[ek]})) ∧
     (ev = false →
        ek = zero_value ∧ lru.cache l' = {[k]} ∪ lru.cache l ∧
        ((Z.of_nat (size (lru.cache l)) < lru.capacity l)%Z
         ∨ lru.cache l = ∅))).
Proof.
  intros Hwf. unfold lru.Put. case_bool_decide as Hk.
  { intros [= <- <- <-]. simpl. split; [|done].
    destruct Hwf as [Hnd Hc]. unfold containerList.MoveToFront.
    case_decide; [done|]. split; simpl.
    - apply NoDup_cons. split; [|by apply NoDup_Remove].
      rewrite elem_of_Remove by done. by intros [_ ?].
    - rewrite list_to_set_Remove by done. rewrite <- Hc.
      apply set_eq. intros x.
      rewrite elem_of_union, elem_of_singleton, elem_of_difference,
        elem_of_singleton.
      destruct (decide (x = k)) as [->|]; naive_solver. }
  pose proof (lru_wf_size l Hwf) as Hsz.
  unfold containerList.Len. rewrite <- Hsz.
  assert (Hpush : ∀ l1, lru_wf l1 → k ∉ lru.cache l1 →
    lru_wf (lru.mk (lru.capacity l1) ({[k]} ∪ lru.cache l1)
               (containerList.PushFront k (lru.lst l1)))).
  { intros l1 [Hnd Hc] Hk1. split; simpl.
    - unfold containerList.PushFront. apply NoDup_cons. split; [|done].
      intros Hx. apply Hk1. rewrite Hc. by apply elem_of_list_to_set.
    - by rewrite Hc. }
  case_bool_decide as Hcap.
  - destruct (lru.evict l) as [[ek1 ev1] l1] eqn:Hev.
    intros [= <- <- <-].
    destruct (lru_evict_spec l ek1 ev1 l1 Hwf Hev) as (Hwf1 & Hcap1 & Hemp & Hne).
    destruct (decide (lru.cache l = ∅)) as [He|He].
    + destruct (Hemp He) as (-> & -> & ->).
      split; [by apply Hpush|]. repeat split; try done. by right.
    + destruct (Hne He) as (-> & Hin & Hc1).
      split; [apply Hpush; [done|rewrite Hc1; set_solver]|].
      split; [done|]. split; [done|]. intros _. split; [|done].
      intros _. split; [done|]. split; [done|]. simpl. by rewrite Hc1.
  - intros [= <- <- <-].
    split; [by apply Hpush|]. repeat split; try done. left. lia.
Qed.

Lemma lru_Delete_spec k l :
  lru_wf l →
  lru_wf (lru.Delete k l) ∧
  lru.capacity (lru.Delete k l) = lru.capacity l ∧
  lru.cache (lru.Delete k l) = lru.cache l ∖ {[k]}.
Proof.
  intros [Hnd Hc]. unfold lru.Delete. case_bool_decide as Hk; simpl.
  - repeat split; simpl; try done.
    + by apply NoDup_Remove.
    + by rewrite list_to_set_Remove, Hc.
  - repeat split; try done. set_solver.
Qed.
End lru_facts.

Section swap_facts.
Context {T : Type}.
Implicit Types (h : list (lfuEntry.t T)) (e : lfuEntry.t T).

Lemma keyFreq_withIndex i e : keyFreq (lfuEntry.withIndex i e) = keyFreq e.
Proof. done. Qed.

Lemma transp_inj i j : Inj (=) (=) (transp i j).
Proof. intros a b. unfold transp. repeat case_decide; congruence. Qed.

Lemma transp_lt i j k n : i < n → j < n → k < n → transp i j k < n.
Proof. unfold transp. repeat case_decide; lia. Qed.

Lemma Swap_length h i j : length (lfuHeap.Swap h i j) = length h.
Proof.
  unfold lfuHeap.Swap. destruct (h !! i), (h !! j); try done.
  by rewrite !length_insert.
Qed.

Lemma Swap_lookup h i j k :
  i < length h → j < length h →
  lfuHeap.Swap h i j !! k =
    if decide (k = i ∨ k = j)
    then lfuEntry.withIndex k <$> h !! transp i j k
    else h !! k.
Proof.
  intros Hi Hj. unfold lfuHeap.Swap, transp.
  destruct (lookup_lt_is_Some_2 h i Hi) as [a Ha].
  destruct (lookup_lt_is_Some_2 h j Hj) as [b Hb].
  rewrite Ha, Hb.
  destruct (decide (k = j)) as [->|Hkj].
  - rewrite list_lookup_insert_eq by (by rewrite length_insert).
    rewrite decide_True by auto.
    case_decide; subst; by rewrite ?Ha, ?Hb.
  - rewrite list_lookup_insert_ne by done.
    destruct (decide (k = i)) as [->|Hki].
    + rewrite list_lookup_insert_eq by done.
      rewrite decide_True by auto. by rewrite Hb.
    + rewrite list_lookup_insert_ne by done.
      rewrite decide_False by tauto. done.
Qed.

Lemma Swap_lookup_other h i j k :
  k ≠ i → k ≠ j → lfuHeap.Swap h i j !! k = h !! k.
Proof.
  intros Hi Hj. unfold lfuHeap.Swap.
  destruct (h !! i), (h !! j); try done.
  by rewrite !list_lookup_insert_ne.
Qed.

Lemma Swap_lookup_keyFreq h i j k :
  i < length h → j < length h →
  keyFreq <$> lfuHeap.Swap h i j !! k = keyFreq <$> h !! transp i j k.
Proof.
  intros Hi Hj. rewrite Swap_lookup by done. case_decide as Hk.
  - rewrite <- option_fmap_compose. done.
  - unfold transp. rewrite !decide_False by tauto. done.
Qed.

Lemma Swap_Permutation h i j :
  keyFreq <$> lfuHeap.Swap h i j ≡ₚ keyFreq <$> h.
Proof.
  destruct (decide (i < length h ∧ j < length h)) as [[Hi Hj]|Hout].
  - apply Permutation_inj. split; [by rewrite !length_fmap, Swap_length|].
    exists (transp i j). split; [apply transp_inj|].
    intros k. rewrite !list_lookup_fmap. by apply Swap_lookup_keyFreq.
  - unfold lfuHeap.Swap.
    destruct (h !! i) as [a|] eqn:Ha; [|done].
    destruct (h !! j) as [b|] eqn:Hb; [|done].
    apply lookup_lt_Some in Ha, Hb. lia.
Qed.

Lemma Swap_index_ok h i j : index_ok h → index_ok (lfuHeap.Swap h i j).
Proof.
  intros Hok.
  destruct (decide (i < length h ∧ j < length h)) as [[Hi Hj]|Hout].
  - intros k e. rewrite Swap_lookup by done. case_decide as Hk.
    + destruct (h !! transp i j k); simpl; [|done]. by intros [= <-].
    + apply Hok.
  - unfold lfuHeap.Swap.
    destruct (h !! i) as [a|] eqn:Ha; [|done].
    destruct (h !! j) as [b|] eqn:Hb; [|done].
    apply lookup_lt_Some in Ha, Hb. lia.
Qed.

Lemma freqAt_Swap h i j k :
  i < length h → j < length h →
  freqAt (lfuHeap.Swap h i j) k = freqAt h (transp i j k).
Proof.
  intros Hi Hj. unfold freqAt.
  pose proof (Swap_lookup_keyFreq h i j k Hi Hj) as Hkf.
  destruct (lfuHeap.Swap h i j !! k), (h !! transp i j k);
    simpl in *; unfold keyFreq in *; congruence.
Qed.

Lemma Less_freqAt h i j :
  i < length h → j < length h →
  lfuHeap.Less h i j = bool_decide (freqAt h i < freqAt h j)%Z.
Proof.
  intros Hi Hj. unfold lfuHeap.Less, freqAt.
  destruct (lookup_lt_is_Some_2 h i Hi) as [a ->].
  destruct (lookup_lt_is_Some_2 h j Hj) as [b ->]. done.
Qed.
End swap_facts.

Section loop_facts.
Context {T : Type}.
Implicit Types (h : list (lfuEntry.t T)) (e : lfuEntry.t T).

(** Whatever every [Swap] keeps, the two loops keep. *)
Lemma up_loop_preserves (P : list (lfuEntry.t T) → Prop) fuel h j :
  (∀ h' a b, P h' → P (lfuHeap.Swap h' a b)) →
  P h → P (heap.up_loop fuel h j).
Proof.
  intros Hswap. revert h j. induction fuel as [|fuel IH]; intros h j Hh; simpl; [done|].
  destruct (_ || _); [done|]. apply IH. by apply Hswap.
Qed.

Lemma down_loop_preserves (P : list (lfuEntry.t T) → Prop) fuel h i n :
  (∀ h' a b, P h' → P (lfuHeap.Swap h' a b)) →
  P h → P (heap.down_loop fuel h i n).1.
Proof.
  intros Hswap. revert h i. induction fuel as [|fuel IH]; intros h i Hh; simpl; [done|].
  case_bool_decide; [done|].
  destruct (negb _); [done|]. apply IH. by apply Hswap.
Qed.

Lemma up_loop_length fuel h j : length (heap.up_loop fuel h j) = length h.
Proof.
  apply (up_loop_preserves (λ h', length h' = length h)); [|done].
  intros h' a b. by rewrite Swap_length.
Qed.

Lemma down_loop_length fuel h i n :
  length (heap.down_loop fuel h i n).1 = length h.
Proof.
  apply (down_loop_preserves (λ h', length h' = length h)); [|done].
  intros h' a b. by rewrite Swap_length.
Qed.

Lemma up_loop_Permutation fuel h j :
  keyFreq <$> heap.up_loop fuel h j ≡ₚ keyFreq <$> h.
Proof.
  apply (up_loop_preserves (λ h', keyFreq <$> h' ≡ₚ keyFreq <$> h)); [|done].
  intros h' a b <-. apply Swap_Permutation.
Qed.

Lemma down_loop_Permutation fuel h i n :
  keyFreq <$> (heap.down_loop fuel h i n).1 ≡ₚ keyFreq <$> h.
Proof.
  apply (down_loop_preserves (λ h', keyFreq <$> h' ≡ₚ keyFreq <$> h)); [|done].
  intros h' a b <-. apply Swap_Permutation.
Qed.

Lemma up_loop_index_ok fuel h j :
  index_ok h → index_ok (heap.up_loop fuel h j).
Proof. apply up_loop_preserves. intros h' a b. apply Swap_index_ok. Qed.

Lemma down_loop_index_ok fuel h i n :
  index_ok h → index_ok (heap.down_loop fuel h i n).1.
Proof. apply down_loop_preserves. intros h' a b. apply Swap_index_ok. Qed.

(** The loops stay inside the part of the heap they are given. *)
Lemma up_loop_lookup_gt fuel h j k :
  j < k → heap.up_loop fuel h j !! k = h !! k.
Proof.
  revert h j. induction fuel as [|fuel IH]; intros h j Hk; simpl; [done|].
  destruct (_ || _) eqn:Hb; [done|].
  apply orb_false_iff in Hb as [Hij _]. apply bool_decide_eq_false in Hij.
  assert ((j - 1) / 2 < j) by dlia.
  rewrite IH by lia. apply Swap_lookup_other; lia.
Qed.

Lemma down_loop_lookup_ge fuel h i n k :
  n ≤ k → (heap.down_loop fuel h i n).1 !! k = h !! k.
Proof.
  revert h i. induction fuel as [|fuel IH]; intros h i Hk; simpl; [done|].
  case_bool_decide as Hj1; [done|].
  destruct (negb _); [done|].
  rewrite IH by done. apply Swap_lookup_other; [lia|].
  destruct (_ && _) eqn:Hb; [|lia].
  apply andb_true_iff in Hb as [Hj2%bool_decide_eq_true _]. lia.
Qed.

Lemma down_loop_lookup_lt fuel h i n k :
  k < i → (heap.down_loop fuel h i n).1 !! k = h !! k.
Proof.
  revert h i. induction fuel as [|fuel IH]; intros h i Hk; simpl; [done|].
  case_bool_decide as Hj1; [done|].
  destruct (negb _); [done|].
  rewrite IH.
  - apply Swap_lookup_other; [lia|]. destruct (_ && _); lia.
  - destruct (_ && _); lia.
Qed.

(** The fuel [up] and [down] give is never used up: any larger amount
    yields the same heap. *)
Lemma up_loop_fuel fuel1 fuel2 h j :
  j < fuel1 → j < fuel2 → heap.up_loop fuel1 h j = heap.up_loop fuel2 h j.
Proof.
  revert fuel2 h j. induction fuel1 as [|fuel1 IH]; intros fuel2 h j H1 H2; [lia|].
  destruct fuel2 as [|fuel2]; [lia|]. simpl.
  destruct (_ || _) eqn:Hb; [done|].
  apply orb_false_iff in Hb as [Hij _]. apply bool_decide_eq_false in Hij.
  assert ((j - 1) / 2 < j) by dlia.
  apply IH; lia.
Qed.

Lemma down_loop_fuel fuel1 fuel2 h i n :
  n ≤ fuel1 + i → n ≤ fuel2 + i →
  heap.down_loop fuel1 h i n = heap.down_loop fuel2 h i n.
Proof.
  revert fuel2 h i. induction fuel1 as [|fuel1 IH]; intros fuel2 h i H1 H2.
  - destruct fuel2 as [|fuel2]; [done|]. simpl.
    rewrite bool_decide_eq_true_2 by lia. done.
  - destruct fuel2 as [|fuel2]; simpl.
    + rewrite bool_decide_eq_true_2 by lia. done.
    + case_bool_decide as Hj1; [done|].
      destruct (negb _); [done|].
      apply IH; destruct (_ && _); lia.
Qed.
End loop_facts.

Section up_order_facts.
Context {T : Type}.
Implicit Types (h : list (lfuEntry.t T)) (e : lfuEntry.t T).

(** [up]: if the heap order holds on [h[0:n]] except on the edge into
    [j], and the children of [j] are not below the parent of [j], the
    loop restores the order. *)
Lemma up_loop_ordered fuel h j n :
  j < n → n ≤ length h → j < fuel →
  (∀ c, 0 < c < n → c ≠ j → (freqAt h ((c - 1) / 2) ≤ freqAt h c)%Z) →
  (∀ c, 0 < c < n → (c - 1) / 2 = j → 0 < j →
        (freqAt h ((j - 1) / 2) ≤ freqAt h c)%Z) →
  heap_ordered (heap.up_loop fuel h j) n.
Proof.
  revert h j. induction fuel as [|fuel IH]; intros h j Hj Hn Hfuel P1 P2; [dlia|].
  simpl. case_bool_decide as Hij; simpl.
  { intros c Hc. apply P1; [done|]. dlia. }
  assert (Hi : (j - 1) / 2 < j) by dlia.
  rewrite Less_freqAt by dlia.
  case_bool_decide as Hless; simpl.
  2:{ intros c Hc. destruct (decide (c = j)) as [->|Hcj]; [dlia|by apply P1]. }
  remember ((j - 1) / 2) as i eqn:Heqi.
  apply IH; [dlia|by rewrite Swap_length|dlia|..].
  - intros c Hc Hci. rewrite !freqAt_Swap by dlia. unfold transp.
    pose proof (P1 c Hc) as P1c. pose proof (P2 c Hc) as P2c.
    destruct (decide (c = i)) as [|_]; [done|].
    destruct (decide (c = j)) as [->|Hcj].
    + rewrite <- Heqi. rewrite decide_True by done. dlia.
    + destruct (decide ((c - 1) / 2 = i)) as [Hp|Hp].
      * rewrite Hp in P1c. dlia.
      * destruct (decide ((c - 1) / 2 = j)) as [Hp'|Hp']; [|by apply P1c].
        apply P2c; [done|dlia].
  - intros c Hc Hpc Hi0. rewrite !freqAt_Swap by dlia. unfold transp.
    pose proof (P1 c Hc) as P1c.
    assert (Hin : 0 < i < n) by dlia.
    pose proof (P1 i Hin ltac:(dlia)) as P1i.
    rewrite Hpc in P1c.
    assert ((i - 1) / 2 < i) by dlia.
    rewrite (decide_False (P := (i - 1) / 2 = i)) by dlia.
    rewrite (decide_False (P := (i - 1) / 2 = j)) by dlia.
    destruct (decide (c = i)) as [|_]; [dlia|].
    destruct (decide (c = j)) as [->|Hcj]; [done|].
    specialize (P1c Hcj). dlia.
Qed.
End up_order_facts.

Section down_order_facts.
Context {T : Type}.
Implicit Types (h : list (lfuEntry.t T)) (e : lfuEntry.t T).

(** The child [down] picks is a smallest child. *)
Lemma down_child h i n :
  n ≤ length h → 2 * i + 1 < n →
  let j1 := 2 * i + 1 in
  let j2 := j1 + 1 in
  let j := if bool_decide (j2 < n) && lfuHeap.Less h j2 j1 then j2 else j1 in
  j < n ∧ (j - 1) / 2 = i ∧ i < j ∧
  ∀ c, 0 < c < n → (c - 1) / 2 = i → (freqAt h j ≤ freqAt h c)%Z.
Proof.
  intros Hn Hj1 j1 j2 j. subst j j1 j2.
  case_bool_decide as Hj2; simpl.
  - rewrite Less_freqAt by lia. case_bool_decide as Hless.
    + split; [lia|]. split; [dlia|]. split; [lia|].
      intros c Hc Hp.
      assert (c = 2 * i + 1 ∨ c = 2 * i + 1 + 1) as [->| ->] by dlia; lia.
    + split; [lia|]. split; [dlia|]. split; [lia|].
      intros c Hc Hp.
      assert (c = 2 * i + 1 ∨ c = 2 * i + 1 + 1) as [->| ->] by dlia; lia.
  - split; [lia|]. split; [dlia|]. split; [lia|].
    intros c Hc Hp.
    assert (c = 2 * i + 1) as -> by dlia. lia.
Qed.

(** [down]: if the heap order holds on [h[0:n]] on the edges that do not
    touch [i], and the children of [i] are not below the parent of [i],
    then after the loop the order holds on every edge but perhaps the one
    into [i]; that one holds too if the loop moved, and if it did not
    move the heap is unchanged. *)
Lemma down_loop_ordered fuel h i n :
  n ≤ length h → n ≤ fuel + i →
  (∀ c, 0 < c < n → c ≠ i → (c - 1) / 2 ≠ i →
        (freqAt h ((c - 1) / 2) ≤ freqAt h c)%Z) →
  (∀ c, 0 < c < n → (c - 1) / 2 = i → 0 < i →
        (freqAt h ((i - 1) / 2) ≤ freqAt h c)%Z) →
  (∀ c, 0 < c < n → c ≠ i →
        (freqAt (heap.down_loop fuel h i n).1 ((c - 1) / 2)
         ≤ freqAt (heap.down_loop fuel h i n).1 c)%Z) ∧
  ((heap.down_loop fuel h i n).2 ≠ i → 0 < i →
        (freqAt (heap.down_loop fuel h i n).1 ((i - 1) / 2)
         ≤ freqAt (heap.down_loop fuel h i n).1 i)%Z) ∧
  ((heap.down_loop fuel h i n).2 = i → (heap.down_loop fuel h i n).1 = h) ∧
  i ≤ (heap.down_loop fuel h i n).2.
Proof.
  revert h i. induction fuel as [|fuel IH]; intros h i Hn Hfuel PA PB.
  { simpl. split; [|done]. intros c Hc Hci. apply PA; [done..|]. dlia. }
  simpl. case_bool_decide as Hj1; simpl.
  { split; [|done]. intros c Hc Hci. apply PA; [done..|]. dlia. }
  destruct (down_child h i n Hn ltac:(lia)) as (Hjn & Hjp & Hij & Hmin).
  simpl in Hjn, Hjp, Hij, Hmin.
  remember (if bool_decide (2 * i + 1 + 1 < n)
               && lfuHeap.Less h (2 * i + 1 + 1) (2 * i + 1)
            then 2 * i + 1 + 1 else 2 * i + 1) as j eqn:Heqj.
  clear Heqj.
  rewrite Less_freqAt by lia.
  case_bool_decide as Hless; simpl.
  2:{ split; [|done]. intros c Hc Hci.
      destruct (decide ((c - 1) / 2 = i)) as [Hp|Hp]; [|by apply PA].
      rewrite Hp. specialize (Hmin c Hc Hp). lia. }
  destruct (IH (lfuHeap.Swap h i j) j) as (C1 & C2 & C3 & C4).
  - by rewrite Swap_length.
  - lia.
  - intros c Hc Hcj Hpj. rewrite !freqAt_Swap by lia. unfold transp.
    rewrite (decide_False (P := c = j)) by done.
    rewrite (decide_False (P := (c - 1) / 2 = j)) by done.
    destruct (decide (c = i)) as [->|Hci].
    + assert ((i - 1) / 2 < i) by dlia.
      rewrite decide_False by lia. apply PB; [lia|done|lia].
    + destruct (decide ((c - 1) / 2 = i)) as [Hp|Hp].
      * by apply Hmin.
      * by apply PA.
  - intros c Hc Hpc Hj0. rewrite !freqAt_Swap by lia. unfold transp.
    rewrite Hjp. rewrite decide_True by done.
    assert (j < c) by dlia.
    rewrite (decide_False (P := c = i)) by lia.
    rewrite (decide_False (P := c = j)) by lia.
    rewrite <- Hpc. apply PA; [done|lia|lia].
  - split; [|split; [|split]].
    + intros c Hc Hci. destruct (decide (c = j)) as [->|Hcj].
      * rewrite Hjp.
        destruct (decide ((heap.down_loop fuel (lfuHeap.Swap h i j) j n).2 = j))
          as [Hsame|Hmoved].
        -- rewrite (C3 Hsame). rewrite !freqAt_Swap by lia. unfold transp.
           rewrite decide_True by done.
           rewrite (decide_False (P := j = i)) by lia.
           rewrite decide_True by done. lia.
        -- specialize (C2 Hmoved ltac:(lia)). by rewrite Hjp in C2.
      * by apply C1.
    + intros _ Hi0. apply C1; lia.
    + intros Heq. lia.
    + lia.
Qed.
End down_order_facts.

Section heap_facts.
Context {T : Type}.
Implicit Types (h : list (lfuEntry.t T)) (e : lfuEntry.t T).

Lemma keys_keyFreq h : lfuEntry.key <$> h = (keyFreq <$> h).*1.
Proof. rewrite <- list_fmap_compose. done. Qed.

Lemma keys_Permutation h h' :
  keyFreq <$> h ≡ₚ keyFreq <$> h' → lfuEntry.key <$> h ≡ₚ lfuEntry.key <$> h'.
Proof. intros Hp. rewrite !keys_keyFreq. by rewrite Hp. Qed.

Lemma freqAt_lookup h i e :
  h !! i = Some e → freqAt h i = lfuEntry.frequency e.
Proof. unfold freqAt. by intros ->. Qed.

Lemma freqAt_app_l h h' i : i < length h → freqAt (h ++ h') i = freqAt h i.
Proof. intros Hi. unfold freqAt. by rewrite lookup_app_l. Qed.

Lemma heap_ordered_mono h n m : m ≤ n → heap_ordered h n → heap_ordered h m.
Proof. intros Hm Ho c Hc. apply Ho. lia. Qed.

Lemma heap_ordered_app_l h h' n :
  n ≤ length h → heap_ordered (h ++ h') n ↔ heap_ordered h n.
Proof.
  intros Hn. split; intros Ho c Hc.
  - specialize (Ho c Hc). rewrite !freqAt_app_l in Ho; [done|lia|dlia].
  - rewrite !freqAt_app_l; [by apply Ho|lia|dlia].
Qed.

(** The root of an ordered heap has the least frequency. *)
Lemma root_min h n k :
  heap_ordered h n → k < n → (freqAt h 0 ≤ freqAt h k)%Z.
Proof.
  intros Ho. induction k as [k IH] using lt_wf_ind. intros Hk.
  destruct (decide (k = 0)) as [->|Hk0]; [lia|].
  assert ((k - 1) / 2 < k) by dlia.
  specialize (IH ((k - 1) / 2) ltac:(done) ltac:(lia)).
  specialize (Ho k ltac:(lia)). lia.
Qed.

Lemma index_ok_app_l h h' : index_ok (h ++ h') → index_ok h.
Proof.
  intros Hok i e Hi. apply Hok. rewrite lookup_app_l; [done|].
  by eapply lookup_lt_Some.
Qed.

Lemma down_fst h i n : (heap.down h i n).1 = (heap.down_loop n h i n).1.
Proof. unfold heap.down. by destruct (heap.down_loop n h i n). Qed.

Lemma down_snd h i n :
  (heap.down h i n).2 = bool_decide (i < (heap.down_loop n h i n).2).
Proof. unfold heap.down. by destruct (heap.down_loop n h i n). Qed.

(** What [lfuHeap.Pop] does to a heap whose last cell is known. *)
Lemma lfuHeap_Pop_snoc h e : lfuHeap.Pop (h ++ [e]) = (Some e, h).
Proof. unfold lfuHeap.Pop. by rewrite last_snoc, removelast_last. Qed.

Lemma split_last h n :
  length h = S n → ∃ h' e, h = h' ++ [e] ∧ length h' = n ∧ h !! n = Some e.
Proof.
  intros Hlen. destruct h as [|x h] using rev_ind; [done|].
  rewrite length_app in Hlen. simpl in Hlen.
  exists h, x. split; [done|]. split; [lia|].
  rewrite lookup_app_r by lia. replace (n - length h) with 0 by lia. done.
Qed.

(** [heap.Push] *)
Lemma heap_Push_spec h x :
  heap_wf h → lfuEntry.key x ∉ lfuEntry.key <$> h →
  heap_wf (heap.Push h x) ∧
  keyFreq <$> heap.Push h x ≡ₚ keyFreq x :: (keyFreq <$> h).
Proof.
  intros (Hnd & Hidx & Hord) Hx. unfold heap.Push, heap.up.
  set (h1 := lfuHeap.Push h x).
  assert (Hlen1 : length h1 = S (length h)).
  { unfold h1, lfuHeap.Push. rewrite length_app. simpl. lia. }
  assert (Hperm : keyFreq <$> heap.up_loop (S (lfuHeap.Len h1 - 1)) h1
                               (lfuHeap.Len h1 - 1)
                  ≡ₚ keyFreq x :: (keyFreq <$> h)).
  { rewrite up_loop_Permutation. unfold h1, lfuHeap.Push.
    rewrite fmap_app. simpl. rewrite keyFreq_withIndex.
    by rewrite Permutation_app_comm. }
  split; [|done]. split; [|split].
  - rewrite (keys_Permutation _ (x :: h)) by done. simpl.
    by apply NoDup_cons.
  - apply up_loop_index_ok. unfold h1, lfuHeap.Push.
    intros i e. destruct (decide (i < length h)) as [Hi|Hi].
    + rewrite lookup_app_l by done. apply Hidx.
    + rewrite lookup_app_r by lia.
      destruct (i - length h) as [|k] eqn:Hk; simpl; [|done].
      intros [= <-]. simpl. lia.
  - rewrite up_loop_length. unfold lfuHeap.Len. rewrite Hlen1.
    replace (S (length h) - 1) with (length h) by lia.
    apply up_loop_ordered; [lia|lia|lia|..].
    + intros c Hc Hcl. unfold h1, lfuHeap.Push.
      rewrite !freqAt_app_l; [apply Hord; lia|lia|dlia].
    + intros c Hc Hp. dlia.
Qed.
End heap_facts.

Section heap_pop_facts.
Context {T : Type}.
Implicit Types (h : list (lfuEntry.t T)) (e : lfuEntry.t T).

(** A heap all of whose cells but the last are in order loses its last
    cell. *)
Lemma pop_last h0 h n e0 i :
  heap_wf h0 → length h0 = S n →
  keyFreq <$> h ≡ₚ keyFreq <$> h0 →
  index_ok h → heap_ordered h n →
  h0 !! i = Some e0 →
  h !! n = Some (lfuEntry.withIndex n e0) →
  ∃ h', lfuHeap.Pop h = (Some (lfuEntry.withIndex n e0), h') ∧
        heap_wf h' ∧
        keyFreq <$> h0 ≡ₚ keyFreq e0 :: (keyFreq <$> h').
Proof.
  intros Hwf0 Hlen0 Hperm Hidx Hord He0 Hlast.
  destruct Hwf0 as (Hnd0 & Hidx0 & Hord0).
  assert (Hlen : length h = S n).
  { apply Permutation_length in Hperm. rewrite !length_fmap in Hperm. lia. }
  destruct (split_last h n Hlen) as (h' & e & -> & Hlen' & Hn).
  rewrite Hn in Hlast. injection Hlast as ->.
  exists h'. split; [apply lfuHeap_Pop_snoc|].
  assert (Hperm' : keyFreq <$> h0 ≡ₚ keyFreq e0 :: (keyFreq <$> h')).
  { rewrite <- Hperm, fmap_app. simpl. rewrite keyFreq_withIndex.
    by rewrite Permutation_app_comm. }
  split; [|done]. split; [|split].
  - pose proof (keys_Permutation h0 (e0 :: h') Hperm') as Hk.
    rewrite Hk in Hnd0. by apply NoDup_cons in Hnd0 as [_ ?].
  - by eapply index_ok_app_l.
  - rewrite Hlen'. by apply heap_ordered_app_l in Hord; [|lia].
Qed.
End heap_pop_facts.

Section heap_ops_facts.
Context {T : Type}.
Implicit Types (h : list (lfuEntry.t T)) (e : lfuEntry.t T).

Lemma withIndex_id e : lfuEntry.withIndex (lfuEntry.index e) e = e.
Proof. by destruct e. Qed.

(** [heap.Pop] removes the root, which has the least frequency. *)
Lemma heap_Pop_spec h e0 :
  heap_wf h → h !! 0 = Some e0 →
  ∃ h', heap.Pop h = (Some (lfuEntry.withIndex (length h - 1) e0), h') ∧
        heap_wf h' ∧
        keyFreq <$> h ≡ₚ keyFreq e0 :: (keyFreq <$> h') ∧
        ∀ k e', h !! k = Some e' →
                (lfuEntry.frequency e0 ≤ lfuEntry.frequency e')%Z.
Proof.
  intros Hwf He0. pose proof Hwf as (Hnd & Hidx & Hord).
  assert (Hlen : length h = S (length h - 1)).
  { apply lookup_lt_Some in He0. lia. }
  set (n := length h - 1) in *.
  unfold heap.Pop, lfuHeap.Len. fold n.
  set (h1 := lfuHeap.Swap h 0 n).
  pose proof (down_fst h1 0 n) as Hfst.
  destruct (heap.down h1 0 n) as [h2 moved]. simpl in Hfst. subst h2.
  assert (Hlen1 : length h1 = length h) by apply Swap_length.
  destruct (down_loop_ordered n h1 0 n) as (C1 & _); [lia|lia|..].
  { intros c Hc Hc0 Hp. unfold h1. rewrite !freqAt_Swap by lia.
    unfold transp. assert ((c - 1) / 2 < c) by dlia.
    rewrite !decide_False by lia. apply Hord. lia. }
  { intros c Hc Hp Hlt. lia. }
  destruct (pop_last h (heap.down_loop n h1 0 n).1 n e0 0) as (h' & HPop & Hwf' & Hperm);
    try done.
  - rewrite down_loop_Permutation. apply Swap_Permutation.
  - apply down_loop_index_ok. by apply Swap_index_ok.
  - intros c Hc. apply C1; lia.
  - rewrite down_loop_lookup_ge by done. unfold h1.
    rewrite Swap_lookup by lia. rewrite decide_True by auto.
    unfold transp. destruct (decide (n = 0)) as [->|Hn0].
    + by rewrite He0.
    + rewrite decide_True by done. by rewrite He0.
  - exists h'. split; [done|]. split; [done|]. split; [done|].
    intros k e' Hk. pose proof (lookup_lt_Some _ _ _ Hk) as Hklt.
    pose proof (root_min h (length h) k Hord Hklt) as Hmin.
    by rewrite (freqAt_lookup _ _ _ He0), (freqAt_lookup _ _ _ Hk) in Hmin.
Qed.

(** The heap with a hole at [i]: [down], and [up] if [down] did not
    move, restore the order ([heap.Fix], and the core of [heap.Remove]). *)
Lemma fix_ordered h i n :
  i < n → n ≤ length h →
  (∀ c, 0 < c < n → c ≠ i → (c - 1) / 2 ≠ i →
        (freqAt h ((c - 1) / 2) ≤ freqAt h c)%Z) →
  (∀ c, 0 < c < n → (c - 1) / 2 = i → 0 < i →
        (freqAt h ((i - 1) / 2) ≤ freqAt h c)%Z) →
  heap_ordered
    (let '(h2, moved) := heap.down h i n in if moved then h2 else heap.up h2 i)
    n.
Proof.
  intros Hi Hn PA PB.
  pose proof (down_fst h i n) as Hfst. pose proof (down_snd h i n) as Hsnd.
  destruct (heap.down h i n) as [h2 moved]. simpl in Hfst, Hsnd. subst h2 moved.
  destruct (down_loop_ordered n h i n Hn ltac:(lia) PA PB) as (C1 & C2 & C3 & C4).
  case_bool_decide as Hmoved.
  - intros c Hc. destruct (decide (c = i)) as [->|Hci].
    + apply C2; lia.
    + by apply C1.
  - assert (Hsame : (heap.down_loop n h i n).2 = i) by lia.
    rewrite (C3 Hsame) in *. unfold heap.up.
    apply up_loop_ordered; [done|done|lia|..].
    + intros c Hc Hci. by apply C1.
    + done.
Qed.

Lemma fix_Permutation h i n :
  keyFreq <$>
    (let '(h2, moved) := heap.down h i n in if moved then h2 else heap.up h2 i)
  ≡ₚ keyFreq <$> h.
Proof.
  pose proof (down_fst h i n) as Hfst.
  destruct (heap.down h i n) as [h2 moved]. simpl in Hfst. subst h2.
  destruct moved.
  - apply down_loop_Permutation.
  - unfold heap.up. rewrite up_loop_Permutation. apply down_loop_Permutation.
Qed.

Lemma fix_index_ok h i n :
  index_ok h →
  index_ok
    (let '(h2, moved) := heap.down h i n in if moved then h2 else heap.up h2 i).
Proof.
  intros Hok. pose proof (down_fst h i n) as Hfst.
  destruct (heap.down h i n) as [h2 moved]. simpl in Hfst. subst h2.
  destruct moved.
  - by apply down_loop_index_ok.
  - unfold heap.up. by apply up_loop_index_ok, down_loop_index_ok.
Qed.

Lemma fix_lookup_ge h i n k :
  i < n → n ≤ k →
  (let '(h2, moved) := heap.down h i n in if moved then h2 else heap.up h2 i)
    !! k = h !! k.
Proof.
  intros Hi Hk. pose proof (down_fst h i n) as Hfst.
  destruct (heap.down h i n) as [h2 moved]. simpl in Hfst. subst h2.
  destruct moved.
  - by apply down_loop_lookup_ge.
  - unfold heap.up. rewrite up_loop_lookup_gt by lia.
    by apply down_loop_lookup_ge.
Qed.

(** [heap.Fix] after the frequency at [i] changed. *)
Lemma heap_Fix_spec h i :
  NoDup (lfuEntry.key <$> h) → index_ok h → i < length h →
  (∀ c, 0 < c < length h → c ≠ i → (c - 1) / 2 ≠ i →
        (freqAt h ((c - 1) / 2) ≤ freqAt h c)%Z) →
  (∀ c, 0 < c < length h → (c - 1) / 2 = i → 0 < i →
        (freqAt h ((i - 1) / 2) ≤ freqAt h c)%Z) →
  heap_wf (heap.Fix h i) ∧ keyFreq <$> heap.Fix h i ≡ₚ keyFreq <$> h.
Proof.
  intros Hnd Hidx Hi PA PB. unfold heap.Fix, lfuHeap.Len.
  pose proof (fix_Permutation h i (length h)) as Hperm.
  pose proof (fix_index_ok h i (length h) Hidx) as Hidx'.
  pose proof (fix_ordered h i (length h) Hi ltac:(lia) PA PB) as Hord.
  split; [|done]. split; [|split; [done|]].
  - by rewrite (keys_Permutation _ _ Hperm).
  - apply Permutation_length in Hperm. rewrite !length_fmap in Hperm.
    by rewrite Hperm.
Qed.

(** [heap.Remove] removes the cell at [i]. *)
Lemma heap_Remove_spec h i e0 :
  heap_wf h → h !! i = Some e0 →
  ∃ h', heap.Remove h i = (Some (lfuEntry.withIndex (length h - 1) e0), h') ∧
        heap_wf h' ∧
        keyFreq <$> h ≡ₚ keyFreq e0 :: (keyFreq <$> h').
Proof.
  intros Hwf He0. pose proof Hwf as (Hnd & Hidx & Hord).
  pose proof (lookup_lt_Some _ _ _ He0) as Hilt.
  assert (Hlen : length h = S (length h - 1)) by lia.
  set (n := length h - 1) in *.
  unfold heap.Remove, lfuHeap.Len. fold n.
  case_bool_decide as Hni.
  - set (h1 := lfuHeap.Swap h i n).
    assert (Hlen1 : length h1 = length h) by apply Swap_length.
    assert (Hin : i < n) by lia.
    assert (PA : ∀ c, 0 < c < n → c ≠ i → (c - 1) / 2 ≠ i →
              (freqAt h1 ((c - 1) / 2) ≤ freqAt h1 c)%Z).
    { intros c Hc Hci Hp. unfold h1. rewrite !freqAt_Swap by lia.
      unfold transp. assert ((c - 1) / 2 < c) by dlia.
      rewrite !decide_False by lia. apply Hord. lia. }
    assert (PB : ∀ c, 0 < c < n → (c - 1) / 2 = i → 0 < i →
              (freqAt h1 ((i - 1) / 2) ≤ freqAt h1 c)%Z).
    { intros c Hc Hp Hi0. unfold h1. rewrite !freqAt_Swap by lia.
      unfold transp. assert ((i - 1) / 2 < i) by dlia.
      assert (i < c) by dlia.
      rewrite !decide_False by lia.
      pose proof (Hord c ltac:(lia)) as H1. rewrite Hp in H1.
      pose proof (Hord i ltac:(lia)) as H2. lia. }
    eapply (pop_last h _ n e0 i); try done.
    + rewrite fix_Permutation. apply Swap_Permutation.
    + apply fix_index_ok. by apply Swap_index_ok.
    + apply fix_ordered; [done|lia|done..].
    + rewrite fix_lookup_ge by lia. unfold h1.
      rewrite Swap_lookup by lia. rewrite decide_True by auto.
      unfold transp. rewrite decide_False by lia.
      rewrite decide_True by done. by rewrite He0.
  - assert (i = n) as -> by lia.
    eapply (pop_last h h n e0 n); try done.
    + eapply heap_ordered_mono; [|done]. lia.
    + rewrite He0. f_equal. rewrite <- (Hidx n e0 He0) at 1.
      by rewrite withIndex_id.
Qed.
End heap_ops_facts.

Section freqs_facts.
Context {T : Type} `{Countable T}.
Implicit Types (h : list (lfuEntry.t T)) (e : lfuEntry.t T).

Lemma heapFreqs_Permutation h h' :
  NoDup (lfuEntry.key <$> h) → keyFreq <$> h ≡ₚ keyFreq <$> h' →
  heapFreqs h = heapFreqs h'.
Proof.
  intros Hnd Hp. unfold heapFreqs. apply list_to_map_proper; [|done].
  by rewrite <- keys_keyFreq.
Qed.

Lemma heapFreqs_cons h h' e :
  NoDup (lfuEntry.key <$> h) → keyFreq <$> h ≡ₚ keyFreq e :: (keyFreq <$> h') →
  heapFreqs h = <[lfuEntry.key e := lfuEntry.frequency e]> (heapFreqs h').
Proof.
  intros Hnd Hp. rewrite (heapFreqs_Permutation h (e :: h')) by done. done.
Qed.

Lemma dom_heapFreqs h :
  dom (heapFreqs h) = list_to_set (lfuEntry.key <$> h).
Proof. unfold heapFreqs. rewrite dom_list_to_map_L. by rewrite keys_keyFreq. Qed.

Lemma heapFreqs_lookup h i e :
  NoDup (lfuEntry.key <$> h) → h !! i = Some e →
  heapFreqs h !! lfuEntry.key e = Some (lfuEntry.frequency e).
Proof.
  intros Hnd He. unfold heapFreqs. apply elem_of_list_to_map.
  - by rewrite <- keys_keyFreq.
  - apply list_elem_of_fmap. exists e. split; [done|].
    by eapply list_elem_of_lookup_2.
Qed.

Lemma heapFreqs_lookup_inv h k f :
  heapFreqs h !! k = Some f →
  ∃ i e, h !! i = Some e ∧ lfuEntry.key e = k ∧ lfuEntry.frequency e = f.
Proof.
  unfold heapFreqs. intros Hin%elem_of_list_to_map_2.
  apply list_elem_of_fmap in Hin as (e & [= -> ->] & Hin).
  apply list_elem_of_lookup in Hin as [i Hi]. eauto.
Qed.

Lemma heapFreqs_notin h k :
  k ∉ lfuEntry.key <$> h → heapFreqs h !! k = None.
Proof.
  intros Hk. unfold heapFreqs. apply not_elem_of_list_to_map_1.
  by rewrite <- keys_keyFreq.
Qed.

Lemma entryOf_Some h k :
  k ∈ lfuEntry.key <$> h →
  ∃ pos e, LFU.entryOf k h = Some (pos, e) ∧ h !! pos = Some e
           ∧ lfuEntry.key e = k.
Proof.
  intros (e & -> & Hin)%list_elem_of_fmap. unfold LFU.entryOf.
  destruct (list_find_elem_of (λ e', lfuEntry.key e' = lfuEntry.key e) h e Hin eq_refl)
    as [[pos e'] Hfind].
  exists pos, e'. split; [done|].
  by apply list_find_Some in Hfind as (? & ? & _).
Qed.
End freqs_facts.

Section lfu_facts.
Context {T : Type} `{Countable T} `{ZeroValue T}.
Implicit Types (l : LFU.t T) (h : list (lfuEntry.t T)) (e : lfuEntry.t T) (k : T).

Lemma LFU_New_wf c : LFU_wf (LFU.NewLFU (T:=T) c).
Proof.
  split; [|done]. split; [constructor|]. split; [by intros i e|].
  intros c0 Hc0. simpl in Hc0. lia.
Qed.

Lemma LFU_Reset_wf l : LFU_wf (LFU.Reset l).
Proof. apply (LFU_New_wf (LFU.capacity l)). Qed.

Lemma LFU_dom_freqs l : LFU_wf l → dom (LFU_freqs l) = LFU.cache l.
Proof. intros [_ ->]. apply dom_heapFreqs. Qed.

Lemma keys_cons_set h h' e :
  NoDup (lfuEntry.key <$> h) →
  keyFreq <$> h ≡ₚ keyFreq e :: (keyFreq <$> h') →
  (lfuEntry.key e ∉ lfuEntry.key <$> h') ∧
  list_to_set (C:=gset T) (lfuEntry.key <$> h)
    = {[lfuEntry.key e]} ∪ list_to_set (lfuEntry.key <$> h').
Proof.
  intros Hnd Hp. pose proof (keys_Permutation h (e :: h') Hp) as Hk.
  rewrite Hk in Hnd. apply NoDup_cons in Hnd as [Hnotin _].
  split; [done|]. by rewrite Hk.
Qed.

Lemma LFU_evict_spec l ek ev l' :
  LFU_wf l → LFU.evict l = (ek, ev, l') →
  LFU_wf l' ∧ LFU.capacity l' = LFU.capacity l ∧
  (LFU.cache l = ∅ → ev = false ∧ ek = zero_value ∧ l' = l) ∧
  (LFU.cache l ≠ ∅ →
     ev = true ∧ ek ∈ LFU.cache l ∧ LFU.cache l' = LFU.cache l ∖ {[ek]} ∧
     LFU_freqs l' = delete ek (LFU_freqs l) ∧
     ∃ f, LFU_freqs l !! ek = Some f ∧
          ∀ k f', LFU_freqs l !! k = Some f' → (f ≤ f')%Z).
Proof.
  intros [Hwf Hc]. unfold LFU.evict.
  destruct (LFU.freqHeap l) as [|e0 h0] eqn:Hh.
  { simpl. intros [= <- <- <-].
    split; [split; by rewrite ?Hh|]. split; [done|]. split; [done|].
    intros Hne. by rewrite Hc in Hne. }
  rewrite bool_decide_eq_false_2 by done.
  destruct (heap_Pop_spec (e0 :: h0) e0 Hwf eq_refl) as (h' & -> & Hwf' & Hp & Hmin).
  intros [= <- <- <-]. simpl.
  destruct Hwf as (Hnd & Hidx & Hord).
  destruct (keys_cons_set _ _ _ Hnd Hp) as [Hnotin Hset].
  assert (Hce : LFU.cache l = {[lfuEntry.key e0]} ∪ list_to_set (lfuEntry.key <$> h')).
  { by rewrite Hc, Hset. }
  split; [split; simpl; [done|]|].
  { rewrite Hce. set_solver. }
  split; [done|]. split.
  { intros He. rewrite Hce in He. set_solver. }
  intros _. split; [done|]. split; [rewrite Hce; set_solver|]. split; [done|].
  unfold LFU_freqs. simpl. rewrite Hh.
  rewrite (heapFreqs_cons _ _ _ Hnd Hp). split.
  - rewrite delete_insert_id; [done|]. by apply heapFreqs_notin.
  - exists (lfuEntry.frequency e0). split; [apply lookup_insert_eq|].
    intros k f'. rewrite <- (heapFreqs_cons _ _ _ Hnd Hp).
    intros (i & e & Hi & _ & <-)%heapFreqs_lookup_inv. by eapply Hmin.
Qed.

(** Replacing the frequency of the entry at [pos]. *)
Lemma heapFreqs_insert h pos e f :
  NoDup (lfuEntry.key <$> h) → h !! pos = Some e →
  NoDup (lfuEntry.key <$> <[pos := lfuEntry.withFrequency f e]> h) ∧
  heapFreqs (<[pos := lfuEntry.withFrequency f e]> h)
    = <[lfuEntry.key e := f]> (heapFreqs h).
Proof.
  intros Hnd He.
  assert (Hkeys : lfuEntry.key <$> <[pos := lfuEntry.withFrequency f e]> h
                  = lfuEntry.key <$> h).
  { rewrite list_fmap_insert. apply list_insert_id.
    rewrite list_lookup_fmap, He. done. }
  assert (Hnd' : NoDup (lfuEntry.key <$> <[pos := lfuEntry.withFrequency f e]> h)).
  { by rewrite Hkeys. }
  split; [done|].
  pose proof (lookup_lt_Some _ _ _ He) as Hlt.
  apply map_eq. intros k. destruct (decide (k = lfuEntry.key e)) as [->|Hk].
  - rewrite lookup_insert_eq.
    apply (heapFreqs_lookup _ pos (lfuEntry.withFrequency f e)); [done|].
    by apply list_lookup_insert_eq.
  - rewrite lookup_insert_ne by done. apply option_eq. intros f'. split.
    + intros (i & e' & Hi & <- & <-)%heapFreqs_lookup_inv.
      destruct (decide (i = pos)) as [->|Hip].
      * rewrite list_lookup_insert_eq in Hi by done. by injection Hi as <-.
      * rewrite list_lookup_insert_ne in Hi by done.
        by eapply heapFreqs_lookup.
    + intros (i & e' & Hi & <- & <-)%heapFreqs_lookup_inv.
      destruct (decide (i = pos)) as [->|Hip]; [congruence|].
      apply (heapFreqs_lookup _ i); [done|].
      by rewrite list_lookup_insert_ne.
Qed.

Lemma LFU_Put_spec k l ek ev l' :
  LFU_wf l → LFU.Put k l = (ek, ev, l') →
  LFU_wf l' ∧ LFU.capacity l' = LFU.capacity l ∧
  (k ∈ LFU.cache l →
     ev = false ∧ ek = zero_value ∧ LFU.cache l' = LFU.cache l ∧
     ∃ f, LFU_freqs l !! k = Some f ∧
          LFU_freqs l' = <[k := int_incr f]> (LFU_freqs l)) ∧
  (k ∉ LFU.cache l →
     (ev = true →
        ek ∈ LFU.cache l ∧
        (LFU.capacity l ≤ Z.of_nat (size (LFU.cache l)))%Z ∧
        LFU.cache l' = {[k]} ∪ (LFU.cache l ∖ {[ek]}) ∧
        LFU_freqs l' = <[k := 1%Z]> (delete ek (LFU_freqs l)) ∧
        ∃ f, LFU_freqs l !! ek = Some f ∧
             ∀ k' f', LFU_freqs l !! k' = Some f' → (f ≤ f')%Z) ∧
     (ev = false →
        ek = zero_value ∧ LFU.cache l' = {[k]} ∪ LFU.cache l ∧
        LFU_freqs l' = <[k := 1%Z]> (LFU_freqs l) ∧
        ((Z.of_nat (size (LFU.cache l)) < LFU.capacity l)%Z
         ∨ LFU.cache l = ∅))).
Proof.
  intros Hwf. pose proof Hwf as [(Hnd & Hidx & Hord) Hc].
  unfold LFU.Put. case_bool_decide as Hk.
  - assert (Hin : k ∈ lfuEntry.key <$> LFU.freqHeap l).
    { rewrite Hc in Hk. by apply elem_of_list_to_set in Hk. }
    destruct (entryOf_Some _ _ Hin) as (pos & e & -> & Hpos & Hkey).
    intros [= <- <- <-]. simpl.
    pose proof (lookup_lt_Some _ _ _ Hpos) as Hlt.
    rewrite (Hidx pos e Hpos).
    set (e' := lfuEntry.withFrequency (int_incr (lfuEntry.frequency e)) e).
    set (h1 := <[pos := e']> (LFU.freqHeap l)).
    destruct (heapFreqs_insert (LFU.freqHeap l) pos e
                (int_incr (lfuEntry.frequency e)) Hnd Hpos) as [Hnd1 Hfreqs1].
    fold e' h1 in Hnd1, Hfreqs1.
    assert (Hlen1 : length h1 = length (LFU.freqHeap l)) by apply length_insert.
    assert (Hother : ∀ c, c ≠ pos → freqAt h1 c = freqAt (LFU.freqHeap l) c).
    { intros c Hcp. unfold freqAt, h1. by rewrite list_lookup_insert_ne. }
    destruct (heap_Fix_spec h1 pos) as [Hwf' Hperm]; [done|..].
    { intros i e0. unfold h1. destruct (decide (i = pos)) as [->|Hip].
      - rewrite list_lookup_insert_eq by done. intros [= <-]. simpl.
        by apply Hidx.
      - rewrite list_lookup_insert_ne by done. apply Hidx. }
    { lia. }
    { intros c Hc0 Hcp Hpp. rewrite !Hother by done. apply Hord. lia. }
    { intros c Hc0 Hp Hpos0. assert ((pos - 1) / 2 < pos) by dlia.
      assert (pos < c) by dlia. rewrite !Hother by lia.
      pose proof (Hord c ltac:(lia)) as Ho1. rewrite Hp in Ho1.
      pose proof (Hord pos ltac:(lia)) as Ho2. lia. }
    assert (Hkeys : lfuEntry.key <$> heap.Fix h1 pos ≡ₚ
                    lfuEntry.key <$> LFU.freqHeap l).
    { rewrite (keys_Permutation _ _ Hperm). unfold h1.
      rewrite list_fmap_insert. rewrite list_insert_id; [done|].
      by rewrite list_lookup_fmap, Hpos. }
    split; [split; simpl; [done|by rewrite Hkeys]|].
    split; [done|]. split; [|done].
    intros _. split; [done|]. split; [done|]. split; [done|].
    exists (lfuEntry.frequency e). unfold LFU_freqs. simpl. split.
    + rewrite <- Hkey. by eapply heapFreqs_lookup.
    + destruct Hwf' as (Hnd' & _).
      rewrite <- (heapFreqs_Permutation h1 _ Hnd1) by done.
      by rewrite Hfreqs1, Hkey.
  - assert (Hpush : ∀ l1, LFU_wf l1 → k ∉ LFU.cache l1 →
      let l2 := LFU.mk (LFU.capacity l1) ({[k]} ∪ LFU.cache l1)
                  (heap.Push (LFU.freqHeap l1)
                     (lfuEntry.mk k 1%Z 0)) in
      LFU_wf l2 ∧ LFU_freqs l2 = <[k := 1%Z]> (LFU_freqs l1)).
    { intros l1 [Hwf1 Hc1] Hk1 l2.
      assert (Hnotin : k ∉ lfuEntry.key <$> LFU.freqHeap l1).
      { rewrite Hc1 in Hk1. by rewrite elem_of_list_to_set in Hk1. }
      destruct (heap_Push_spec (LFU.freqHeap l1) (lfuEntry.mk k 1%Z 0) Hwf1 Hnotin)
        as [Hwf2 Hperm2].
      pose proof Hwf2 as (Hnd2 & _).
      split; [split; [done|]|].
      - unfold l2; simpl.
        rewrite (keys_Permutation _ (lfuEntry.mk k 1%Z 0 :: LFU.freqHeap l1))
          by done.
        simpl. by rewrite Hc1.
      - unfold LFU_freqs, l2; simpl.
        by rewrite (heapFreqs_cons _ _ _ Hnd2 Hperm2). }
    case_bool_decide as Hcap.
    + destruct (LFU.evict l) as [[ek1 ev1] l1] eqn:Hev.
      intros [= <- <- <-].
      destruct (LFU_evict_spec l ek1 ev1 l1 Hwf Hev) as (Hwf1 & Hcap1 & Hemp & Hne).
      destruct (decide (LFU.cache l = ∅)) as [He|He].
      * destruct (Hemp He) as (-> & -> & ->).
        destruct (Hpush l Hwf Hk) as [Hwf2 Hf2].
        split; [done|]. split; [done|]. split; [done|]. intros _.
        split; [done|]. intros _. split; [done|]. split; [done|].
        split; [done|]. by right.
      * destruct (Hne He) as (-> & Hin & Hc1 & Hf1 & Hmin).
        destruct (Hpush l1 Hwf1 ltac:(rewrite Hc1; set_solver)) as [Hwf2 Hf2].
        split; [done|]. split; [done|]. split; [done|]. intros _.
        split; [|done]. intros _. split; [done|]. split; [done|].
        split; [simpl; by rewrite Hc1|]. split; [by rewrite Hf2, Hf1|done].
    + intros [= <- <- <-].
      destruct (Hpush l Hwf Hk) as [Hwf2 Hf2].
      split; [done|]. split; [done|]. split; [done|]. intros _.
      split; [done|]. intros _. split; [done|]. split; [done|].
      split; [done|]. left. lia.
Qed.

Lemma LFU_Delete_spec k l :
  LFU_wf l →
  LFU_wf (LFU.Delete k l) ∧
  LFU.capacity (LFU.Delete k l) = LFU.capacity l ∧
  LFU.cache (LFU.Delete k l) = LFU.cache l ∖ {[k]} ∧
  LFU_freqs (LFU.Delete k l) = delete k (LFU_freqs l).
Proof.
  intros Hwf. pose proof Hwf as [(Hnd & Hidx & Hord) Hc].
  unfold LFU.Delete. case_bool_decide as Hk.
  - assert (Hin : k ∈ lfuEntry.key <$> LFU.freqHeap l).
    { rewrite Hc in Hk. by apply elem_of_list_to_set in Hk. }
    destruct (entryOf_Some _ _ Hin) as (pos & e & -> & Hpos & Hkey).
    rewrite (Hidx pos e Hpos).
    destruct (heap_Remove_spec (LFU.freqHeap l) pos e (proj1 Hwf) Hpos)
      as (h' & -> & Hwf' & Hp).
    simpl. destruct (keys_cons_set _ _ _ Hnd Hp) as [Hnotin Hset].
    rewrite Hkey in Hnotin, Hset.
    split; [split; simpl; [done|]|].
    { rewrite Hc, Hset. set_solver. }
    split; [done|]. split.
    { rewrite Hc, Hset. set_solver. }
    unfold LFU_freqs. simpl. rewrite (heapFreqs_cons _ _ _ Hnd Hp), Hkey.
    rewrite delete_insert_id; [done|]. by apply heapFreqs_notin.
  - split; [done|]. split; [done|]. split; [set_solver|].
    rewrite delete_id; [done|]. apply heapFreqs_notin.
    rewrite Hc in Hk. by rewrite elem_of_list_to_set in Hk.
Qed.
End lfu_facts.

Section policy_facts.
Context {T : Type} `{Countable T} `{ZeroValue T}.
Implicit Types (p : Policy.t T) (k : T).

Lemma Policy_Size_tracked p : Policy.Size p = size (Policy_tracked p).
Proof. by destruct p. Qed.

Lemma newPolicy_wf kind c : Policy_wf (newPolicy (T:=T) kind c).
Proof.
  destruct kind; simpl;
    [apply FIFO_New_wf|apply lru_New_wf|apply LFU_New_wf].
Qed.

Lemma newPolicy_tracked kind c : Policy_tracked (newPolicy (T:=T) kind c) = ∅.
Proof. by destruct kind. Qed.

Lemma newPolicy_capacity kind c : Policy_capacity (newPolicy (T:=T) kind c) = c.
Proof. by destruct kind. Qed.

Lemma Policy_Put_spec k p ek ev p' :
  Policy_wf p → Policy.Put k p = (ek, ev, p') →
  Policy_wf p' ∧ Policy_capacity p' = Policy_capacity p ∧
  (k ∈ Policy_tracked p →
     ev = false ∧ ek = zero_value ∧ Policy_tracked p' = Policy_tracked p) ∧
  (k ∉ Policy_tracked p →
     (ev = true →
        ek ∈ Policy_tracked p ∧
        (Policy_capacity p ≤ Z.of_nat (size (Policy_tracked p)))%Z ∧
        Policy_tracked p' = {[k]} ∪ (Policy_tracked p ∖ {[ek]})) ∧
     (ev = false →
        ek = zero_value ∧ Policy_tracked p' = {[k]} ∪ Policy_tracked p ∧
        ((Z.of_nat (size (Policy_tracked p)) < Policy_capacity p)%Z
         ∨ Policy_tracked p = ∅))).
Proof.
  destruct p as [f|l|l]; simpl; intros Hwf.
  - destruct (FIFO.Put k f) as [[ek1 ev1] f1] eqn:Hput. intros [= <- <- <-].
    by apply (FIFO_Put_spec k f).
  - destruct (lru.Put k l) as [[ek1 ev1] l1] eqn:Hput. intros [= <- <- <-].
    by apply (lru_Put_spec k l).
  - destruct (LFU.Put k l) as [[ek1 ev1] l1] eqn:Hput. intros [= <- <- <-].
    destruct (LFU_Put_spec k l ek1 ev1 l1 Hwf Hput) as (Hwf1 & Hcap & Hin & Hout).
    simpl. split; [done|]. split; [done|]. split.
    + intros Hk. destruct (Hin Hk) as (? & ? & ? & _). done.
    + intros Hk. destruct (Hout Hk) as [Ht Hf]. split.
      * intros Hev. destruct (Ht Hev) as (? & ? & ? & _). done.
      * intros Hev. destruct (Hf Hev) as (? & ? & _ & ?). done.
Qed.

Lemma Policy_Delete_spec k p :
  Policy_wf p →
  Policy_wf (Policy.Delete k p) ∧
  Policy_capacity (Policy.Delete k p) = Policy_capacity p ∧
  Policy_tracked (Policy.Delete k p) = Policy_tracked p ∖ {[k]}.
Proof.
  destruct p as [f|l|l]; simpl; intros Hwf.
  - by apply FIFO_Delete_spec.
  - by apply lru_Delete_spec.
  - destruct (LFU_Delete_spec k l Hwf) as (? & ? & ? & _). done.
Qed.

Lemma Policy_Evict_spec p ek ev p' :
  Policy_wf p → Policy.Evict p = (ek, ev, p') →
  Policy_wf p' ∧ Policy_capacity p' = Policy_capacity p ∧
  (Policy_tracked p = ∅ → ev = false ∧ ek = zero_value ∧ p' = p) ∧
  (Policy_tracked p ≠ ∅ →
     ev = true ∧ ek ∈ Policy_tracked p ∧
     Policy_tracked p' = Policy_tracked p ∖ {[ek]}).
Proof.
  destruct p as [f|l|l]; simpl; intros Hwf.
  - unfold FIFO.Evict.
    destruct (FIFO.evict f) as [[ek1 ev1] f1] eqn:Hev. intros [= <- <- <-].
    destruct (FIFO_evict_spec f ek1 ev1 f1 Hwf Hev) as (? & ? & He & Hne).
    simpl. split; [done|]. split; [done|]. split; [|done].
    intros Hem. destruct (He Hem) as (? & ? & ->). done.
  - unfold lru.Evict.
    destruct (lru.evict l) as [[ek1 ev1] l1] eqn:Hev. intros [= <- <- <-].
    destruct (lru_evict_spec l ek1 ev1 l1 Hwf Hev) as (? & ? & He & Hne).
    simpl. split; [done|]. split; [done|]. split; [|done].
    intros Hem. destruct (He Hem) as (? & ? & ->). done.
  - unfold LFU.Evict.
    destruct (LFU.evict l) as [[ek1 ev1] l1] eqn:Hev. intros [= <- <- <-].
    destruct (LFU_evict_spec l ek1 ev1 l1 Hwf Hev) as (? & ? & He & Hne).
    simpl. split; [done|]. split; [done|]. split.
    + intros Hem. destruct (He Hem) as (? & ? & ->). done.
    + intros Hnem. destruct (Hne Hnem) as (? & ? & ? & _). done.
Qed.

Lemma Policy_Reset_spec p :
  Policy_wf (Policy.Reset p) ∧
  Policy_capacity (Policy.Reset p) = Policy_capacity p ∧
  Policy_tracked (Policy.Reset p) = ∅.
Proof.
  destruct p as [f|l|l]; simpl;
    (split; [|done]);
    [apply FIFO_Reset_wf|apply lru_Reset_wf|apply LFU_Reset_wf].
Qed.

Lemma Policy_reachable_wf p : Policy_reachable p → Policy_wf p.
Proof.
  induction 1 as [kind c|k p _ IH|k p _ IH|p _ IH|p _ IH].
  - apply newPolicy_wf.
  - destruct (Policy.Put k p) as [[ek ev] p'] eqn:Hput.
    by destruct (Policy_Put_spec k p ek ev p' IH Hput) as [? _].
  - by destruct (Policy_Delete_spec k p IH) as [? _].
  - destruct (Policy.Evict p) as [[ek ev] p'] eqn:Hev.
    by destruct (Policy_Evict_spec p ek ev p' IH Hev) as [? _].
  - by destruct (Policy_Reset_spec p) as [? _].
Qed.
End policy_facts.

Section facade_facts.
Context {K T : Type} `{Countable K} `{Countable T} `{ZeroValue T} {Obj : Type}.
Implicit Types (tsm : threadSafeMap.t K T Obj) (c : evictionCache.t K T Obj).

Lemma Update_items key obj tsm tsm' :
  threadSafeMap.Update key obj tsm = Returned tsm' →
  threadSafeMap.items tsm' = <[key := obj]> (threadSafeMap.items tsm).
Proof.
  unfold threadSafeMap.Update.
  destruct (storeIndex.updateIndices _ _ _ _); simpl; [|done].
  by intros [= <-].
Qed.

Lemma Delete_items key tsm tsm' :
  threadSafeMap.Delete key tsm = Returned tsm' →
  threadSafeMap.items tsm' = delete key (threadSafeMap.items tsm).
Proof.
  unfold threadSafeMap.Delete.
  destruct (threadSafeMap.items tsm !! key) as [obj|] eqn:Hk.
  - destruct (storeIndex.updateIndices _ _ _ _); simpl; [|done].
    by intros [= <-].
  - intros [= <-]. by rewrite delete_id.
Qed.

Lemma Add_unfold obj c err c' :
  evictionCache.Add obj c = Returned (err, c') →
  (∃ e, evictionCache.keyFunc c obj = Err e ∧ err = Some (KeyError obj e)
        ∧ c' = c) ∨
  (∃ key evictedKey evicted store1,
     err = None ∧
     evictionCache.keyFunc c obj = Ok key ∧
     evictionCache.keyFunc c' = evictionCache.keyFunc c ∧
     Policy.Put key (evictionCache.evictionPolicy c)
       = (evictedKey, evicted, evictionCache.evictionPolicy c') ∧
     (if evicted
      then threadSafeMap.Delete evictedKey (evictionCache.store c)
      else Returned (evictionCache.store c)) = Returned store1 ∧
     threadSafeMap.Add key obj store1 = Returned (evictionCache.store c')).
Proof.
  unfold evictionCache.Add.
  destruct (evictionCache.keyFunc c obj) as [key|e] eqn:Hkey.
  2:{ intros [= <- <-]. left. eauto. }
  destruct (Policy.Put key (evictionCache.evictionPolicy c))
    as [[ek ev] p'] eqn:Hput.
  destruct (if ev then _ else _) as [store1|] eqn:Hdel; simpl; [|done].
  destruct (threadSafeMap.Add key obj store1) as [store2|] eqn:Hadd;
    simpl; [|done].
  intros [= <- <-]. right. exists key, ek, ev, store1. simpl. done.
Qed.

Lemma Add_inv capacity obj c err c' :
  facade_inv capacity c →
  evictionCache.Add obj c = Returned (err, c') →
  facade_inv capacity c'.
Proof.
  intros (Hwf & Hcap & Hdom & Hsize) HAdd.
  apply Add_unfold in HAdd
    as [(e & _ & _ & ->)|(key & ek & ev & s1 & _ & _ & _ & Hput & Hdel & Hadd)];
    [done|].
  destruct (Policy_Put_spec _ _ _ _ _ Hwf Hput) as (Hwf' & Hcap' & Hin & Hout).
  apply Update_items in Hadd.
  assert (Hitems1 : dom (threadSafeMap.items s1)
            = if ev then Policy_tracked (evictionCache.evictionPolicy c) ∖ {[ek]}
              else Policy_tracked (evictionCache.evictionPolicy c)).
  { destruct ev.
    - apply Delete_items in Hdel. by rewrite Hdel, dom_delete_L, Hdom.
    - injection Hdel as <-. done. }
  split; [done|]. split; [congruence|].
  rewrite Hadd, dom_insert_L, Hitems1.
  destruct (decide (key ∈ Policy_tracked (evictionCache.evictionPolicy c)))
    as [Hk|Hk].
  - destruct (Hin Hk) as (-> & _ & ->). split; [set_solver|done].
  - destruct (Hout Hk) as [Ht Hf]. destruct ev.
    + destruct (Ht eq_refl) as (Hek & Hge & ->). split; [done|].
      intros Hc1. specialize (Hsize Hc1).
      rewrite size_union by set_solver.
      rewrite size_singleton, size_difference by set_solver.
      rewrite size_singleton.
      assert (size (Policy_tracked (evictionCache.evictionPolicy c)) ≠ 0).
      { intros Hz%size_empty_inv. set_solver. }
      lia.
    + destruct (Hf eq_refl) as (_ & -> & Hlt). split; [done|].
      intros Hc1. rewrite size_union by set_solver. rewrite size_singleton.
      destruct Hlt as [Hlt| ->]; [lia|]. rewrite size_empty. lia.
Qed.

Lemma Delete_inv capacity obj c err c' :
  facade_inv capacity c →
  evictionCache.Delete obj c = Returned (err, c') →
  facade_inv capacity c'.
Proof.
  intros (Hwf & Hcap & Hdom & Hsize). unfold evictionCache.Delete.
  destruct (evictionCache.keyFunc c obj) as [key|e] eqn:Hkey.
  2:{ by intros [= <- <-]. }
  destruct (threadSafeMap.Delete key (evictionCache.store c))
    as [store1|] eqn:Hdel; simpl; [|done].
  intros [= <- <-]. unfold facade_inv.
  cbn [evictionCache.evictionPolicy evictionCache.store].
  destruct (Policy_Delete_spec key _ Hwf) as (Hwf' & Hcap' & Htr).
  apply Delete_items in Hdel.
  split; [done|]. split; [congruence|]. split.
  - by rewrite Hdel, dom_delete_L, Hdom, Htr.
  - intros Hc1. specialize (Hsize Hc1). rewrite Htr.
    pose proof (subseteq_size
      (Policy_tracked (evictionCache.evictionPolicy c) ∖ {[key]})
      (Policy_tracked (evictionCache.evictionPolicy c))
      ltac:(set_solver)).
    lia.
Qed.

Lemma runCalls_inv capacity calls c c' :
  facade_inv capacity c → runCalls calls c = Returned c' →
  facade_inv capacity c'.
Proof.
  revert c. induction calls as [|call calls IH]; intros c Hinv; simpl.
  - by intros [= <-].
  - destruct (doCall call c) as [[err c1]|] eqn:Hcall; simpl; [|done].
    apply IH. destruct call; simpl in Hcall.
    + by eapply Add_inv.
    + by eapply Delete_inv.
Qed.

Lemma New_inv kind capacity keyFunc indexers :
  facade_inv capacity
    (evictionCache.NewEvictionCache (K:=K) (Obj:=Obj) keyFunc
       (newPolicy (T:=T) kind capacity) indexers).
Proof.
  split; [apply newPolicy_wf|]. split; [apply newPolicy_capacity|].
  simpl. rewrite newPolicy_tracked. split; [by rewrite dom_empty_L|].
  intros Hc. rewrite size_empty. lia.
Qed.
End facade_facts.

Section sets_loop_facts.
Context {T : Type} `{Countable T}.
Implicit Types (s : gset T) (items : list T).

Lemma foldl_Insert_if (P : T → bool) items (acc : gset T) :
  foldl (λ res key, if P key then sets.Insert key res else res) acc items
  = acc ∪ list_to_set (filter (λ key, P key = true) items).
Proof.
  revert acc. induction items as [|x items IH]; intros acc; simpl.
  - set_solver.
  - rewrite IH. unfold sets.Insert. rewrite filter_cons.
    destruct (P x) eqn:HP.
    + rewrite decide_True by done. set_solver.
    + rewrite decide_False by (by intros ?). set_solver.
Qed.

Lemma foldl_Insert items (acc : gset T) :
  foldl (λ res key, sets.Insert key res) acc items = acc ∪ list_to_set items.
Proof.
  revert acc. induction items as [|x items IH]; intros acc; simpl.
  - set_solver.
  - rewrite IH. unfold sets.Insert. set_solver.
Qed.

Lemma foldl_Delete items (acc : gset T) :
  foldl (λ res key, sets.Delete key res) acc items = acc ∖ list_to_set items.
Proof.
  revert acc. induction items as [|x items IH]; intros acc; simpl.
  - set_solver.
  - rewrite IH. unfold sets.Delete. set_solver.
Qed.

Lemma Has_true s x : sets.Has s x = true ↔ x ∈ s.
Proof. unfold sets.Has. by rewrite bool_decide_eq_true. Qed.

Lemma Intersection_eq s s2 : sets.Intersection s s2 = s ∩ s2.
Proof.
  unfold sets.Intersection.
  destruct (bool_decide (sets.Len s < sets.Len s2));
    rewrite foldl_Insert_if; apply set_eq; intros x;
    rewrite elem_of_union, elem_of_list_to_set, list_elem_of_filter,
      Has_true, elem_of_elements, elem_of_intersection;
    unfold sets.NewSet; set_solver.
Qed.

Lemma IsSuperset_range_true s items :
  sets.IsSuperset_range s items = true ↔ ∀ x, x ∈ items → x ∈ s.
Proof.
  induction items as [|y items IH]; simpl.
  - split; [|done]. intros _ x Hx. by apply elem_of_nil in Hx.
  - destruct (sets.Has s y) eqn:Hy; simpl.
    + apply Has_true in Hy. rewrite IH. split.
      * intros Hall x [->|Hx]%elem_of_cons; auto.
      * intros Hall x Hx. apply Hall. by right.
    + split; [done|]. intros Hall.
      assert (Hin : y ∈ s) by (apply Hall; left).
      apply Has_true in Hin. congruence.
Qed.

Lemma HasAll_true s items :
  sets.HasAll s items = true ↔ ∀ x, x ∈ items → x ∈ s.
Proof.
  induction items as [|y items IH]; simpl.
  - split; [|done]. intros _ x Hx. by apply elem_of_nil in Hx.
  - destruct (sets.Has s y) eqn:Hy; simpl.
    + apply Has_true in Hy. rewrite IH. split.
      * intros Hall x [->|Hx]%elem_of_cons; auto.
      * intros Hall x Hx. apply Hall. by right.
    + split; [done|]. intros Hall.
      assert (Hin : y ∈ s) by (apply Hall; left).
      apply Has_true in Hin. congruence.
Qed.

Lemma IsSuperset_true s s2 : sets.IsSuperset s s2 = true ↔ s2 ⊆ s.
Proof.
  unfold sets.IsSuperset. rewrite IsSuperset_range_true.
  split.
  - intros Hall x Hx. apply Hall. by apply elem_of_elements.
  - intros Hsub x Hx. apply Hsub. by apply elem_of_elements in Hx.
Qed.

Lemma size_list_to_set_le items :
  size (list_to_set items : gset T) ≤ length items.
Proof.
  induction items as [|x items IH].
  - rewrite list_to_set_nil, size_empty. done.
  - rewrite list_to_set_cons, size_union_alt, size_singleton. simpl.
    assert (size (list_to_set items ∖ {[x]} : gset T)
            ≤ size (list_to_set items : gset T)).
    { apply subseteq_size. set_solver. }
    lia.
Qed.
End sets_loop_facts.

Section query_facts.
Context {K T : Type} `{Countable K} `{Countable T} {Obj : Type}.
Implicit Types (si : storeIndex.t K T Obj) (tsm : threadSafeMap.t K T Obj).
Implicit Types (index : gmap K (gset T)) (items : gmap T (option Obj)).

Lemma collect_buckets index (vs : list K) (acc : gset T) k :
  k ∈ foldl (λ keySet v,
               foldl (λ ks key, sets.Insert key ks) keySet
                     (elements (storeIndex.bucket index v)))
            acc vs
  ↔ k ∈ acc ∨ ∃ v, v ∈ vs ∧ k ∈ storeIndex.bucket index v.
Proof.
  revert acc. induction vs as [|v vs IH]; intros acc; simpl.
  - split; [by left|]. intros [?|(v & Hv & _)]; [done|].
    by apply elem_of_nil in Hv.
  - rewrite IH, foldl_Insert, elem_of_union, elem_of_list_to_set,
      elem_of_elements. split.
    + intros [[?|?]|(u & Hu & Hk)].
      * by left.
      * right. exists v. split; [left|done].
      * right. exists u. split; [by right|done].
    + intros [?|(u & [->|Hu]%elem_of_cons & Hk)].
      * by left; left.
      * by left; right.
      * right. by exists u.
Qed.

Lemma getKeysFromIndex_ok name f obj vs si :
  storeIndex.indexers si !! name = Some f → f obj = Ok vs →
  ∃ keySet,
    storeIndex.getKeysFromIndex name obj si = Ok keySet ∧
    ∀ k, k ∈ default ∅ keySet ↔
         ∃ v, v ∈ vs ∧
              k ∈ storeIndex.bucket
                    (default ∅ (storeIndex.indices si !! name)) v.
Proof.
  intros Hname Hf. unfold storeIndex.getKeysFromIndex.
  rewrite Hname, Hf.
  set (index := default ∅ (storeIndex.indices si !! name)).
  assert (Hmulti : ∀ k,
    k ∈ foldl (λ keySet v,
                 foldl (λ ks key, sets.Insert key ks) keySet
                       (elements (storeIndex.bucket index v)))
              sets.NewSet vs
    ↔ ∃ v, v ∈ vs ∧ k ∈ storeIndex.bucket index v).
  { intros k. rewrite collect_buckets. unfold sets.NewSet. set_solver. }
  destruct vs as [|v [|v' vs]].
  - eexists. split; [done|]. apply Hmulti.
  - eexists. split; [done|]. intros k. unfold storeIndex.bucket. split.
    + intros Hk. exists v. split; [left|done].
    + intros (u & Hu & Hk). apply list_elem_of_singleton in Hu. by subst.
  - eexists. split; [done|]. apply Hmulti.
Qed.

Lemma IndexKeys_ok name f v tsm :
  storeIndex.indexers (threadSafeMap.index tsm) !! name = Some f →
  threadSafeMap.IndexKeys name v tsm
  = Ok (elements (storeIndex.bucket
          (default ∅ (storeIndex.indices (threadSafeMap.index tsm) !! name))
          v)).
Proof.
  intros Hname. unfold threadSafeMap.IndexKeys, storeIndex.getKeysByIndex.
  by rewrite Hname.
Qed.
End query_facts.

Section panic_facts.
Context {K T : Type} `{Countable K} `{Countable T} {Obj : Type}.
Implicit Types (si : storeIndex.t K T Obj) (tsm : threadSafeMap.t K T Obj).
Implicit Types (index : gmap K (gset T)) (items : gmap T (option Obj)).

Lemma indexValuesOf_panics_iff (f : storeIndex.IndexFunc K Obj) name key obj :
  (∃ p, storeIndex.indexValuesOf (T:=T) f name key obj = Panicked p)
  ↔ ∃ o e, obj = Some o ∧ f (Some o) = Err e.
Proof.
  unfold storeIndex.indexValuesOf. destruct obj as [o|].
  - destruct (f (Some o)) as [vs|e] eqn:Hf.
    + split; [by intros [p ?]|]. intros (o' & e & [= <-] & ?). congruence.
    + split; [|by eauto]. intros _. by exists o, e.
  - split; [by intros [p ?]|]. by intros (o & e & ? & _).
Qed.

Lemma updateSingleIndex_panics_iff name f oldObj newObj key si :
  storeIndex.indexers si !! name = Some f →
  (∃ p, storeIndex.updateSingleIndex name oldObj newObj key si = Panicked p)
  ↔ ∃ o e, f (Some o) = Err e ∧ (oldObj = Some o ∨ newObj = Some o).
Proof.
  intros Hname. unfold storeIndex.updateSingleIndex. rewrite Hname.
  pose proof (indexValuesOf_panics_iff f name key oldObj) as Hold.
  pose proof (indexValuesOf_panics_iff f name key newObj) as Hnew.
  destruct (storeIndex.indexValuesOf f name key oldObj) as [ovs|po]; simpl.
  - destruct (storeIndex.indexValuesOf f name key newObj) as [nvs|pn]; simpl.
    + split.
      * intros [p Hp]. exfalso.
        destruct (storeIndex.sameSingleValue nvs ovs); [done|].
        by destruct (storeIndex.removeOldValues key ovs _) as [? [|]].
      * intros (o & e & Hf & [-> | ->]); exfalso.
        -- destruct Hold as [_ [p ?]]; [by exists o, e|done].
        -- destruct Hnew as [_ [p ?]]; [by exists o, e|done].
    + split; [|by eauto]. intros _.
      destruct Hnew as [(o & e & -> & Hf) _]; [by eauto|].
      exists o, e. split; [done|by right].
  - split; [|by eauto]. intros _.
    destruct Hold as [(o & e & -> & Hf) _]; [by eauto|].
    exists o, e. split; [done|by left].
Qed.

Lemma updateIndices_panics_iff oldObj newObj key si :
  (∃ p, storeIndex.updateIndices oldObj newObj key si = Panicked p)
  ↔ ∃ name f o e, storeIndex.indexers si !! name = Some f ∧
                  f (Some o) = Err e ∧
                  (oldObj = Some o ∨ newObj = Some o).
Proof.
  unfold storeIndex.updateIndices.
  set (ixs := storeIndex.indexers si).
  assert (Hgen : ∀ (names : list string) si0,
    storeIndex.indexers si0 = ixs →
    (∀ n, n ∈ names → is_Some (ixs !! n)) →
    (∃ p, forRange (λ name si1,
               storeIndex.updateSingleIndex name oldObj newObj key si1)
            names si0 = Panicked p)
    ↔ ∃ name f o e, name ∈ names ∧ ixs !! name = Some f ∧
                    f (Some o) = Err e ∧
                    (oldObj = Some o ∨ newObj = Some o)).
  { induction names as [|n names IH]; intros si0 Hix Hreg; simpl.
    { split; [by intros [p ?]|]. intros (n & ? & ? & ? & Hn & _).
      by apply elem_of_nil in Hn. }
    destruct (Hreg n ltac:(left)) as [f Hf].
    assert (Hf0 : storeIndex.indexers si0 !! n = Some f) by by rewrite Hix.
    pose proof (updateSingleIndex_panics_iff n f oldObj newObj key si0 Hf0)
      as Hone.
    destruct (storeIndex.updateSingleIndex n oldObj newObj key si0)
      as [si1|p] eqn:Hupd; simpl.
    - apply updateSingleIndex_indexers in Hupd.
      rewrite IH; [|congruence|intros m Hm; apply Hreg; by right].
      split.
      + intros (m & g & o & e & Hm & ?). exists m, g, o, e.
        split; [by right|done].
      + intros (m & g & o & e & [->|Hm]%elem_of_cons & Hg & Hge & Hobj).
        * exfalso. assert (g = f) as -> by congruence.
          destruct Hone as [_ Hone]. destruct Hone as [p ?]; [|done].
          by exists o, e.
        * by exists m, g, o, e.
    - split; [|by eauto]. intros _.
      destruct Hone as [(o & e & Hfe & Hobj) _]; [by eauto|].
      exists n, f, o, e. split; [left|done]. }
  rewrite Hgen; [|done|].
  - split.
    + intros (n & f & o & e & _ & ?). by exists n, f, o, e.
    + intros (n & f & o & e & Hf & ?). exists n, f, o, e.
      split; [|done]. apply list_elem_of_fmap. exists (n, f).
      split; [done|]. by apply elem_of_map_to_list.
  - intros n ((n' & f) & -> & Hin%elem_of_map_to_list)%list_elem_of_fmap.
    by exists f.
Qed.

Lemma updateIndices_returns oldObj newObj key si :
  never_fails (storeIndex.indexers si) →
  ∃ si', storeIndex.updateIndices oldObj newObj key si = Returned si'.
Proof.
  intros Hnf.
  destruct (storeIndex.updateIndices oldObj newObj key si) as [si'|p] eqn:Hu.
  - by exists si'.
  - exfalso.
    destruct (updateIndices_panics_iff oldObj newObj key si) as [Hp _].
    destruct Hp as (n & f & o & e & Hf & Hfe & _); [by eauto|].
    destruct (Hnf n f o Hf) as [vs Hvs]. congruence.
Qed.

Lemma Get_lookup key tsm :
  threadSafeMap.Get key tsm
  = (mjoin (threadSafeMap.items tsm !! key),
     bool_decide (is_Some (threadSafeMap.items tsm !! key))).
Proof.
  unfold threadSafeMap.Get.
  destruct (threadSafeMap.items tsm !! key) as [item|].
  - by rewrite bool_decide_true by eauto.
  - by rewrite bool_decide_false by (by intros [? ?]).
Qed.
End panic_facts.

Section backfill_facts.
Context {K T : Type} `{Countable K} `{Countable T} {Obj : Type}.
Implicit Types (si : storeIndex.t K T Obj) (tsm : threadSafeMap.t K T Obj).
Implicit Types (index : gmap K (gset T)) (items : gmap T (option Obj)).

Lemma empty_index_reflects (f : storeIndex.IndexFunc K Obj) :
  index_reflects (T:=T) f ∅ ∅.
Proof.
  split.
  - intros v ks. by rewrite lookup_empty.
  - intros v k. unfold storeIndex.bucket. rewrite !lookup_empty. simpl.
    split; [set_solver|]. by intros (o & vs & Hk & _).
Qed.

(** The loop of [AddIndexer] over the stored items. *)
Lemma backfill_reflects name f (l : list (T * option Obj)) si acc :
  storeIndex.indexers si !! name = Some f →
  (∀ o, ∃ vs, f (Some o) = Ok vs) →
  NoDup l.*1 →
  index_reflects f (default ∅ (storeIndex.indices si !! name)) acc →
  (∀ k, k ∈ l.*1 → acc !! k = None) →
  ∃ si',
    forRange (λ ki si1,
                storeIndex.updateSingleIndex name None ki.2 ki.1 si1) l si
      = Returned si' ∧
    storeIndex.indexers si' = storeIndex.indexers si ∧
    index_reflects f (default ∅ (storeIndex.indices si' !! name))
      (list_to_map l ∪ acc) ∧
    ∀ n, n ≠ name →
         storeIndex.indices si' !! n = storeIndex.indices si !! n.
Proof.
  intros Hname Hf. revert si acc Hname.
  induction l as [|[k o] l IH]; intros si acc Hname Hnd Hr Hfresh.
  { exists si. split; [done|]. split; [done|].
    simpl. by rewrite (left_id_L ∅ (∪)). }
  simpl in Hnd. apply NoDup_cons in Hnd as [Hk Hnd].
  destruct (updateSingleIndex_reflects name f None o k si acc
              (<[k := o]> acc)) as (index2 & Hupd & Hr2).
  { done. }
  { done. }
  { intros o' _. apply Hf. }
  { done. }
  { rewrite Hfresh; [done|]. simpl. left. }
  { by rewrite lookup_insert_eq. }
  { intros k' Hk'. by rewrite lookup_insert_ne. }
  simpl. rewrite Hupd. simpl.
  destruct (IH (storeIndex.mk (storeIndex.indexers si)
                  (<[name := index2]> (storeIndex.indices si)))
               (<[k := o]> acc))
    as (si' & Hrun & Hix & Hr' & Hother); try done.
  { simpl. by rewrite lookup_insert_eq. }
  { intros k' Hk'. rewrite lookup_insert_ne by (intros ->; done).
    apply Hfresh. simpl. by right. }
  exists si'. split; [done|]. split; [done|]. split.
  - assert (Heq : <[k := o]> (list_to_map l) ∪ acc
                  = list_to_map l ∪ <[k := o]> acc).
    { rewrite <- insert_union_l. rewrite insert_union_r; [done|].
      by apply not_elem_of_list_to_map_1. }
    by rewrite Heq.
  - intros n Hn. rewrite Hother by done. simpl.
    by rewrite lookup_insert_ne.
Qed.
End backfill_facts.

Section backfill_many_facts.
Context {K T : Type} `{Countable K} `{Countable T} {Obj : Type}.
Implicit Types (si : storeIndex.t K T Obj) (tsm : threadSafeMap.t K T Obj).
Implicit Types (new : gmap string (storeIndex.IndexFunc K Obj)).

(** The inner loop of [AddIndexers], over the new names, for one item. *)
Lemma backfill_item new (names : list string) k o si acc :
  NoDup names →
  (∀ n, n ∈ names → is_Some (new !! n)) →
  (∀ n f, new !! n = Some f → storeIndex.indexers si !! n = Some f) →
  (∀ n f o', new !! n = Some f → ∃ vs, f (Some o') = Ok vs) →
  acc !! k = None →
  (∀ n f, new !! n = Some f → n ∈ names →
     index_reflects f (default ∅ (storeIndex.indices si !! n)) acc) →
  (∀ n f, new !! n = Some f → n ∉ names →
     index_reflects f (default ∅ (storeIndex.indices si !! n))
       (<[k := o]> acc)) →
  ∃ si',
    forRange (λ name si2, storeIndex.updateSingleIndex name None o k si2)
      names si = Returned si' ∧
    storeIndex.indexers si' = storeIndex.indexers si ∧
    ∀ n f, new !! n = Some f →
      index_reflects f (default ∅ (storeIndex.indices si' !! n))
        (<[k := o]> acc).
Proof.
  intros Hnd Hreg Hix Hnf Hk. revert si Hix.
  induction names as [|name names IH]; intros si Hix Hin Hout.
  { exists si. split; [done|]. split; [done|]. intros n f Hn.
    apply Hout; [done|]. apply not_elem_of_nil. }
  apply NoDup_cons in Hnd as [Hname Hnd].
  destruct (Hreg name ltac:(left)) as [f Hf].
  destruct (updateSingleIndex_reflects name f None o k si acc
              (<[k := o]> acc)) as (index2 & Hupd & Hr2).
  { by apply Hix. }
  { done. }
  { intros o' _. by apply (Hnf name). }
  { apply Hin; [done|left]. }
  { by rewrite Hk. }
  { by rewrite lookup_insert_eq. }
  { intros k' Hk'. by rewrite lookup_insert_ne. }
  simpl. rewrite Hupd. simpl.
  destruct (IH Hnd (λ n Hn, Hreg n ltac:(by right))
              (storeIndex.mk (storeIndex.indexers si)
                 (<[name := index2]> (storeIndex.indices si))))
    as (si' & Hrun & Hix' & Hr').
  - done.
  - intros n g Hg Hn. simpl.
    rewrite lookup_insert_ne by (intros ->; done).
    apply Hin; [done|by right].
  - intros n g Hg Hn. simpl. destruct (decide (n = name)) as [->|Hnn].
    + rewrite lookup_insert_eq. simpl. congruence.
    + rewrite lookup_insert_ne by done. apply Hout; [done|].
      intros [->|?]%elem_of_cons; done.
  - exists si'. split; [done|]. split; [done|]. done.
Qed.

(** The outer loop of [AddIndexers], over the stored items. *)
Lemma backfill_items new (l : list (T * option Obj)) si acc :
  (∀ n f, new !! n = Some f → storeIndex.indexers si !! n = Some f) →
  (∀ n f o', new !! n = Some f → ∃ vs, f (Some o') = Ok vs) →
  NoDup l.*1 →
  (∀ k, k ∈ l.*1 → acc !! k = None) →
  (∀ n f, new !! n = Some f →
     index_reflects f (default ∅ (storeIndex.indices si !! n)) acc) →
  ∃ si',
    forRange (λ ki si1,
                forRange (λ name si2,
                            storeIndex.updateSingleIndex name None ki.2 ki.1 si2)
                         (map_to_list new).*1 si1) l si = Returned si' ∧
    storeIndex.indexers si' = storeIndex.indexers si ∧
    ∀ n f, new !! n = Some f →
      index_reflects f (default ∅ (storeIndex.indices si' !! n))
        (list_to_map l ∪ acc).
Proof.
  intros Hix Hnf. revert si acc Hix.
  induction l as [|[k o] l IH]; intros si acc Hix Hnd Hfresh Hr.
  { exists si. split; [done|]. split; [done|].
    simpl. by rewrite (left_id_L ∅ (∪)). }
  simpl in Hnd. apply NoDup_cons in Hnd as [Hk Hnd].
  destruct (backfill_item new (map_to_list new).*1 k o si acc)
    as (si1 & Hrun1 & Hix1 & Hr1).
  - apply NoDup_fst_map_to_list.
  - intros n ((n' & f) & -> & Hin%elem_of_map_to_list)%list_elem_of_fmap.
    by exists f.
  - done.
  - done.
  - apply Hfresh. simpl. left.
  - intros n f Hn _. by apply Hr.
  - intros n f Hn Hnotin. exfalso. apply Hnotin.
    apply list_elem_of_fmap. exists (n, f). split; [done|].
    by apply elem_of_map_to_list.
  - simpl. rewrite Hrun1. simpl.
    destruct (IH si1 (<[k := o]> acc)) as (si' & Hrun & Hix' & Hr').
    + intros n f Hn. rewrite Hix1. by apply Hix.
    + done.
    + intros k' Hk'. rewrite lookup_insert_ne by (intros ->; done).
      apply Hfresh. simpl. by right.
    + done.
    + exists si'. split; [done|]. split; [congruence|].
      intros n f Hn.
      assert (Heq : <[k := o]> (list_to_map l) ∪ acc
                    = list_to_map l ∪ <[k := o]> acc).
      { rewrite <- insert_union_l. rewrite insert_union_r; [done|].
        by apply not_elem_of_list_to_map_1. }
      rewrite Heq. by apply Hr'.
Qed.
End backfill_many_facts.

Section eviction_order_facts.
Context {T : Type} `{Countable T} `{ZeroValue T}.
Implicit Types (keys : list T).

Lemma remove_dups_snoc keys k :
  remove_dups (keys ++ [k]) = filter (λ x, x ≠ k) (remove_dups keys) ++ [k].
Proof.
  induction keys as [|x keys IH]; simpl.
  - done.
  - destruct (decide (x = k)) as [->|Hx].
    + destruct (decide_rel elem_of k (keys ++ [k])) as [_|Hn].
      * rewrite IH. f_equal.
        destruct (decide_rel elem_of k keys); [done|].
        rewrite filter_cons_False; [done|]. by intros ?.
      * exfalso. apply Hn. apply elem_of_app. right. left.
    + destruct (decide_rel elem_of x (keys ++ [k])) as [Hin|Hin];
        destruct (decide_rel elem_of x keys) as [Hin'|Hin'].
      * done.
      * exfalso. apply elem_of_app in Hin as [?|Hin]; [done|].
        apply list_elem_of_singleton in Hin. done.
      * exfalso. apply Hin. apply elem_of_app. by left.
      * rewrite filter_cons_True by done. simpl. by rewrite IH.
Qed.

Lemma remove_dups_cons_in (x : T) (l : list T) :
  x ∈ l → remove_dups (x :: l) = remove_dups l.
Proof. intros Hx. simpl. by destruct (decide_rel elem_of x l). Qed.

Lemma remove_dups_cons_notin (x : T) (l : list T) :
  x ∉ l → remove_dups (x :: l) = x :: remove_dups l.
Proof. intros Hx. simpl. by destruct (decide_rel elem_of x l). Qed.

Lemma length_remove_dups_le (l : list T) :
  length (remove_dups l) ≤ length l.
Proof.
  induction l as [|x l IH]; simpl; [done|].
  destruct (decide_rel elem_of x l); simpl; lia.
Qed.

Lemma Remove_filter (k : T) (l : list T) :
  NoDup l → containerList.Remove k l = filter (λ x, x ≠ k) l.
Proof.
  induction l as [|x l IH]; intros Hnd; simpl; [done|].
  apply NoDup_cons in Hnd as [Hx Hnd]. case_decide as Hxk.
  - subst. rewrite filter_cons_False by (by intros ?).
    rewrite <- IH by done. by rewrite Remove_notin.
  - rewrite filter_cons_True by done. by rewrite IH.
Qed.

Lemma putKeys_snoc keys k (p : Policy.t T) :
  evictionCache.putKeys (keys ++ [k]) p
  = (Policy.Put k (evictionCache.putKeys keys p)).2.
Proof. unfold evictionCache.putKeys. by rewrite foldl_app. Qed.

Lemma size_list_to_set_snoc keys k :
  k ∉ keys →
  size (list_to_set (keys ++ [k]) : gset T)
  = S (size (list_to_set keys : gset T)).
Proof.
  intros Hk. rewrite list_to_set_app_L. simpl.
  rewrite size_union by set_solver.
  rewrite (right_id_L ∅ (∪)), size_singleton. lia.
Qed.

Lemma size_list_to_set_snoc_le keys k :
  size (list_to_set keys : gset T) ≤ size (list_to_set (keys ++ [k]) : gset T).
Proof. apply subseteq_size. set_solver. Qed.

(** The queue of a FIFO policy that was given the keys and had room
    for all of them. *)
Lemma FIFO_putKeys keys capacity :
  (Z.of_nat (size (list_to_set keys : gset T)) ≤ capacity)%Z →
  evictionCache.putKeys keys (Policy.OfFIFO (FIFO.NewFIFO capacity))
  = Policy.OfFIFO (FIFO.mk capacity (list_to_set keys)
                     (reverse (remove_dups (reverse keys)))).
Proof.
  induction keys as [|k keys IH] using rev_ind; intros Hcap.
  { done. }
  rewrite putKeys_snoc, IH
    by (pose proof (size_list_to_set_snoc_le keys k); lia).
  rewrite reverse_snoc.
  destruct (decide (k ∈ keys)) as [Hin|Hin].
  - rewrite remove_dups_cons_in by (by apply elem_of_reverse).
    simpl. unfold FIFO.Put. simpl.
    rewrite bool_decide_true by set_solver. simpl.
    f_equal. f_equal. set_solver.
  - rewrite remove_dups_cons_notin by (by rewrite elem_of_reverse).
    rewrite reverse_cons.
    simpl. unfold FIFO.Put. simpl.
    rewrite bool_decide_false by set_solver.
    rewrite bool_decide_false.
    + simpl. unfold containerList.PushBack.
      f_equal. f_equal. set_solver.
    + unfold containerList.Len. rewrite length_reverse.
      assert (Hlen : length (remove_dups (reverse keys))
                     = size (list_to_set keys : gset T)).
      { rewrite <- (size_list_to_set (C:=gset T))
          by apply NoDup_remove_dups.
        f_equal. apply set_eq. intros x.
        rewrite !elem_of_list_to_set, elem_of_remove_dups.
        apply elem_of_reverse. }
      rewrite Hlen. rewrite size_list_to_set_snoc in Hcap by done. lia.
Qed.

Lemma FIFO_evictN n (f : FIFO.t T) :
  (evictN n (Policy.OfFIFO f)).1 = take n (FIFO.lst f).
Proof.
  revert f. induction n as [|n IH]; intros f; simpl; [done|].
  unfold FIFO.Evict, FIFO.evict.
  destruct (FIFO.lst f) as [|k rest] eqn:Hl; simpl; [done|].
  rewrite decide_True by done.
  specialize (IH (FIFO.mk (FIFO.capacity f) (FIFO.cache f ∖ {[k]}) rest)).
  destruct (evictN n _) as [out p2]. simpl in *. by rewrite IH.
Qed.

(** The list of an LRU policy that was given the keys and had room for
    all of them. *)
Lemma lru_putKeys keys capacity :
  (Z.of_nat (size (list_to_set keys : gset T)) ≤ capacity)%Z →
  evictionCache.putKeys keys (Policy.OfLRU (lru.NewLRU capacity))
  = Policy.OfLRU (lru.mk capacity (list_to_set keys)
                    (reverse (remove_dups keys))).
Proof.
  induction keys as [|k keys IH] using rev_ind; intros Hcap.
  { done. }
  rewrite putKeys_snoc, IH
    by (pose proof (size_list_to_set_snoc_le keys k); lia).
  rewrite remove_dups_snoc, reverse_snoc. simpl. unfold lru.Put. simpl.
  assert (Hnd : NoDup (reverse (remove_dups keys))).
  { rewrite reverse_Permutation. apply NoDup_remove_dups. }
  rewrite <- filter_reverse, <- Remove_filter by done.
  destruct (decide (k ∈ keys)) as [Hin|Hin].
  - rewrite bool_decide_true by set_solver. simpl.
    f_equal. f_equal; [set_solver|].
    unfold containerList.MoveToFront. case_decide as Hfront; [|done].
    destruct (reverse (remove_dups keys)) as [|x rest]; [done|].
    injection Hfront as ->. simpl. by rewrite decide_True.
  - rewrite bool_decide_false by set_solver.
    rewrite bool_decide_false.
    + simpl. unfold containerList.PushFront.
      rewrite Remove_notin
        by (by rewrite elem_of_reverse, elem_of_remove_dups).
      f_equal. f_equal. set_solver.
    + unfold containerList.Len. rewrite length_reverse.
      assert (Hlen : length (remove_dups keys)
                     = size (list_to_set keys : gset T)).
      { rewrite <- (size_list_to_set (C:=gset T))
          by apply NoDup_remove_dups.
        f_equal. apply set_eq. intros x.
        by rewrite !elem_of_list_to_set, elem_of_remove_dups. }
      rewrite Hlen. rewrite size_list_to_set_snoc in Hcap by done. lia.
Qed.

Lemma lru_evictN n (l : lru.t T) :
  (evictN n (Policy.OfLRU l)).1 = take n (reverse (lru.lst l)).
Proof.
  revert l. induction n as [|n IH]; intros l; simpl; [done|].
  unfold lru.Evict, lru.evict, containerList.Back.
  destruct (last (lru.lst l)) as [k|] eqn:Hl; simpl.
  - apply last_Some in Hl as [rest Hl]. rewrite Hl.
    rewrite removelast_last, reverse_snoc. simpl.
    specialize (IH (lru.mk (lru.capacity l) (lru.cache l ∖ {[k]}) rest)).
    destruct (evictN n _) as [out p2]. simpl in *. by rewrite IH.
  - apply last_None in Hl. by rewrite Hl.
Qed.
End eviction_order_facts.

Section policy_bound_facts.
Context {T : Type} `{Countable T} `{ZeroValue T}.

(** What [evictN] returns on an LFU policy. *)
Lemma LFU_evictN n (l : LFU.t T) :
  LFU_wf l →
  let out := (evictN n (Policy.OfLFU l)).1 in
  NoDup out ∧
  (∀ k, k ∈ out → k ∈ LFU.cache l) ∧
  length out = n `min` size (LFU.cache l) ∧
  (∀ i j ki kj, i < j → out !! i = Some ki → out !! j = Some kj →
     ∃ fi fj, LFU_freqs l !! ki = Some fi ∧ LFU_freqs l !! kj = Some fj ∧
              (fi ≤ fj)%Z) ∧
  (∀ k k' f f', k ∈ out → k' ∉ out →
     LFU_freqs l !! k = Some f → LFU_freqs l !! k' = Some f' → (f ≤ f')%Z).
Proof.
  revert l. induction n as [|n IH]; intros l Hwf; simpl.
  { split; [constructor|]. split; [by intros k ?%elem_of_nil|].
    split; [done|]. split; [done|]. by intros k k' f f' ?%elem_of_nil. }
  unfold LFU.Evict.
  destruct (LFU.evict l) as [[ek ev] l'] eqn:Hev.
  destruct (LFU_evict_spec l ek ev l' Hwf Hev) as (Hwf' & _ & Hempty & Hne).
  destruct (decide (LFU.cache l = ∅)) as [He|He].
  { destruct (Hempty He) as (-> & _ & _). simpl. rewrite He, size_empty.
    split; [constructor|]. split; [by intros k ?%elem_of_nil|].
    split; [lia|]. split; [done|]. by intros k k' f f' ?%elem_of_nil. }
  destruct (Hne He) as (-> & Hek & Hcache & Hfreqs & fmin & Hfmin & Hmin).
  specialize (IH l' Hwf'). simpl in IH.
  destruct (evictN n (Policy.OfLFU l')) as [out p2]. simpl in *.
  destruct IH as (Hnd & Hin & Hlen & Hsorted & Hrest).
  assert (Hnotin : ek ∉ out).
  { intros Hk. apply Hin in Hk. set_solver. }
  assert (Hlk : ∀ k, k ∈ out → LFU_freqs l' !! k = LFU_freqs l !! k).
  { intros k Hk. rewrite Hfreqs. apply lookup_delete_ne.
    intros ->. done. }
  split; [by constructor|]. split.
  { intros k [->|Hk]%elem_of_cons; [done|]. apply Hin in Hk. set_solver. }
  split.
  { rewrite Hlen, Hcache, size_difference by set_solver.
    rewrite size_singleton.
    assert (size (LFU.cache l) ≠ 0).
    { intros Hz. apply size_empty_inv in Hz. set_solver. }
    destruct (size (LFU.cache l)) as [|m]; [done|].
    f_equal. f_equal. lia. }
  split.
  - intros i j ki kj Hij Hi Hj. destruct j as [|j]; [lia|]. simpl in Hj.
    assert (Hkj : kj ∈ out) by (by eapply list_elem_of_lookup_2).
    destruct i as [|i]; simpl in Hi.
    + injection Hi as <-.
      assert (Hdom : kj ∈ dom (LFU_freqs l)).
      { rewrite LFU_dom_freqs by done. apply Hin in Hkj. set_solver. }
      apply elem_of_dom in Hdom as [fj Hfj].
      exists fmin, fj. split; [done|]. split; [done|]. by eapply Hmin.
    + destruct (Hsorted i j ki kj ltac:(lia) Hi Hj)
        as (fi & fj & Hfi & Hfj & Hle).
      assert (Hki : ki ∈ out) by (by eapply list_elem_of_lookup_2).
      exists fi, fj. rewrite <- !Hlk by done. done.
  - intros k k' f f' [->|Hk]%elem_of_cons Hk' Hf Hf'.
    + rewrite Hfmin in Hf. injection Hf as <-. by eapply Hmin.
    + apply not_elem_of_cons in Hk' as [Hne' Hk'].
      eapply (Hrest k k'); [done|done| |].
      * by rewrite Hlk.
      * rewrite Hfreqs. by rewrite lookup_delete_ne.
Qed.

(** A policy holds at most [capacity] keys, and at most one key when
    its capacity is not positive. *)
Lemma Policy_reachable_bound (p : Policy.t T) :
  Policy_reachable p →
  (Z.of_nat (size (Policy_tracked p)) ≤ Z.max 1 (Policy_capacity p))%Z.
Proof.
  intros Hreach.
  induction Hreach as [kind capacity|key p Hreach IH|key p Hreach IH
                       |p Hreach IH|p Hreach IH].
  - rewrite newPolicy_tracked, size_empty. lia.
  - pose proof (Policy_reachable_wf p Hreach) as Hwf.
    destruct (Policy.Put key p) as [[ek ev] p'] eqn:HPut.
    destruct (Policy_Put_spec key p ek ev p' Hwf HPut)
      as (_ & Hcap & Hin & Hnotin).
    simpl. rewrite Hcap.
    destruct (decide (key ∈ Policy_tracked p)) as [Hk|Hk].
    + destruct (Hin Hk) as (_ & _ & ->). done.
    + destruct (Hnotin Hk) as [Hev Hnev]. destruct ev.
      * destruct (Hev eq_refl) as (Hek & _ & ->).
        rewrite size_union by set_solver.
        rewrite size_singleton, size_difference by set_solver.
        rewrite size_singleton.
        assert (size (Policy_tracked p) ≠ 0).
        { intros Hz. apply size_empty_inv in Hz. set_solver. }
        lia.
      * destruct (Hnev eq_refl) as (_ & -> & Hroom).
        rewrite size_union by set_solver. rewrite size_singleton.
        destruct Hroom as [Hroom| ->]; [lia|].
        rewrite size_empty. lia.
  - pose proof (Policy_reachable_wf p Hreach) as Hwf.
    destruct (Policy_Delete_spec key p Hwf) as (_ & -> & ->).
    assert (size (Policy_tracked p ∖ {[key]}) ≤ size (Policy_tracked p)).
    { apply subseteq_size. set_solver. }
    lia.
  - pose proof (Policy_reachable_wf p Hreach) as Hwf.
    destruct (Policy.Evict p) as [[ek ev] p'] eqn:HEv.
    destruct (Policy_Evict_spec p ek ev p' Hwf HEv)
      as (_ & Hcap & Hempty & Hne).
    simpl. rewrite Hcap.
    destruct (decide (Policy_tracked p = ∅)) as [He|He].
    + destruct (Hempty He) as (_ & _ & ->). done.
    + destruct (Hne He) as (_ & _ & ->).
      assert (size (Policy_tracked p ∖ {[ek]}) ≤ size (Policy_tracked p)).
      { apply subseteq_size. set_solver. }
      lia.
  - destruct (Policy_Reset_spec p) as (_ & -> & ->).
    rewrite size_empty. lia.
Qed.
End policy_bound_facts.

Section returns_facts.
Context {K T : Type} `{Countable K} `{Countable T} {Obj : Type}.
Implicit Types (si : storeIndex.t K T Obj) (tsm : threadSafeMap.t K T Obj).

Lemma updateIndices_indexers oldObj newObj key si si' :
  storeIndex.updateIndices oldObj newObj key si = Returned si' →
  storeIndex.indexers si' = storeIndex.indexers si.
Proof.
  unfold storeIndex.updateIndices.
  apply (forRange_inv
           (λ s, storeIndex.indexers s = storeIndex.indexers si)); [|done].
  intros name s0 s1 _ Hs0 Hupd.
  apply updateSingleIndex_indexers in Hupd. congruence.
Qed.

Lemma Update_returns key obj tsm :
  never_fails (storeIndex.indexers (threadSafeMap.index tsm)) →
  ∃ tsm', threadSafeMap.Update key obj tsm = Returned tsm' ∧
          threadSafeMap.items tsm'
            = <[key := obj]> (threadSafeMap.items tsm) ∧
          storeIndex.indexers (threadSafeMap.index tsm')
            = storeIndex.indexers (threadSafeMap.index tsm).
Proof.
  intros Hnf. unfold threadSafeMap.Update.
  destruct (updateIndices_returns
              (mjoin (threadSafeMap.items tsm !! key)) obj key
              (threadSafeMap.index tsm) Hnf) as [si' Hsi].
  rewrite Hsi. simpl. eexists. split; [done|]. split; [done|].
  simpl. by eapply updateIndices_indexers.
Qed.

Lemma Delete_returns key tsm :
  never_fails (storeIndex.indexers (threadSafeMap.index tsm)) →
  ∃ tsm', threadSafeMap.Delete key tsm = Returned tsm' ∧
          threadSafeMap.items tsm' = delete key (threadSafeMap.items tsm) ∧
          storeIndex.indexers (threadSafeMap.index tsm')
            = storeIndex.indexers (threadSafeMap.index tsm).
Proof.
  intros Hnf. unfold threadSafeMap.Delete.
  destruct (threadSafeMap.items tsm !! key) as [old|] eqn:Hkey.
  - destruct (updateIndices_returns old None key
                (threadSafeMap.index tsm) Hnf) as [si' Hsi].
    rewrite Hsi. simpl. eexists. split; [done|]. split; [done|].
    simpl. by eapply updateIndices_indexers.
  - exists tsm. split; [done|]. split; [|done]. by rewrite delete_id.
Qed.

Lemma Replace_returns newItems tsm :
  never_fails (storeIndex.indexers (threadSafeMap.index tsm)) →
  ∃ tsm', threadSafeMap.Replace newItems tsm = Returned tsm' ∧
          threadSafeMap.items tsm' = newItems ∧
          storeIndex.indexers (threadSafeMap.index tsm')
            = storeIndex.indexers (threadSafeMap.index tsm).
Proof.
  intros Hnf.
  destruct (Replace_rebuilds newItems tsm Hnf) as (tsm' & ? & ? & ? & _).
  by exists tsm'.
Qed.

(** The keying loop of [Replace]. *)
Lemma keyItems_fails (keyFunc : cache.KeyFunc T Obj) before obj after err acc :
  (∀ o, o ∈ before → ∃ k, keyFunc o = Ok k) →
  keyFunc obj = Err err →
  cache.keyItems keyFunc (before ++ obj :: after) acc
  = Err (KeyError obj err).
Proof.
  intros Hbefore Hobj. revert acc.
  induction before as [|o before IH]; intros acc; simpl.
  - by rewrite Hobj.
  - destruct (Hbefore o ltac:(left)) as [k ->].
    apply IH. intros o' Ho'. apply Hbefore. by right.
Qed.

Lemma keyItems_lookup (keyFunc : cache.KeyFunc T Obj) l acc items :
  cache.keyItems keyFunc l acc = Ok items →
  (∀ o, o ∈ l → ∃ k, keyFunc o = Ok k) ∧
  (∀ k, items !! k
        = match last (objectsWithKey keyFunc k l) with
          | Some o => Some o
          | None => acc !! k
          end).
Proof.
  unfold objectsWithKey.
  revert acc. induction l as [|o l IH]; intros acc; simpl.
  - intros [= <-]. split; [by intros o ?%elem_of_nil|done].
  - destruct (keyFunc o) as [k0|e] eqn:Hk0; [|done].
    intros Hrest. destruct (IH _ Hrest) as [Hall Hlk]. split.
    + intros o' [->|Ho']%elem_of_cons; [by eauto|by apply Hall].
    + intros k. rewrite Hlk. rewrite filter_cons.
      assert (Hhas : hasKey keyFunc k o = bool_decide (k0 = k)).
      { unfold hasKey. by rewrite Hk0. }
      destruct (decide (k0 = k)) as [->|Hne].
      * rewrite bool_decide_true in Hhas by done.
        rewrite decide_True by done.
        destruct (filter _ l) as [|x rest] eqn:Hf.
        -- simpl. by rewrite lookup_insert_eq.
        -- rewrite last_cons_cons.
           destruct (last (x :: rest)) eqn:Hl; [done|].
           by apply last_None in Hl.
      * rewrite bool_decide_false in Hhas by done.
        rewrite decide_False by (by rewrite Hhas).
        destruct (last (filter _ l)); [done|].
        by rewrite lookup_insert_ne.
Qed.
End returns_facts.

Section putKeys_facts.
Context {K T : Type} `{Countable K} `{Countable T} `{ZeroValue T} {Obj : Type}.
Implicit Types (tsm : threadSafeMap.t K T Obj) (c : evictionCache.t K T Obj).



Lemma putKeys_tracked keys (p : Policy.t T) :
  Policy_wf p →
  (∀ k, k ∈ keys → k ∈ Policy_tracked p) →
  Policy_wf (evictionCache.putKeys keys p) ∧
  Policy_capacity (evictionCache.putKeys keys p) = Policy_capacity p ∧
  Policy_tracked (evictionCache.putKeys keys p) = Policy_tracked p.
Proof.
  revert p. induction keys as [|key keys IH]; intros p Hwf Hall.
  { done. }
  change (evictionCache.putKeys (key :: keys) p)
    with (evictionCache.putKeys keys (Policy.Put key p).2).
  destruct (Policy.Put key p) as [[ek ev] p'] eqn:HPut.
  destruct (Policy_Put_spec key p ek ev p' Hwf HPut)
    as (Hwf' & Hcap & Hin & _).
  destruct (Hin (Hall key ltac:(left))) as (_ & _ & Htr). simpl.
  destruct (IH p' Hwf') as (Hwf2 & Hcap2 & Htr2).
  { intros k Hk. rewrite Htr. apply Hall. by right. }
  split; [done|]. split; congruence.
Qed.
End putKeys_facts.

Section cache_facts.
Context {K T : Type} `{Countable K} `{Countable T} {Obj : Type}.
Implicit Types (c : cache.t K T Obj).

Lemma keyItems_total (keyFunc : cache.KeyFunc T Obj) l acc :
  (∀ o, o ∈ l → ∃ k, keyFunc o = Ok k) →
  ∃ items, cache.keyItems keyFunc l acc = Ok items.
Proof.
  revert acc. induction l as [|o l IH]; intros acc Hkeys; simpl.
  - by eauto.
  - destruct (Hkeys o ltac:(left)) as [k ->].
    apply IH. intros o' Ho'. apply Hkeys. by right.
Qed.

Lemma length_omap_le {A B} (f : A → option B) (l : list A) :
  length (omap f l) ≤ length l.
Proof.
  induction l as [|x l IH]; [done|].
  change (omap f (x :: l))
    with (match f x with Some y => y :: omap f l | None => omap f l end).
  destruct (f x); simpl length; lia.
Qed.

Lemma length_objectsWithKey (keyFunc : cache.KeyFunc T Obj) k l :
  length (objectsWithKey keyFunc k l) ≤ length l.
Proof. apply length_filter. Qed.

Lemma keyItems_Err (keyFunc : cache.KeyFunc T Obj) l acc e :
  cache.keyItems keyFunc l acc = Err e →
  ∃ obj e0, obj ∈ l ∧ e = KeyError obj e0 ∧ keyFunc obj = Err e0.
Proof.
  revert acc. induction l as [|o l IH]; intros acc; simpl; [done|].
  destruct (keyFunc o) as [k|e0] eqn:Hk.
  - intros Hrest. destruct (IH _ Hrest) as (obj & e1 & Hin & ? & ?).
    exists obj, e1. split; [by right|done].
  - intros [= <-]. exists o, e0. split; [left|done].
Qed.

Lemma keyItems_Ok (keyFunc : cache.KeyFunc T Obj) l acc items :
  cache.keyItems keyFunc l acc = Ok items →
  ∀ obj, obj ∈ l → ∃ key, keyFunc obj = Ok key.
Proof.
  revert acc. induction l as [|o l IH]; intros acc; simpl.
  - by intros _ obj Hin%elem_of_nil.
  - destruct (keyFunc o) as [k|e0] eqn:Hk; [|done].
    intros Hrest obj [-> | Hin]%elem_of_cons; [by eauto|].
    by eapply IH.
Qed.

(** A call on a store whose index functions never fail returns, and
    keeps the key function and the index functions; the error it may
    return is the [KeyError] of an object of the call, and the store is
    then as it was. *)
Lemma doCacheCall_returns call c :
  never_fails (storeIndex.indexers (threadSafeMap.index (cache.store c))) →
  ∃ err c', doCacheCall call c = Returned (err, c') ∧
            cache.keyFunc c' = cache.keyFunc c ∧
            storeIndex.indexers (threadSafeMap.index (cache.store c'))
            = storeIndex.indexers (threadSafeMap.index (cache.store c)) ∧
            (∀ e, err = Some e →
                  c' = c ∧
                  ∃ obj e0, obj ∈ callObjects call ∧ e = KeyError obj e0 ∧
                            cache.keyFunc c obj = Err e0) ∧
            (err = None →
             (∀ obj, obj ∈ callObjects call →
                     ∃ key, cache.keyFunc c obj = Ok key) ∧
             callStores call (cache.keyFunc c)
               (threadSafeMap.items (cache.store c))
               (threadSafeMap.items (cache.store c'))).
Proof.
  intros Hnf. destruct call as [obj|obj|obj|l]; simpl.
  - unfold cache.Add. destruct (cache.keyFunc c obj) as [key|e] eqn:Hk.
    + destruct (Update_returns key obj (cache.store c) Hnf)
        as (s1 & Hs1 & Hitems & Hix).
      unfold threadSafeMap.Add. rewrite Hs1. simpl.
      eexists _, _. split; [done|]. split; [done|]. split; [done|].
      split; [done|]. intros _. simpl. split; [|by eauto].
      intros o ->%list_elem_of_singleton. by eauto.
    + eexists _, _. split; [done|]. split; [done|]. split; [done|].
      split; [|done].
      intros e' [= <-]. split; [done|]. exists obj, e.
      split; [left|done].
  - unfold cache.Update. destruct (cache.keyFunc c obj) as [key|e] eqn:Hk.
    + destruct (Update_returns key obj (cache.store c) Hnf)
        as (s1 & Hs1 & Hitems & Hix).
      rewrite Hs1. simpl.
      eexists _, _. split; [done|]. split; [done|]. split; [done|].
      split; [done|]. intros _. simpl. split; [|by eauto].
      intros o ->%list_elem_of_singleton. by eauto.
    + eexists _, _. split; [done|]. split; [done|]. split; [done|].
      split; [|done].
      intros e' [= <-]. split; [done|]. exists obj, e.
      split; [left|done].
  - unfold cache.Delete. destruct (cache.keyFunc c obj) as [key|e] eqn:Hk.
    + destruct (Delete_returns key (cache.store c) Hnf)
        as (s1 & Hs1 & Hitems & Hix).
      rewrite Hs1. simpl.
      eexists _, _. split; [done|]. split; [done|]. split; [done|].
      split; [done|]. intros _. simpl. split; [|by eauto].
      intros o ->%list_elem_of_singleton. by eauto.
    + eexists _, _. split; [done|]. split; [done|]. split; [done|].
      split; [|done].
      intros e' [= <-]. split; [done|]. exists obj, e.
      split; [left|done].
  - unfold cache.Replace.
    destruct (cache.keyItems (cache.keyFunc c) l ∅) as [items|e] eqn:Hki.
    + destruct (Replace_returns items (cache.store c) Hnf)
        as (s1 & Hs1 & Hitems & Hix).
      rewrite Hs1. simpl.
      eexists _, _. split; [done|]. split; [done|]. split; [done|].
      split; [done|]. intros _. simpl. split; [|by rewrite Hitems].
      by eapply keyItems_Ok.
    + eexists _, _. split; [done|]. split; [done|]. split; [done|].
      split; [|done].
      intros e' [= <-]. split; [done|]. by eapply keyItems_Err.
Qed.
End cache_facts.

(** * The properties of the specification *)

Section store_claims.
Context {K T : Type} `{Countable K} `{Countable T} {Obj : Type}.
Implicit Types (si : storeIndex.t K T Obj) (tsm : threadSafeMap.t K T Obj).

(** C7.  [AddIndexer] with a name that is registered, and [AddIndexers]
    with a batch that contains such a name, return the conflict error and
    leave the store as it was: the same indexers, the same buckets, hence
    the same answers to every query. *)
Theorem duplicate_index_rejected tsm name f :
  name ∈ dom (storeIndex.indexers (threadSafeMap.index tsm)) →
  threadSafeMap.AddIndexer name f tsm
    = Returned (Some (IndexerConflict [name]), tsm)
  ∧ ∀ new, name ∈ dom new →
      ∃ names, threadSafeMap.AddIndexers new tsm
                 = Returned (Some (IndexerConflict names), tsm).
Proof.
  intros Hin. destruct tsm as [items si]; simpl in *. split.
  - unfold threadSafeMap.AddIndexer; simpl.
    by rewrite addIndexer_conflict.
  - intros new Hnew.
    destruct (addIndexers_conflict si new name Hnew Hin) as [names Hc].
    exists names. unfold threadSafeMap.AddIndexers; simpl. by rewrite Hc.
Qed.


End store_claims.

Section policy_claims.
Context {T : Type} `{Countable T} `{ZeroValue T}.
Implicit Types (p : Policy.t T) (k : T).

Lemma int_incr_no_overflow f :
  (int_min ≤ f < int_max)%Z → int_incr f = (f + 1)%Z.
Proof.
  unfold int_incr, int_wrap, int_min, int_max. intros Hf.
  rewrite Z.mod_small; lia.
Qed.

(** C5.  For a policy value of any of the three kinds: a [Put] that
    reports an eviction was given a key that was not tracked, at a size
    that had reached the capacity, and removed exactly the reported key; a
    [Put] that reports none removed no key; a [Put] of a tracked key
    reports none.  [Delete] removes its argument and no other key, and
    [Reset] keeps the capacity and reports no key (neither method returns
    an evicted key). *)
Theorem Put_evicts_only_new_key_at_capacity p :
  Policy_reachable p →
  (∀ key evictedKey evicted p',
     Policy.Put key p = (evictedKey, evicted, p') →
     (evicted = true →
        (key ∉ Policy_tracked p) ∧
        (Policy_capacity p ≤ Z.of_nat (Policy.Size p))%Z ∧
        evictedKey ∈ Policy_tracked p ∧
        Policy_tracked p' = {[key]} ∪ (Policy_tracked p ∖ {[evictedKey]})) ∧
     (evicted = false →
        evictedKey = zero_value ∧
        Policy_tracked p' = {[key]} ∪ Policy_tracked p) ∧
     (key ∈ Policy_tracked p → evicted = false)) ∧
  (∀ key, Policy_tracked (Policy.Delete key p) = Policy_tracked p ∖ {[key]}) ∧
  Policy_tracked (Policy.Reset p) = ∅ ∧
  Policy_capacity (Policy.Reset p) = Policy_capacity p.
Proof.
  intros Hwf%Policy_reachable_wf. split; [|split].
  - intros key ek ev p' Hput.
    destruct (Policy_Put_spec key p ek ev p' Hwf Hput) as (_ & _ & Hin & Hout).
    rewrite Policy_Size_tracked.
    destruct (decide (key ∈ Policy_tracked p)) as [Hk|Hk].
    + destruct (Hin Hk) as (-> & -> & ->).
      split; [done|]. split; [|done]. intros _. split; [done|]. set_solver.
    + destruct (Hout Hk) as [Ht Hf]. split; [|split].
      * intros Hev. destruct (Ht Hev) as (? & ? & ?). done.
      * intros Hev. destruct (Hf Hev) as (? & ? & _). done.
      * done.
  - intros key. by destruct (Policy_Delete_spec key p Hwf) as (_ & _ & ?).
  - by destruct (Policy_Reset_spec p) as (_ & ? & ?).
Qed.

(** C10.  [Evict] on a policy of size 0 returns the zero value of the key
    type and [false], and leaves the policy as it was. *)
Theorem Evict_on_empty_policy p :
  Policy_reachable p → Policy.Size p = 0 →
  Policy.Evict p = (zero_value, false, p).
Proof.
  intros Hwf%Policy_reachable_wf Hsz.
  rewrite Policy_Size_tracked in Hsz. apply size_empty_inv in Hsz.
  apply leibniz_equiv in Hsz.
  destruct (Policy.Evict p) as [[ek ev] p'] eqn:Hev.
  destruct (Policy_Evict_spec p ek ev p' Hwf Hev) as (_ & _ & He & _).
  by destruct (He Hsz) as (-> & -> & ->).
Qed.
End policy_claims.

Section lfu_claims.
Context {T : Type} `{Countable T} `{ZeroValue T}.

(** C6.  In the LFU policy the frequency of a key is 1 after its first
    [Put] and is incremented (Go's [++]) by every later [Put]; the key a
    [Put] or an [Evict] removes has a frequency that no tracked key
    undercuts.  Eviction does remove a key: [Evict] on a policy that
    tracks a key returns a tracked key of least frequency and [true], and
    drops it and its counter; [Put] of a new key into a full policy
    evicts such a key and tracks the new key in its place.  With capacity
    2, after [Put(1)], [Put(2)], [Put(2)], [Put(2)] key 2 has frequency
    3, and [Put(3)] evicts key 1 while key 2 survives; [Evict] at that
    point would also take key 1. *)
Theorem LFU_frequency_counts_and_min_eviction (l : LFU.t T) :
  Policy_reachable (Policy.OfLFU l) →
  (∀ key evictedKey evicted l',
     LFU.Put key l = (evictedKey, evicted, l') →
     (key ∉ LFU.cache l → LFU_freqs l' !! key = Some 1%Z) ∧
     (key ∈ LFU.cache l →
        ∃ f, LFU_freqs l !! key = Some f ∧
             LFU_freqs l' !! key = Some (int_incr f) ∧
             ((int_min ≤ f < int_max)%Z → int_incr f = (f + 1)%Z)) ∧
     (evicted = true →
        ∃ f, LFU_freqs l !! evictedKey = Some f ∧
             LFU_freqs l' !! evictedKey = None ∧
             ∀ k f', LFU_freqs l !! k = Some f' → (f ≤ f')%Z)) ∧
  (∀ evictedKey l',
     LFU.Evict l = (evictedKey, true, l') →
     ∃ f, LFU_freqs l !! evictedKey = Some f ∧
          LFU_freqs l' !! evictedKey = None ∧
          ∀ k f', LFU_freqs l !! k = Some f' → (f ≤ f')%Z) ∧
  (LFU.Size l ≠ 0 →
     ∃ evictedKey l' f,
       LFU.Evict l = (evictedKey, true, l') ∧
       evictedKey ∈ LFU.cache l ∧
       LFU.cache l' = LFU.cache l ∖ {[evictedKey]} ∧
       LFU.Size l' + 1 = LFU.Size l ∧
       LFU_freqs l !! evictedKey = Some f ∧
       LFU_freqs l' = delete evictedKey (LFU_freqs l) ∧
       ∀ k f', LFU_freqs l !! k = Some f' → (f ≤ f')%Z) ∧
  (∀ key evictedKey evicted l',
     LFU.Put key l = (evictedKey, evicted, l') →
     key ∉ LFU.cache l →
     (LFU.capacity l ≤ Z.of_nat (LFU.Size l))%Z →
     LFU.Size l ≠ 0 →
     evicted = true ∧
     evictedKey ∈ LFU.cache l ∧
     LFU.cache l' = {[key]} ∪ (LFU.cache l ∖ {[evictedKey]}) ∧
     LFU.Size l' = LFU.Size l ∧
     LFU_freqs l' = <[key := 1%Z]> (delete evictedKey (LFU_freqs l)) ∧
     ∃ f, LFU_freqs l !! evictedKey = Some f ∧
          ∀ k f', LFU_freqs l !! k = Some f' → (f ≤ f')%Z) ∧
  (LFU_puts [1; 2; 2; 2]%Z (LFU.NewLFU 2)).1
    = [(0, false); (0, false); (0, false); (0, false)]%Z ∧
  LFU_freqs (LFU_puts [1; 2; 2; 2]%Z (LFU.NewLFU 2)).2
    = {[ 1 := 1; 2 := 3 ]}%Z ∧
  LFU.Put 3%Z (LFU_puts [1; 2; 2; 2]%Z (LFU.NewLFU 2)).2
    = (1%Z, true, (LFU_puts [1; 2; 2; 2; 3]%Z (LFU.NewLFU 2)).2) ∧
  LFU_freqs (LFU_puts [1; 2; 2; 2; 3]%Z (LFU.NewLFU 2)).2
    = {[ 2 := 3; 3 := 1 ]}%Z ∧
  LFU.cache (LFU_puts [1; 2; 2; 2; 3]%Z (LFU.NewLFU 2)).2
    = {[ 2; 3 ]}%Z ∧
  (LFU.Evict (LFU_puts [1; 2; 2; 2]%Z (LFU.NewLFU 2)).2).1
    = (1%Z, true) ∧
  LFU.cache (LFU.Evict (LFU_puts [1; 2; 2; 2]%Z (LFU.NewLFU 2)).2).2
    = {[ 2%Z ]}.
Proof.
  intros Hwf%Policy_reachable_wf. simpl in Hwf.
  assert (Hsize : LFU.Size l ≠ 0 → LFU.cache l ≠ ∅).
  { unfold LFU.Size. intros Hnz He. by rewrite He, size_empty in Hnz. }
  split; [|split; [|split; [|split; [|split; [|split; [|split;
    [|split; [|split; [|split]]]]]]]]].
  - intros key ek ev l' Hput.
    destruct (LFU_Put_spec key l ek ev l' Hwf Hput) as (Hwf' & _ & Hin & Hout).
    split; [|split].
    + intros Hk. destruct (Hout Hk) as [Ht Hf]. destruct ev.
      * destruct (Ht eq_refl) as (_ & _ & _ & -> & _). apply lookup_insert_eq.
      * destruct (Hf eq_refl) as (_ & _ & -> & _). apply lookup_insert_eq.
    + intros Hk. destruct (Hin Hk) as (_ & _ & _ & f & Hf & ->).
      exists f. split; [done|]. split; [apply lookup_insert_eq|].
      apply int_incr_no_overflow.
    + intros ->. destruct (decide (key ∈ LFU.cache l)) as [Hk|Hk].
      { by destruct (Hin Hk) as (? & _). }
      destruct (Hout Hk) as [Ht _].
      destruct (Ht eq_refl) as (Hek & _ & _ & -> & f & Hf & Hmin).
      exists f. split; [done|]. split; [|done].
      rewrite lookup_insert_ne by set_solver. apply lookup_delete_eq.
  - intros ek l' Hev. unfold LFU.Evict in Hev.
    destruct (LFU_evict_spec l ek true l' Hwf Hev) as (_ & _ & He & Hne).
    destruct (decide (LFU.cache l = ∅)) as [Hem|Hem].
    { by destruct (He Hem) as (? & _). }
    destruct (Hne Hem) as (_ & _ & _ & -> & f & Hf & Hmin).
    exists f. split; [done|]. split; [apply lookup_delete_eq|done].
  - intros Hnz. unfold LFU.Evict.
    destruct (LFU.evict l) as [[ek ev] l'] eqn:Hev.
    destruct (LFU_evict_spec l ek ev l' Hwf Hev) as (_ & _ & _ & Hne).
    destruct (Hne (Hsize Hnz)) as (-> & Hek & Hcache & Hfreqs & f & Hf & Hmin).
    exists ek, l', f. split; [done|]. split; [done|]. split; [done|].
    split; [|done]. unfold LFU.Size in *. rewrite Hcache.
    rewrite size_difference, size_singleton by set_solver. lia.
  - intros key ek ev l' Hput Hk Hfull Hnz.
    destruct (LFU_Put_spec key l ek ev l' Hwf Hput) as (_ & _ & _ & Hout).
    destruct (Hout Hk) as [Ht Hf]. unfold LFU.Size in *. destruct ev.
    + destruct (Ht eq_refl) as (Hek & _ & Hcache & Hfreqs & Hmin).
      split; [done|]. split; [done|]. split; [done|]. split; [|done].
      rewrite Hcache, size_union by set_solver.
      rewrite size_singleton, size_difference, size_singleton by set_solver.
      lia.
    + destruct (Hf eq_refl) as (_ & _ & _ & [Hroom|He]); [lia|].
      by rewrite He, size_empty in Hnz.
  - by vm_compute.
  - by vm_compute.
  - by vm_compute.
  - by vm_compute.
  - by vm_compute.
  - by vm_compute.
  - by vm_compute.
Qed.
End lfu_claims.

Section facade_claims.
Context {K T : Type} `{Countable K} `{Countable T} `{ZeroValue T} {Obj : Type}.
Implicit Types (tsm : threadSafeMap.t K T Obj) (c : evictionCache.t K T Obj).

(** C3.  In the cache reached from an empty eviction-backed cache by any
    sequence of [Add] and [Delete] calls that return, the store and the
    policy hold the same keys, so [Store.Size() == Policy.Size()]; and a
    successful [Add] derives the key, calls [Policy.Put], deletes the
    evicted key (if one is reported) from the store and only then inserts
    the object, after which the sizes are equal again. *)
Theorem store_size_equals_policy_size
    kind capacity keyFunc indexers (calls : list (facadeCall Obj)) c :
  runCalls calls
    (evictionCache.NewEvictionCache (K:=K) keyFunc
       (newPolicy (T:=T) kind capacity) indexers) = Returned c →
  threadSafeMap.Size (evictionCache.store c)
    = Policy.Size (evictionCache.evictionPolicy c) ∧
  dom (threadSafeMap.items (evictionCache.store c))
    = Policy_tracked (evictionCache.evictionPolicy c) ∧
  ∀ obj c',
    evictionCache.Add obj c = Returned (None, c') →
    ∃ key evictedKey evicted store1,
      evictionCache.keyFunc c obj = Ok key ∧
      Policy.Put key (evictionCache.evictionPolicy c)
        = (evictedKey, evicted, evictionCache.evictionPolicy c') ∧
      (if evicted
       then threadSafeMap.Delete evictedKey (evictionCache.store c)
       else Returned (evictionCache.store c)) = Returned store1 ∧
      threadSafeMap.Add key obj store1 = Returned (evictionCache.store c') ∧
      threadSafeMap.Size (evictionCache.store c')
        = Policy.Size (evictionCache.evictionPolicy c').
Proof.
  intros Hrun.
  pose proof (runCalls_inv capacity calls _ c
                (New_inv kind capacity keyFunc indexers) Hrun) as Hinv.
  assert (Hsz : ∀ c0, facade_inv capacity c0 →
            threadSafeMap.Size (evictionCache.store c0)
            = Policy.Size (evictionCache.evictionPolicy c0)).
  { intros c0 (_ & _ & Hdom & _). unfold threadSafeMap.Size.
    by rewrite Policy_Size_tracked, <- Hdom, size_dom. }
  split; [by apply Hsz|]. split; [by destruct Hinv as (_ & _ & ? & _)|].
  intros obj c' HAdd.
  pose proof (Add_inv capacity obj c None c' Hinv HAdd) as Hinv'.
  apply Add_unfold in HAdd
    as [(e & _ & [=] & _)|(key & ek & ev & s1 & _ & Hk & _ & Hput & Hdel & Hadd)].
  exists key, ek, ev, s1. split; [done|]. split; [done|]. split; [done|].
  split; [done|]. by apply Hsz.
Qed.

(** C4.  For each of the three policies and every capacity [C >= 1],
    after any sequence of [Add] calls on an empty eviction-backed cache,
    [Size() <= C]. *)
Theorem cache_size_bounded_by_capacity
    kind capacity keyFunc indexers (objs : list (option Obj)) c :
  (1 ≤ capacity)%Z →
  runCalls (CallAdd <$> objs)
    (evictionCache.NewEvictionCache (K:=K) keyFunc
       (newPolicy (T:=T) kind capacity) indexers) = Returned c →
  (Z.of_nat (evictionCache.Size c) ≤ capacity)%Z.
Proof.
  intros Hcap Hrun.
  destruct (runCalls_inv capacity _ _ c
              (New_inv kind capacity keyFunc indexers) Hrun)
    as (_ & _ & Hdom & Hsize).
  unfold evictionCache.Size, threadSafeMap.Size.
  rewrite <- size_dom, Hdom. by apply Hsize.
Qed.

(** C9.  An [Update] of the eviction-backed cache whose key derivation
    succeeds and that returns, returns no error and changes the objects of
    the store at the derived key only: every other key keeps its object,
    whatever [Policy.Put] reported. *)
Theorem Update_only_sets_its_key obj c key err c' :
  evictionCache.keyFunc c obj = Ok key →
  evictionCache.Update obj c = Returned (err, c') →
  err = None ∧
  threadSafeMap.items (evictionCache.store c')
    = <[key := obj]> (threadSafeMap.items (evictionCache.store c)) ∧
  ∀ k, k ≠ key →
    threadSafeMap.items (evictionCache.store c') !! k
      = threadSafeMap.items (evictionCache.store c) !! k.
Proof.
  intros Hkey. unfold evictionCache.Update. rewrite Hkey.
  destruct (threadSafeMap.Update key obj (evictionCache.store c))
    as [store1|] eqn:Hupd; simpl; [|done].
  destruct (Policy.Put key (evictionCache.evictionPolicy c)) as [[ek ev] p'].
  intros [= <- <-]. simpl. apply Update_items in Hupd.
  split; [done|]. split; [done|].
  intros k Hk. rewrite Hupd. by apply lookup_insert_ne.
Qed.
End facade_claims.

(** ** The properties on concrete inputs *)

(** C1.  [updateSingleIndex] does not process every old value: at an old
    value whose bucket is missing the loop executes [return].  With the
    old values [1; 1] the first turn empties and deletes the bucket of 1,
    the second turn finds it missing, and the function returns before the
    new value 2 gets its bucket: the index is left empty although the new
    object has the value 2. *)
Lemma updateSingleIndex_returns_at_missing_bucket :
  storeIndex.updateSingleIndex "tags" (Some [1; 1]%Z) (Some [2]%Z) 7%Z tagIndex
    = Returned (storeIndex.mk (storeIndex.indexers tagIndex) {[ "tags" := ∅ ]})
  ∧ byTags (Some [2]%Z) = Ok [2]%Z.
Proof. split; [by vm_compute|done]. Qed.

(** C2.  The index invariant of the store does not survive [Update].
    After [Add(7, [1; 1])] and [Update(7, [2])] the store holds [2] under
    key 7, but the bucket of 2 does not exist; and when the old object had
    the values [1; 1; 3], key 7 stays in the bucket of 3 after the update
    (a stale entry) and is missing under 2. *)
Lemma stale_index_after_update :
  (∃ s, addThenUpdate [2]%Z = Returned s ∧
        threadSafeMap.Get 7%Z s = (Some [2]%Z, true) ∧
        byTags (Some [2]%Z) = Ok [2]%Z ∧
        threadSafeMap.IndexKeys "tags" 2%Z s = Ok []) ∧
  (∃ s, threadSafeMap.Update 7%Z (Some [2]%Z)
          (threadSafeMap.mk {[ 7%Z := Some [1; 1; 3]%Z ]}
             (storeIndex.mk {[ "tags" := byTags ]}
                {[ "tags" := {[ 1%Z := {[ 7%Z ]}; 3%Z := {[ 7%Z ]} ]} ]}))
          = Returned s ∧
        threadSafeMap.Get 7%Z s = (Some [2]%Z, true) ∧
        threadSafeMap.IndexKeys "tags" 3%Z s = Ok [7%Z] ∧
        threadSafeMap.IndexKeys "tags" 2%Z s = Ok []).
Proof.
  split.
  - eexists. split; [by vm_compute|]. by vm_compute.
  - eexists. split; [by vm_compute|]. by vm_compute.
Qed.

(** C7 at a store whose index "tags" is registered. *)
Lemma duplicate_index_rejected_witness :
  "tags" ∈ dom (storeIndex.indexers (threadSafeMap.index storeWithUntagged)) ∧
  threadSafeMap.AddIndexer "tags" byFirstTag storeWithUntagged
    = Returned (Some (IndexerConflict ["tags"]), storeWithUntagged) ∧
  ∃ names,
    threadSafeMap.AddIndexers {[ "tags" := byFirstTag; "first" := byFirstTag ]}
                              storeWithUntagged
      = Returned (Some (IndexerConflict names), storeWithUntagged).
Proof.
  assert (Hin : "tags" ∈ dom (storeIndex.indexers
                                (threadSafeMap.index storeWithUntagged))).
  { apply elem_of_dom. eexists. by vm_compute. }
  split; [exact Hin|].
  destruct (duplicate_index_rejected storeWithUntagged "tags" byFirstTag Hin)
    as [Hone Hmany].
  split; [exact Hone|]. apply Hmany.
  apply elem_of_dom. eexists. by vm_compute.
Defined.



(** C3 at a FIFO cache of capacity 2: [Add(1)], [Add(2)], [Add(3)],
    [Delete(2)]. *)
Lemma store_size_equals_policy_size_witness :
  runCalls [CallAdd (Some 1%Z); CallAdd (Some 2%Z); CallAdd (Some 3%Z);
            CallDelete (Some 2%Z)]
           (newIntCache KindFIFO 2)
    = Returned (intCache (Policy.OfFIFO (FIFO.mk 2 {[ 3%Z ]} [3%Z]))
                         {[ 3%Z := Some 3%Z ]}) ∧
  threadSafeMap.Size
    (evictionCache.store
       (intCache (Policy.OfFIFO (FIFO.mk 2 {[ 3%Z ]} [3%Z]))
                 {[ 3%Z := Some 3%Z ]}))
  = Policy.Size (Policy.OfFIFO (FIFO.mk 2 {[ 3%Z ]} [3%Z])).
Proof.
  assert (Hrun :
    runCalls [CallAdd (Some 1%Z); CallAdd (Some 2%Z); CallAdd (Some 3%Z);
              CallDelete (Some 2%Z)]
             (newIntCache KindFIFO 2)
      = Returned (intCache (Policy.OfFIFO (FIFO.mk 2 {[ 3%Z ]} [3%Z]))
                           {[ 3%Z := Some 3%Z ]})) by by vm_compute.
  split; [exact Hrun|].
  exact (proj1 (store_size_equals_policy_size KindFIFO 2 intKeyFunc ∅ _ _ Hrun)).
Defined.

(** C4 at an LFU cache of capacity 2 after three [Add] calls. *)
Lemma cache_size_bounded_by_capacity_witness :
  (1 ≤ 2)%Z ∧
  runCalls (CallAdd <$> [Some 1%Z; Some 2%Z; Some 3%Z]) (newIntCache KindLFU 2)
    = Returned
        (intCache (Policy.OfLFU
                     (LFU.mk 2 {[ 2%Z; 3%Z ]}
                        [lfuEntry.mk 2%Z 1%Z 0; lfuEntry.mk 3%Z 1%Z 1]))
                  {[ 2%Z := Some 2%Z; 3%Z := Some 3%Z ]}) ∧
  (Z.of_nat
     (evictionCache.Size
        (intCache (Policy.OfLFU
                     (LFU.mk 2 {[ 2%Z; 3%Z ]}
                        [lfuEntry.mk 2%Z 1%Z 0; lfuEntry.mk 3%Z 1%Z 1]))
                  {[ 2%Z := Some 2%Z; 3%Z := Some 3%Z ]})) ≤ 2)%Z.
Proof.
  assert (Hcap : (1 ≤ 2)%Z) by lia.
  assert (Hrun :
    runCalls (CallAdd <$> [Some 1%Z; Some 2%Z; Some 3%Z]) (newIntCache KindLFU 2)
      = Returned
          (intCache (Policy.OfLFU
                       (LFU.mk 2 {[ 2%Z; 3%Z ]}
                          [lfuEntry.mk 2%Z 1%Z 0; lfuEntry.mk 3%Z 1%Z 1]))
                    {[ 2%Z := Some 2%Z; 3%Z := Some 3%Z ]})) by by vm_compute.
  split; [exact Hcap|]. split; [exact Hrun|].
  exact (cache_size_bounded_by_capacity KindLFU 2 intKeyFunc ∅ _ _ Hcap Hrun).
Defined.

(** C5 at an LRU policy of capacity 2 that is full. *)
Lemma Put_evicts_only_new_key_at_capacity_witness :
  Policy_reachable lruAfterTwoPuts ∧
  ∀ key evictedKey evicted p',
    Policy.Put key lruAfterTwoPuts = (evictedKey, evicted, p') →
    key ∈ Policy_tracked lruAfterTwoPuts → evicted = false.
Proof.
  assert (Hreach : Policy_reachable lruAfterTwoPuts).
  { apply reach_Put, reach_Put, reach_new. }
  split; [exact Hreach|].
  intros key evictedKey evicted p' Hput.
  exact (proj2 (proj2 (proj1 (Put_evicts_only_new_key_at_capacity
                                lruAfterTwoPuts Hreach)
                         key evictedKey evicted p' Hput))).
Defined.

(** C6 at the LFU policy of capacity 2 after [Put(1)], [Put(2)],
    [Put(2)]. *)
Lemma LFU_frequency_counts_and_min_eviction_witness :
  Policy_reachable (Policy.OfLFU lfuAfterThreePuts) ∧
  LFU.Size lfuAfterThreePuts ≠ 0 ∧
  (LFU.Evict lfuAfterThreePuts).1 = (1%Z, true) ∧
  LFU.cache (LFU.Evict lfuAfterThreePuts).2 = {[ 2%Z ]} ∧
  ∃ evictedKey l' f,
    LFU.Evict lfuAfterThreePuts = (evictedKey, true, l') ∧
    evictedKey ∈ LFU.cache lfuAfterThreePuts ∧
    LFU.cache l' = LFU.cache lfuAfterThreePuts ∖ {[evictedKey]} ∧
    LFU.Size l' + 1 = LFU.Size lfuAfterThreePuts ∧
    LFU_freqs lfuAfterThreePuts !! evictedKey = Some f ∧
    LFU_freqs l' = delete evictedKey (LFU_freqs lfuAfterThreePuts) ∧
    ∀ k f', LFU_freqs lfuAfterThreePuts !! k = Some f' → (f ≤ f')%Z.
Proof.
  assert (Heq : (Policy.Put 2%Z (Policy.Put 2%Z
                   (Policy.Put 1%Z (newPolicy KindLFU 2)).2).2).2
                = Policy.OfLFU lfuAfterThreePuts) by by vm_compute.
  assert (Hreach : Policy_reachable (Policy.OfLFU lfuAfterThreePuts)).
  { rewrite <- Heq. apply reach_Put, reach_Put, reach_Put, reach_new. }
  assert (Hnz : LFU.Size lfuAfterThreePuts ≠ 0).
  { intros Hz. vm_compute in Hz. discriminate Hz. }
  split; [exact Hreach|]. split; [exact Hnz|].
  split; [by vm_compute|]. split; [by vm_compute|].
  exact (proj1 (proj2 (proj2 (LFU_frequency_counts_and_min_eviction
                                lfuAfterThreePuts Hreach))) Hnz).
Defined.

(** C9 at a FIFO cache of capacity 1 that holds key 1: [Update(2)] makes
    the policy evict key 1, and key 1 keeps its object in the store. *)
Lemma Update_only_sets_its_key_witness :
  evictionCache.keyFunc (intCache fifoWith1 {[ 1%Z := Some 1%Z ]}) (Some 2%Z)
    = Ok 2%Z ∧
  evictionCache.Update (Some 2%Z) (intCache fifoWith1 {[ 1%Z := Some 1%Z ]})
    = Returned (None, intCache fifoWith2
                        {[ 1%Z := Some 1%Z; 2%Z := Some 2%Z ]}) ∧
  Policy.Put 2%Z fifoWith1 = (1%Z, true, fifoWith2) ∧
  threadSafeMap.items
    (evictionCache.store
       (intCache fifoWith2 {[ 1%Z := Some 1%Z; 2%Z := Some 2%Z ]})) !! 1%Z
  = threadSafeMap.items
      (evictionCache.store (intCache fifoWith1 {[ 1%Z := Some 1%Z ]})) !! 1%Z.
Proof.
  assert (Hupd :
    evictionCache.Update (Some 2%Z) (intCache fifoWith1 {[ 1%Z := Some 1%Z ]})
      = Returned (None, intCache fifoWith2
                          {[ 1%Z := Some 1%Z; 2%Z := Some 2%Z ]}))
    by by vm_compute.
  assert (Hkey :
    evictionCache.keyFunc (intCache fifoWith1 {[ 1%Z := Some 1%Z ]}) (Some 2%Z)
      = Ok 2%Z) by reflexivity.
  split; [exact Hkey|]. split; [exact Hupd|]. split; [by vm_compute|].
  refine (proj2 (proj2 (Update_only_sets_its_key (Some 2%Z) _ 2%Z None _
                          Hkey Hupd)) 1%Z _).
  discriminate.
Defined.

(** C10 at a new LFU policy. *)
Lemma Evict_on_empty_policy_witness :
  Policy_reachable (newPolicy (T:=Z) KindLFU 2) ∧
  Policy.Size (newPolicy (T:=Z) KindLFU 2) = 0 ∧
  Policy.Evict (newPolicy (T:=Z) KindLFU 2)
    = (0%Z, false, newPolicy KindLFU 2).
Proof.
  assert (Hreach : Policy_reachable (newPolicy (T:=Z) KindLFU 2))
    by apply reach_new.
  assert (Hsize : Policy.Size (newPolicy (T:=Z) KindLFU 2) = 0) by reflexivity.
  split; [exact Hreach|]. split; [exact Hsize|].
  exact (Evict_on_empty_policy (newPolicy KindLFU 2) Hreach Hsize).
Defined.

(** * Further properties of the code

    Properties of the functions the specification does not speak of, and
    of the ones it does, read off the code: error and edge behaviour,
    round trips, the orders of eviction, what the calls keep and what
    they never do. *)

Section sets_properties.
Context {T : Type} `{Countable T} `{ZeroValue T}.
Implicit Types (s : gset T) (items : list T).

(** X1.  [Equal] decides equality of sets: comparing the sizes and
    checking that [s] has every element of [s2] is enough. *)
Theorem Equal_decides_set_equality s s2 :
  sets.Equal s s2 = true ↔ s = s2.
Proof.
  unfold sets.Equal. rewrite andb_true_iff, bool_decide_eq_true,
    IsSuperset_true. unfold sets.Len. split.
  - intros [Hsize Hsub].
    symmetry. apply set_subseteq_size_eq; [done|lia].
  - intros ->. done.
Qed.

(** X2.  The three loops compute the set operations they are named
    after: [Intersection] gives the common elements whichever of the
    two sets it walks, [Union] the elements of either set, and
    [Difference] the elements of [s] that [s2] lacks. *)
Theorem set_operations_compute s s2 :
  sets.Intersection s s2 = s ∩ s2 ∧
  sets.Intersection s s2 = sets.Intersection s2 s ∧
  sets.Union s s2 = s ∪ s2 ∧
  sets.Difference s s2 = s ∖ s2.
Proof.
  split; [apply Intersection_eq|].
  split; [rewrite !Intersection_eq; set_solver|].
  split.
  - unfold sets.Union, sets.NewSet. rewrite !foldl_Insert.
    apply set_eq. intros x.
    rewrite !elem_of_union, !elem_of_list_to_set, !elem_of_elements.
    set_solver.
  - unfold sets.Difference, sets.NewSet. rewrite foldl_Insert_if.
    apply set_eq. intros x.
    rewrite elem_of_union, elem_of_list_to_set, list_elem_of_filter,
      elem_of_elements, elem_of_difference, negb_true_iff.
    destruct (sets.Has s2 x) eqn:Hx.
    + apply Has_true in Hx. set_solver.
    + assert (x ∉ s2) by (rewrite <- Has_true; congruence). set_solver.
Qed.

(** X3.  [PopAny] on the empty set returns the zero value and [false]
    and leaves the set empty; on any other set it returns an element of
    the set and [true], and removes exactly that element, so the length
    drops by one. *)
Theorem PopAny_takes_one_element s :
  (s = ∅ → sets.PopAny s = (zero_value, false, s)) ∧
  (s ≠ ∅ →
     ∃ key, key ∈ s ∧ sets.PopAny s = (key, true, s ∖ {[key]}) ∧
            sets.Len (s ∖ {[key]}) + 1 = sets.Len s).
Proof.
  unfold sets.PopAny. split.
  - intros ->. by rewrite elements_empty.
  - intros Hne. destruct (elements s) as [|key rest] eqn:Hel.
    + apply elements_empty_inv in Hel. by apply leibniz_equiv in Hel.
    + assert (Hin : key ∈ s).
      { apply elem_of_elements. rewrite Hel. left. }
      exists key. split; [done|]. split; [done|].
      unfold sets.Len. rewrite size_difference by set_solver.
      rewrite size_singleton.
      assert (size s ≠ 0).
      { intros Hz. apply size_empty_inv in Hz. set_solver. }
      lia.
Qed.

(** X4.  The variadic operations: [NewSet(items...)] holds exactly the
    items (a repeated item counts once), [Insert(items...)] adds them,
    [Delete(items...)] removes them whether present or not; [HasAll]
    holds when every item is in the set (so for no items at all) and
    [HasAny] when some item is (so never for no items). *)
Theorem variadic_set_operations s items :
  sets.NewSetOf items = list_to_set items ∧
  sets.InsertItems items s = s ∪ list_to_set items ∧
  sets.DeleteItems items s = s ∖ list_to_set items ∧
  sets.Len (sets.NewSetOf items) ≤ length items ∧
  (sets.HasAll s items = true ↔ ∀ x, x ∈ items → x ∈ s) ∧
  (sets.HasAny s items = true ↔ ∃ x, x ∈ items ∧ x ∈ s).
Proof.
  assert (Hnew : sets.NewSetOf items = list_to_set items).
  { unfold sets.NewSetOf, sets.InsertItems. rewrite foldl_Insert. set_solver. }
  split; [done|].
  split; [apply foldl_Insert|].
  split; [apply foldl_Delete|].
  split.
  - rewrite Hnew. apply size_list_to_set_le.
  - split; [apply HasAll_true|apply HasAny_true].
Qed.
End sets_properties.

Section query_properties.
Context {K T : Type} `{Countable K} `{Countable T} {Obj : Type}.
Implicit Types (si : storeIndex.t K T Obj) (tsm : threadSafeMap.t K T Obj).

(** X5.  For a registered index whose function yields the values [vs]
    for [obj], [getKeysFromIndex] returns the keys found in the bucket
    of some value of [vs]; the answer is the same set of keys whether
    the function yields one value (the bucket itself is returned, or the
    nil set when there is none) or several (the buckets are merged), and
    it is empty when the function yields no value. *)
Theorem getKeysFromIndex_collects_the_buckets name f obj vs si :
  storeIndex.indexers si !! name = Some f →
  f obj = Ok vs →
  ∃ keySet,
    storeIndex.getKeysFromIndex name obj si = Ok keySet ∧
    (∀ k, k ∈ default ∅ keySet ↔
          ∃ v, v ∈ vs ∧
               k ∈ storeIndex.bucket
                     (default ∅ (storeIndex.indices si !! name)) v) ∧
    (vs = [] → keySet = Some ∅).
Proof.
  intros Hname Hf.
  destruct (getKeysFromIndex_ok name f obj vs si Hname Hf)
    as (keySet & Hget & Hks).
  exists keySet. split; [done|]. split; [done|].
  intros ->. unfold storeIndex.getKeysFromIndex in Hget.
  rewrite Hname, Hf in Hget. simpl in Hget. by injection Hget as <-.
Qed.

(** X6.  The index queries fail only as follows: [IndexKeys] and
    [ByIndex] exactly when the index name is not registered, with the
    error that names the missing index; [Index] also when the index
    function fails on the object, with the function's own error (the
    queries return such a failure, they do not panic). *)
Theorem index_queries_fail_only_for_unknown_index name v obj tsm e :
  (threadSafeMap.IndexKeys name v tsm = Err e ↔
     storeIndex.indexers (threadSafeMap.index tsm) !! name = None ∧
     e = IndexNotExist name) ∧
  (threadSafeMap.ByIndex name v tsm = Err e ↔
     storeIndex.indexers (threadSafeMap.index tsm) !! name = None ∧
     e = IndexNotExist name) ∧
  (threadSafeMap.Index name obj tsm = Err e ↔
     (storeIndex.indexers (threadSafeMap.index tsm) !! name = None ∧
      e = IndexNotExist name) ∨
     (∃ f, storeIndex.indexers (threadSafeMap.index tsm) !! name = Some f ∧
           f obj = Err e)).
Proof.
  assert (Hkeys : threadSafeMap.IndexKeys name v tsm = Err e ↔
     storeIndex.indexers (threadSafeMap.index tsm) !! name = None ∧
     e = IndexNotExist name).
  { unfold threadSafeMap.IndexKeys, storeIndex.getKeysByIndex.
    destruct (storeIndex.indexers (threadSafeMap.index tsm) !! name);
      simpl; split; try done.
    - by intros [? _].
    - by intros [= <-].
    - by intros [_ ->]. }
  split; [done|]. split.
  - unfold threadSafeMap.ByIndex.
    destruct (threadSafeMap.IndexKeys name v tsm) as [keys|e'] eqn:Hk.
    + split; [done|]. intros Hne. apply Hkeys in Hne. done.
    + rewrite <- Hkeys. split; congruence.
  - unfold threadSafeMap.Index, storeIndex.getKeysFromIndex.
    destruct (storeIndex.indexers (threadSafeMap.index tsm) !! name)
      as [f|]; simpl.
    + destruct (f obj) as [vs|e'] eqn:Hf.
      * split.
        -- by destruct vs as [|? [|]].
        -- intros [[? _]|(g & [= <-] & Hg)]; [done|]. congruence.
      * split.
        -- intros [= <-]. right. by exists f.
        -- intros [[? _]|(g & [= <-] & Hg)]; [done|]. congruence.
    + split.
      * intros [= <-]. by left.
      * intros [[_ ->]|(g & ? & _)]; done.
Qed.

(** X7.  In a store reached from an empty one by any sequence of [Add],
    [Update], [Delete] and [Replace], with index functions that never
    fail and never yield a value twice, [IndexKeys] returns, each once,
    exactly the keys whose stored object has the indexed value, and
    [ByIndex] returns the objects stored under these keys. *)
Theorem IndexKeys_returns_the_matching_keys
    indexers calls tsm name f v :
  duplicate_free indexers →
  runStoreCalls (K:=K) calls (threadSafeMap.NewThreadSafeStore indexers ∅)
    = Returned tsm →
  indexers !! name = Some f →
  ∃ keys,
    threadSafeMap.IndexKeys name v tsm = Ok keys ∧
    NoDup keys ∧
    (∀ k, k ∈ keys ↔
          ∃ o vs, threadSafeMap.items tsm !! k = Some (Some o) ∧
                  f (Some o) = Ok vs ∧ v ∈ vs) ∧
    threadSafeMap.ByIndex name v tsm
      = Ok ((λ k, mjoin (threadSafeMap.items tsm !! k)) <$> keys).
Proof.
  intros Hdf Hrun Hname.
  destruct (runStoreCalls_consistent calls
              (threadSafeMap.NewThreadSafeStore indexers ∅))
    as (tsm' & Hrun' & Hix & Hcons).
  { done. }
  { intros n g _. split.
    - intros u ks. simpl. by rewrite lookup_empty.
    - intros u k. unfold storeIndex.bucket. simpl. rewrite !lookup_empty.
      simpl. split; [set_solver|]. by intros (o & vs & Hk & _). }
  rewrite Hrun in Hrun'. injection Hrun' as <-.
  simpl in Hix. rewrite <- Hix in Hname.
  destruct (Hcons name f Hname) as [_ Hrefl].
  eexists. split; [by apply (IndexKeys_ok name f)|].
  split; [apply NoDup_elements|]. split.
  - intros k. rewrite elem_of_elements. apply Hrefl.
  - unfold threadSafeMap.ByIndex. by rewrite (IndexKeys_ok name f).
Qed.
End query_properties.

Section store_properties.
Context {K T : Type} `{Countable K} `{Countable T} {Obj : Type}.
Implicit Types (si : storeIndex.t K T Obj) (tsm : threadSafeMap.t K T Obj).

(** X8.  [Update] (and so [Add]) panics exactly when some registered
    index function fails on the object stored under the key so far or
    on the new object, nil objects not being handed to the index
    functions; [Delete] panics exactly when the key is stored with an
    object on which some registered index function fails. *)
Theorem Update_panics_exactly_when_an_index_function_fails key obj tsm :
  ((∃ p, threadSafeMap.Update key obj tsm = Panicked p) ↔
     ∃ name f o e,
       storeIndex.indexers (threadSafeMap.index tsm) !! name = Some f ∧
       f (Some o) = Err e ∧
       (mjoin (threadSafeMap.items tsm !! key) = Some o ∨ obj = Some o)) ∧
  ((∃ p, threadSafeMap.Delete key tsm = Panicked p) ↔
     ∃ name f o e,
       storeIndex.indexers (threadSafeMap.index tsm) !! name = Some f ∧
       f (Some o) = Err e ∧
       threadSafeMap.items tsm !! key = Some (Some o)).
Proof.
  split.
  - unfold threadSafeMap.Update.
    rewrite <- (updateIndices_panics_iff
                  (mjoin (threadSafeMap.items tsm !! key)) obj key
                  (threadSafeMap.index tsm)).
    destruct (storeIndex.updateIndices _ obj key (threadSafeMap.index tsm))
      as [si'|p0]; simpl.
    + split; by intros [q Hq].
    + split; intros _; by exists p0.
  - unfold threadSafeMap.Delete.
    destruct (threadSafeMap.items tsm !! key) as [old|] eqn:Hkey.
    + pose proof (updateIndices_panics_iff old None key
                    (threadSafeMap.index tsm)) as Hiff.
      destruct (storeIndex.updateIndices old None key
                  (threadSafeMap.index tsm)) as [si'|p]; simpl.
      * split; [by intros [q ?]|].
        intros (n & f & o & e & Hf & Hfe & [= ->]).
        destruct Hiff as [_ [q ?]]; [|done].
        exists n, f, o, e. split; [done|]. split; [done|by left].
      * split; [|by eauto]. intros _.
        destruct Hiff as [(n & f & o & e & Hf & Hfe & [-> | ?]) _];
          [by eauto| |done].
        by exists n, f, o, e.
    + split; [by intros [p ?]|]. by intros (n & f & o & e & _ & _ & ?).
Qed.

(** X9.  With index functions that never fail, [Update] (and so [Add])
    returns; afterwards [Get] finds the new object under the key, every
    other key is as before, and the size has grown by one exactly when
    the key was new.  [Delete] returns; afterwards [Get] does not find
    the key, every other key is as before, and the size has dropped by
    one exactly when the key was stored. *)
Theorem Get_after_Update_and_Delete key obj tsm :
  never_fails (storeIndex.indexers (threadSafeMap.index tsm)) →
  (∃ tsm',
     threadSafeMap.Add key obj tsm = Returned tsm' ∧
     threadSafeMap.Update key obj tsm = Returned tsm' ∧
     threadSafeMap.Get key tsm' = (obj, true) ∧
     (∀ k, k ≠ key → threadSafeMap.Get k tsm' = threadSafeMap.Get k tsm) ∧
     threadSafeMap.Size tsm'
       = if decide (key ∈ dom (threadSafeMap.items tsm))
         then threadSafeMap.Size tsm else S (threadSafeMap.Size tsm)) ∧
  (∃ tsm',
     threadSafeMap.Delete key tsm = Returned tsm' ∧
     threadSafeMap.Get key tsm' = (None, false) ∧
     (∀ k, k ≠ key → threadSafeMap.Get k tsm' = threadSafeMap.Get k tsm) ∧
     threadSafeMap.Size tsm'
       = if decide (key ∈ dom (threadSafeMap.items tsm))
         then threadSafeMap.Size tsm - 1 else threadSafeMap.Size tsm).
Proof.
  intros Hnf. split.
  - destruct (updateIndices_returns
                (mjoin (threadSafeMap.items tsm !! key)) obj key
                (threadSafeMap.index tsm) Hnf) as [si' Hsi].
    unfold threadSafeMap.Add, threadSafeMap.Update. rewrite Hsi. simpl.
    eexists. split; [done|]. split; [done|].
    unfold threadSafeMap.Get, threadSafeMap.Size. simpl.
    rewrite lookup_insert_eq. split; [done|]. split.
    + intros k Hk. by rewrite lookup_insert_ne.
    + case_decide as Hin.
      * apply elem_of_dom in Hin as [old Hold].
        rewrite <- (insert_id _ _ _ Hold) at 2.
        rewrite <- (insert_delete_eq (threadSafeMap.items tsm)).
        rewrite <- (insert_delete_eq (threadSafeMap.items tsm) key old).
        rewrite !map_size_insert_None by apply lookup_delete_eq. done.
      * apply not_elem_of_dom in Hin. by rewrite map_size_insert_None.
  - unfold threadSafeMap.Delete.
    destruct (threadSafeMap.items tsm !! key) as [old|] eqn:Hkey.
    + destruct (updateIndices_returns old None key
                  (threadSafeMap.index tsm) Hnf) as [si' Hsi].
      rewrite Hsi. simpl. eexists. split; [done|].
      unfold threadSafeMap.Get, threadSafeMap.Size. simpl.
      rewrite lookup_delete_eq. split; [done|]. split.
      * intros k Hk. by rewrite lookup_delete_ne.
      * rewrite decide_True by (apply elem_of_dom; eauto).
        rewrite map_size_delete_Some by eauto. lia.
    + exists tsm. split; [done|].
      unfold threadSafeMap.Get. rewrite Hkey. split; [done|].
      split; [done|].
      rewrite decide_False; [done|]. by apply not_elem_of_dom.
Qed.

(** X10.  [Replace] builds the indexes anew, whatever they held
    before: with index functions that never fail (they may yield a value
    twice) it returns a store that holds exactly the new objects, and
    in which [IndexKeys] returns, each once, exactly the keys whose new
    object has the indexed value. *)
Theorem Replace_rebuilds_every_index newItems tsm :
  never_fails (storeIndex.indexers (threadSafeMap.index tsm)) →
  ∃ tsm',
    threadSafeMap.Replace newItems tsm = Returned tsm' ∧
    threadSafeMap.items tsm' = newItems ∧
    threadSafeMap.Size tsm' = size newItems ∧
    ∀ name f v,
      storeIndex.indexers (threadSafeMap.index tsm) !! name = Some f →
      ∃ keys,
        threadSafeMap.IndexKeys name v tsm' = Ok keys ∧ NoDup keys ∧
        ∀ k, k ∈ keys ↔
             ∃ o vs, newItems !! k = Some (Some o) ∧
                     f (Some o) = Ok vs ∧ v ∈ vs.
Proof.
  intros Hnf.
  destruct (Replace_rebuilds newItems tsm Hnf)
    as (tsm' & Hrun & Hitems & Hix & Hcons).
  exists tsm'. split; [done|]. split; [done|].
  split; [unfold threadSafeMap.Size; by rewrite Hitems|].
  intros name f v Hname. rewrite <- Hix in Hname.
  destruct (Hcons name f Hname) as [_ Hrefl].
  eexists. split; [by apply (IndexKeys_ok name f)|].
  split; [apply NoDup_elements|].
  intros k. rewrite elem_of_elements, Hrefl. by rewrite Hitems.
Qed.

(** X11.  [ListKeys] returns every stored key once and nothing else,
    [List] returns as many objects as there are keys, and an object is
    listed exactly when [Get] finds it under some key. *)
Theorem ListKeys_and_List_enumerate_the_store tsm :
  NoDup (threadSafeMap.ListKeys tsm) ∧
  (∀ k, k ∈ threadSafeMap.ListKeys tsm ↔
        (threadSafeMap.Get k tsm).2 = true) ∧
  length (threadSafeMap.ListKeys tsm) = threadSafeMap.Size tsm ∧
  length (threadSafeMap.List tsm) = threadSafeMap.Size tsm ∧
  (∀ obj, obj ∈ threadSafeMap.List tsm ↔
          ∃ k, threadSafeMap.Get k tsm = (obj, true)).
Proof.
  unfold threadSafeMap.ListKeys, threadSafeMap.List, threadSafeMap.Size.
  split; [apply NoDup_fst_map_to_list|]. split.
  - intros k. rewrite Get_lookup. simpl. rewrite bool_decide_eq_true.
    rewrite list_elem_of_fmap. split.
    + intros ([k' o] & -> & Hin%elem_of_map_to_list). by exists o.
    + intros [o Ho]. exists (k, o). split; [done|].
      by apply elem_of_map_to_list.
  - rewrite !length_fmap, length_map_to_list. split; [done|].
    split; [done|]. intros obj. rewrite list_elem_of_fmap. split.
    + intros ([k o] & -> & Hin%elem_of_map_to_list). exists k.
      unfold threadSafeMap.Get. by rewrite Hin.
    + intros [k Hk]. unfold threadSafeMap.Get in Hk.
      destruct (threadSafeMap.items tsm !! k) as [o|] eqn:Hlk; [|done].
      injection Hk as <-. exists (k, o). split; [done|].
      by apply elem_of_map_to_list.
Qed.
End store_properties.

Section AddIndexer_properties.
Context {K T : Type} `{Countable K} `{Countable T} {Obj : Type}.
Implicit Types (si : storeIndex.t K T Obj) (tsm : threadSafeMap.t K T Obj).

(** X12.  [AddIndexer] with a new name, on a store that holds no index
    under that name yet, and with an index function that does not fail,
    registers the function, keeps the stored objects, and indexes them
    all: afterwards [IndexKeys] on the new index returns, each once,
    exactly the keys whose object has the indexed value, and the other
    indexes answer as before. *)
Theorem AddIndexer_indexes_the_stored_objects name f tsm :
  storeIndex.indexers (threadSafeMap.index tsm) !! name = None →
  storeIndex.indices (threadSafeMap.index tsm) !! name = None →
  (∀ o, ∃ vs, f (Some o) = Ok vs) →
  ∃ tsm',
    threadSafeMap.AddIndexer name f tsm = Returned (None, tsm') ∧
    threadSafeMap.items tsm' = threadSafeMap.items tsm ∧
    storeIndex.indexers (threadSafeMap.index tsm')
      = <[name := f]> (storeIndex.indexers (threadSafeMap.index tsm)) ∧
    (∀ v, ∃ keys,
       threadSafeMap.IndexKeys name v tsm' = Ok keys ∧ NoDup keys ∧
       ∀ k, k ∈ keys ↔
            ∃ o vs, threadSafeMap.items tsm !! k = Some (Some o) ∧
                    f (Some o) = Ok vs ∧ v ∈ vs) ∧
    (∀ n v, n ≠ name →
       threadSafeMap.IndexKeys n v tsm' = threadSafeMap.IndexKeys n v tsm).
Proof.
  intros Hname Hidx Hf. unfold threadSafeMap.AddIndexer.
  rewrite addIndexer_fresh by (by apply not_elem_of_dom).
  destruct (backfill_reflects name f
              (map_to_list (threadSafeMap.items tsm))
              (storeIndex.mk
                 (<[name := f]> (storeIndex.indexers (threadSafeMap.index tsm)))
                 (storeIndex.indices (threadSafeMap.index tsm)))
              ∅)
    as (si' & Hrun & Hix & Hr & Hother).
  - simpl. by rewrite lookup_insert_eq.
  - done.
  - apply NoDup_fst_map_to_list.
  - simpl. rewrite Hidx. simpl. apply empty_index_reflects.
  - intros k _. apply lookup_empty.
  - rewrite Hrun. simpl. eexists. split; [done|]. split; [done|].
    simpl in Hix. split; [done|].
    rewrite list_to_map_to_list, (right_id_L ∅ (∪)) in Hr.
    destruct Hr as [_ Hrefl]. split.
    + intros v. eexists. split.
      * apply (IndexKeys_ok name f). simpl. rewrite Hix.
        by rewrite lookup_insert_eq.
      * split; [apply NoDup_elements|]. intros k.
        rewrite elem_of_elements. apply Hrefl.
    + intros n v Hn.
      unfold threadSafeMap.IndexKeys, storeIndex.getKeysByIndex. simpl.
      rewrite Hix, lookup_insert_ne by done.
      rewrite Hother by done. done.
Qed.
End AddIndexer_properties.

Section AddIndexers_properties.
Context {K T : Type} `{Countable K} `{Countable T} {Obj : Type}.
Implicit Types (si : storeIndex.t K T Obj) (tsm : threadSafeMap.t K T Obj).

(** X13.  [AddIndexers] with names that are all new, on a store that
    holds no index under these names yet, and with index functions that
    do not fail, keeps the stored objects and indexes them all under
    every new name: afterwards [IndexKeys] on a new index returns, each
    once, exactly the keys whose object has the indexed value. *)
Theorem AddIndexers_indexes_the_stored_objects
    (new : gmap string (storeIndex.IndexFunc K Obj)) tsm :
  dom new ## dom (storeIndex.indexers (threadSafeMap.index tsm)) →
  (∀ n, n ∈ dom new →
        storeIndex.indices (threadSafeMap.index tsm) !! n = None) →
  never_fails new →
  ∃ tsm',
    threadSafeMap.AddIndexers new tsm = Returned (None, tsm') ∧
    threadSafeMap.items tsm' = threadSafeMap.items tsm ∧
    ∀ name f v,
      new !! name = Some f →
      ∃ keys,
        threadSafeMap.IndexKeys name v tsm' = Ok keys ∧ NoDup keys ∧
        ∀ k, k ∈ keys ↔
             ∃ o vs, threadSafeMap.items tsm !! k = Some (Some o) ∧
                     f (Some o) = Ok vs ∧ v ∈ vs.
Proof.
  intros Hdisj Hidx Hnf. unfold threadSafeMap.AddIndexers.
  destruct (addIndexers_fresh (threadSafeMap.index tsm) new Hdisj)
    as (ixs & -> & Hixs).
  destruct (backfill_items new (map_to_list (threadSafeMap.items tsm))
              (storeIndex.mk ixs
                 (storeIndex.indices (threadSafeMap.index tsm))) ∅)
    as (si' & Hrun & Hix & Hr).
  - done.
  - intros n f o' Hn. by apply (Hnf n).
  - apply NoDup_fst_map_to_list.
  - intros k _. apply lookup_empty.
  - intros n f Hn. simpl. rewrite Hidx by (apply elem_of_dom; eauto).
    simpl. apply empty_index_reflects.
  - rewrite Hrun. simpl. eexists. split; [done|]. split; [done|].
    intros name f v Hname.
    rewrite list_to_map_to_list, (right_id_L ∅ (∪)) in Hr.
    destruct (Hr name f Hname) as [_ Hrefl].
    eexists. split.
    + apply (IndexKeys_ok name f). simpl. rewrite Hix. simpl.
      by apply Hixs.
    + split; [apply NoDup_elements|]. intros k.
      rewrite elem_of_elements. apply Hrefl.
Qed.
End AddIndexers_properties.

Section eviction_order_properties.
Context {T : Type} `{Countable T} `{ZeroValue T}.
Implicit Types (keys : list T).

(** X14.  A FIFO policy that has room for all the distinct keys it is
    given evicts them in the order of their first [Put]: a repeated
    [Put] of a key does not move it.  ([reverse (remove_dups (reverse
    keys))] keeps the first occurrence of every key.) *)
Theorem FIFO_evicts_in_order_of_first_Put keys capacity :
  (Z.of_nat (size (list_to_set keys : gset T)) ≤ capacity)%Z →
  (evictN (length keys)
     (evictionCache.putKeys keys (newPolicy KindFIFO capacity))).1
  = reverse (remove_dups (reverse keys)).
Proof.
  intros Hcap. simpl. rewrite FIFO_putKeys by done.
  rewrite FIFO_evictN. simpl. apply take_ge.
  rewrite length_reverse.
  etrans; [apply length_remove_dups_le|]. by rewrite length_reverse.
Qed.

(** X15.  An LRU policy that has room for all the distinct keys it is
    given evicts them in the order of their last [Put], the least
    recently used key first.  ([remove_dups keys] keeps the last
    occurrence of every key.) *)
Theorem LRU_evicts_in_order_of_last_Put keys capacity :
  (Z.of_nat (size (list_to_set keys : gset T)) ≤ capacity)%Z →
  (evictN (length keys)
     (evictionCache.putKeys keys (newPolicy KindLRU capacity))).1
  = remove_dups keys.
Proof.
  intros Hcap. simpl. rewrite lru_putKeys by done.
  rewrite lru_evictN. simpl. rewrite reverse_involutive.
  apply take_ge. apply length_remove_dups_le.
Qed.
End eviction_order_properties.

Section policy_properties.
Context {T : Type} `{Countable T} `{ZeroValue T}.

(** X16.  Successive calls of [Evict] on an LFU policy return distinct
    tracked keys in the order of their frequency counters, a least
    frequently used key first: no key evicted later has a smaller
    counter than a key evicted earlier, and no key that stays has a
    smaller counter than an evicted one.  The calls stop reporting a
    key when the policy is empty. *)
Theorem LFU_evicts_in_order_of_frequency n (l : LFU.t T) :
  Policy_reachable (Policy.OfLFU l) →
  NoDup (evictN n (Policy.OfLFU l)).1 ∧
  (∀ k, k ∈ (evictN n (Policy.OfLFU l)).1 → k ∈ LFU.cache l) ∧
  length (evictN n (Policy.OfLFU l)).1 = n `min` LFU.Size l ∧
  (∀ i j ki kj, i < j →
     (evictN n (Policy.OfLFU l)).1 !! i = Some ki →
     (evictN n (Policy.OfLFU l)).1 !! j = Some kj →
     ∃ fi fj, LFU_freqs l !! ki = Some fi ∧ LFU_freqs l !! kj = Some fj ∧
              (fi ≤ fj)%Z) ∧
  (∀ k k' f f',
     k ∈ (evictN n (Policy.OfLFU l)).1 →
     k' ∉ (evictN n (Policy.OfLFU l)).1 →
     LFU_freqs l !! k = Some f → LFU_freqs l !! k' = Some f' →
     (f ≤ f')%Z).
Proof.
  intros Hreach. apply Policy_reachable_wf in Hreach.
  apply (LFU_evictN n l Hreach).
Qed.

(** X17.  A policy never refuses a key: after [Put] the key is
    tracked.  A policy tracks at most [capacity] keys, and a policy
    made with a capacity of zero or less tracks at most one key: it
    behaves like a policy of capacity one. *)
Theorem capacity_below_one_acts_as_one (p : Policy.t T) :
  Policy_reachable p →
  (Z.of_nat (Policy.Size p) ≤ Z.max 1 (Policy_capacity p))%Z ∧
  (∀ key, key ∈ Policy_tracked (Policy.Put key p).2) ∧
  ((Policy_capacity p ≤ 1)%Z →
   ∀ key, Policy_tracked (Policy.Put key p).2 = {[key]}).
Proof.
  intros Hreach. pose proof (Policy_reachable_bound p Hreach) as Hbound.
  pose proof (Policy_reachable_wf p Hreach) as Hwf.
  rewrite Policy_Size_tracked. split; [done|].
  assert (Hput : ∀ key, key ∈ Policy_tracked (Policy.Put key p).2).
  { intros key.
    destruct (Policy.Put key p) as [[ek ev] p'] eqn:HPut.
    destruct (Policy_Put_spec key p ek ev p' Hwf HPut)
      as (_ & _ & Hin & Hnotin). simpl.
    destruct (decide (key ∈ Policy_tracked p)) as [Hk|Hk].
    - destruct (Hin Hk) as (_ & _ & ->). done.
    - destruct (Hnotin Hk) as [Hev Hnev]. destruct ev.
      + destruct (Hev eq_refl) as (_ & _ & ->). set_solver.
      + destruct (Hnev eq_refl) as (_ & -> & _). set_solver. }
  split; [done|]. intros Hcap key.
  pose proof (Policy_reachable_bound _ (reach_Put key p Hreach)) as Hb.
  specialize (Hput key).
  assert (Hcap' : Policy_capacity (Policy.Put key p).2 = Policy_capacity p).
  { destruct (Policy.Put key p) as [[ek ev] p'] eqn:HPut.
    by destruct (Policy_Put_spec key p ek ev p' Hwf HPut) as (_ & ? & _). }
  rewrite Hcap' in Hb.
  assert (Hsize : size (Policy_tracked (Policy.Put key p).2) ≤ 1) by lia.
  apply set_eq. intros x. rewrite elem_of_singleton. split.
  - intros Hx. destruct (decide (x = key)) as [|Hne]; [done|].
    exfalso.
    assert (Hsub : ({[x; key]} : gset T)
                   ⊆ Policy_tracked (Policy.Put key p).2) by set_solver.
    apply subseteq_size in Hsub.
    rewrite size_union, !size_singleton in Hsub by set_solver. lia.
  - by intros ->.
Qed.

(** X18.  [Put] on an LRU policy protects the key: the next [Evict]
    takes another key, unless the key is the only one tracked. *)
Theorem lru_Put_protects_the_key key (l : lru.t T) ek l2 :
  Policy_reachable (Policy.OfLRU l) →
  lru.Evict (lru.Put key l).2 = (ek, true, l2) →
  ek = key →
  lru.cache (lru.Put key l).2 = {[key]}.
Proof.
  intros Hreach Hev ->.
  apply Policy_reachable_wf in Hreach. simpl in Hreach.
  destruct (lru.Put key l) as [[k0 b0] l1] eqn:HPut.
  destruct (lru_Put_spec key l k0 b0 l1 Hreach HPut) as ([Hnd Hc] & _).
  simpl in *.
  assert (Hfront : ∃ rest, lru.lst l1 = key :: rest).
  { unfold lru.Put in HPut.
    destruct (bool_decide (key ∈ lru.cache l)).
    - injection HPut as _ _ <-. simpl. unfold containerList.MoveToFront.
      case_decide as Hf; [|by eauto].
      destruct (lru.lst l) as [|x rest]; [done|].
      injection Hf as ->. by eauto.
    - destruct (if bool_decide _ then lru.evict l else _)
        as [[k1 b1] l3].
      injection HPut as _ _ <-. simpl. by eauto. }
  destruct Hfront as [rest Hl].
  unfold lru.Evict, lru.evict, containerList.Back in Hev.
  destruct (last (lru.lst l1)) as [k|] eqn:Hlast; [|done].
  injection Hev as -> _.
  rewrite Hc, Hl. rewrite Hl in Hlast, Hnd.
  destruct rest as [|y rest]; [simpl; set_solver|].
  exfalso. apply NoDup_cons in Hnd as [Hnotin _]. apply Hnotin.
  change (last (key :: y :: rest)) with (last (y :: rest)) in Hlast.
  apply last_Some in Hlast as [l' ->]. set_solver.
Qed.

(** X19.  In every LFU policy a program can reach, the heap holds one
    entry per tracked key, the [index] field of every entry is its
    position in the heap, and the entry at the root has the least
    frequency counter. *)
Theorem LFU_heap_is_well_formed (l : LFU.t T) :
  Policy_reachable (Policy.OfLFU l) →
  NoDup (lfuEntry.key <$> LFU.freqHeap l) ∧
  LFU.cache l = list_to_set (lfuEntry.key <$> LFU.freqHeap l) ∧
  LFU.Size l = length (LFU.freqHeap l) ∧
  (∀ i e, LFU.freqHeap l !! i = Some e → lfuEntry.index e = i) ∧
  (∀ i e e0,
     LFU.freqHeap l !! 0 = Some e0 → LFU.freqHeap l !! i = Some e →
     (lfuEntry.frequency e0 ≤ lfuEntry.frequency e)%Z).
Proof.
  intros Hreach. apply Policy_reachable_wf in Hreach.
  destruct Hreach as [(Hnd & Hidx & Hord) Hcache].
  split; [done|]. split; [done|]. split.
  - unfold LFU.Size. rewrite Hcache, size_list_to_set by done.
    by rewrite length_fmap.
  - split; [done|]. intros i e e0 Hroot Hi.
    pose proof (root_min (LFU.freqHeap l) (length (LFU.freqHeap l)) i Hord)
      as Hmin.
    unfold freqAt in Hmin. rewrite Hroot, Hi in Hmin. simpl in Hmin.
    apply Hmin. by eapply lookup_lt_Some.
Qed.

(** X20.  [Delete] on an LFU policy forgets the key and its frequency
    counter and keeps the counters of all other keys; a key that is put
    again afterwards starts with the counter 1. *)
Theorem LFU_Delete_forgets_the_frequency key (l : LFU.t T) :
  Policy_reachable (Policy.OfLFU l) →
  LFU.cache (LFU.Delete key l) = LFU.cache l ∖ {[key]} ∧
  LFU_freqs (LFU.Delete key l) !! key = None ∧
  (∀ k, k ≠ key →
        LFU_freqs (LFU.Delete key l) !! k = LFU_freqs l !! k) ∧
  LFU_freqs (LFU.Put key (LFU.Delete key l)).2 !! key = Some 1%Z.
Proof.
  intros Hreach. apply Policy_reachable_wf in Hreach. simpl in Hreach.
  destruct (LFU_Delete_spec key l Hreach) as (Hwf & _ & Hcache & Hfreqs).
  split; [done|]. rewrite Hfreqs.
  split; [apply lookup_delete_eq|].
  split; [intros k Hk; by apply lookup_delete_ne|].
  destruct (LFU.Put key (LFU.Delete key l)) as [[ek ev] l'] eqn:HPut.
  destruct (LFU_Put_spec key _ ek ev l' Hwf HPut) as (_ & _ & _ & Hnotin).
  simpl. destruct Hnotin as [Hev Hnev]; [rewrite Hcache; set_solver|].
  destruct ev.
  - destruct (Hev eq_refl) as (_ & _ & _ & -> & _).
    apply lookup_insert_eq.
  - destruct (Hnev eq_refl) as (_ & _ & -> & _).
    apply lookup_insert_eq.
Qed.
End policy_properties.

Section facade_properties.
Context {K T : Type} `{Countable K} `{Countable T} `{ZeroValue T} {Obj : Type}.
Implicit Types (tsm : threadSafeMap.t K T Obj) (c : evictionCache.t K T Obj).

(** X21.  [Evict] on the facade, with index functions that never fail:
    on an empty cache it returns the error that nothing is left and
    changes nothing; otherwise it returns no error and removes from the
    store exactly the key the policy gave up, so the size drops by one
    and the store and the policy keep holding the same keys. *)
Theorem Evict_removes_the_evicted_object capacity c :
  facade_inv capacity c →
  never_fails
    (storeIndex.indexers (threadSafeMap.index (evictionCache.store c))) →
  ∃ err c',
    evictionCache.Evict c = Returned (err, c') ∧
    facade_inv capacity c' ∧
    (evictionCache.Size c = 0 → err = Some NoItemsToEvict ∧ c' = c) ∧
    (evictionCache.Size c ≠ 0 →
       err = None ∧
       evictionCache.Size c' + 1 = evictionCache.Size c ∧
       ∃ key,
         key ∈ dom (threadSafeMap.items (evictionCache.store c)) ∧
         threadSafeMap.items (evictionCache.store c')
           = delete key (threadSafeMap.items (evictionCache.store c))).
Proof.
  intros (Hwf & Hcap & Hdom & Hsize) Hnf. unfold evictionCache.Evict.
  destruct (Policy.Evict (evictionCache.evictionPolicy c))
    as [[ek ev] p'] eqn:HEv.
  destruct (Policy_Evict_spec _ ek ev p' Hwf HEv)
    as (Hwf' & Hcap' & Hempty & Hne).
  assert (Hsz : evictionCache.Size c
                = size (Policy_tracked (evictionCache.evictionPolicy c))).
  { unfold evictionCache.Size, threadSafeMap.Size.
    by rewrite <- Hdom, size_dom. }
  destruct (decide (Policy_tracked (evictionCache.evictionPolicy c) = ∅))
    as [He|He].
  - destruct (Hempty He) as (-> & _ & ->).
    exists (Some NoItemsToEvict), c.
    split; [by destruct c|]. split; [done|]. split; [done|].
    intros Hnz. exfalso. apply Hnz. by rewrite Hsz, He, size_empty.
  - destruct (Hne He) as (-> & Hek & Htr).
    destruct (Delete_returns ek (evictionCache.store c) Hnf)
      as (store1 & Hdel & Hitems & _).
    rewrite Hdel. simpl. eexists _, _. split; [done|].
    assert (Hnz : size (Policy_tracked (evictionCache.evictionPolicy c)) ≠ 0).
    { intros Hz. apply size_empty_inv in Hz. set_solver. }
    split.
    + unfold facade_inv.
      cbn [evictionCache.evictionPolicy evictionCache.store].
      split; [done|]. split; [congruence|]. split.
      * by rewrite Hitems, dom_delete_L, Hdom, Htr.
      * intros Hc1. specialize (Hsize Hc1). rewrite Htr.
        rewrite size_difference, size_singleton by set_solver. lia.
    + split; [intros Hz; lia|]. intros _. split; [done|]. split.
      * unfold evictionCache.Size, threadSafeMap.Size in *. simpl.
        rewrite Hitems.
        rewrite map_size_delete_Some
          by (apply elem_of_dom; by rewrite Hdom).
        lia.
      * exists ek. split; [by rewrite Hdom|done].
Qed.

(** X22.  [GetByKey] returns the stored object and whether the key is
    stored, and never changes the store or the key function.  A miss
    leaves the whole cache as it was.  A hit puts the key into the
    policy: the policy afterwards is what [Put] of the key leaves.  So,
    for a policy a program can reach, the key is tracked after a hit;
    the set of tracked keys is unchanged when the key was tracked
    before, and otherwise it changes (the key joins, and a key the
    policy evicts to make room leaves, although it stays in the
    store).  In particular, when store and policy held the same keys
    before the call, they do so afterwards. *)
Theorem GetByKey_reads_the_store_and_puts_the_key key c item found c' :
  evictionCache.GetByKey key c = (item, found, c') →
  item = mjoin (threadSafeMap.items (evictionCache.store c) !! key) ∧
  (found = true ↔
     key ∈ dom (threadSafeMap.items (evictionCache.store c))) ∧
  evictionCache.store c' = evictionCache.store c ∧
  evictionCache.keyFunc c' = evictionCache.keyFunc c ∧
  (found = false → c' = c) ∧
  (found = true →
     evictionCache.evictionPolicy c'
     = (Policy.Put key (evictionCache.evictionPolicy c)).2) ∧
  (Policy_reachable (evictionCache.evictionPolicy c) → found = true →
     key ∈ Policy_tracked (evictionCache.evictionPolicy c') ∧
     (key ∈ Policy_tracked (evictionCache.evictionPolicy c) →
      Policy_tracked (evictionCache.evictionPolicy c')
      = Policy_tracked (evictionCache.evictionPolicy c)) ∧
     (key ∉ Policy_tracked (evictionCache.evictionPolicy c) →
      Policy_tracked (evictionCache.evictionPolicy c')
      ≠ Policy_tracked (evictionCache.evictionPolicy c))) ∧
  (∀ capacity, facade_inv capacity c →
     Policy_tracked (evictionCache.evictionPolicy c')
       = Policy_tracked (evictionCache.evictionPolicy c) ∧
     facade_inv capacity c').
Proof.
  unfold evictionCache.GetByKey. rewrite Get_lookup.
  destruct (threadSafeMap.items (evictionCache.store c) !! key)
    as [o|] eqn:Hkey.
  - rewrite bool_decide_true by eauto.
    destruct (Policy.Put key (evictionCache.evictionPolicy c))
      as [[ek ev] p'] eqn:HPut.
    intros [= <- <- <-]. simpl.
    split; [done|]. split; [by split; [intros _; apply elem_of_dom; eauto|]|].
    split; [done|]. split; [done|]. split; [done|]. split; [done|].
    split.
    + intros Hreach _. apply Policy_reachable_wf in Hreach.
      destruct (Policy_Put_spec _ _ _ _ _ Hreach HPut)
        as (_ & _ & Hin & Hout).
      assert (Hk' : key ∈ Policy_tracked p').
      { destruct (decide (key ∈ Policy_tracked
                                 (evictionCache.evictionPolicy c)))
          as [Hk|Hk].
        - destruct (Hin Hk) as (_ & _ & ->). done.
        - destruct (Hout Hk) as [Hev Hnev]. destruct ev.
          + destruct (Hev eq_refl) as (_ & _ & ->). set_solver.
          + destruct (Hnev eq_refl) as (_ & -> & _). set_solver. }
      split; [done|]. split.
      * intros Hk. by destruct (Hin Hk) as (_ & _ & ->).
      * intros Hk Heq. rewrite Heq in Hk'. done.
    + intros capacity (Hwf & Hcap & Hdom & Hsize).
      destruct (Policy_Put_spec _ _ _ _ _ Hwf HPut)
        as (Hwf' & Hcap' & Hin & _).
      assert (Hk : key ∈ Policy_tracked (evictionCache.evictionPolicy c)).
      { rewrite <- Hdom. apply elem_of_dom. eauto. }
      destruct (Hin Hk) as (_ & _ & Htr).
      split; [done|]. unfold facade_inv.
      cbn [evictionCache.evictionPolicy evictionCache.store].
      rewrite Htr. split; [done|]. split; [congruence|]. done.
  - rewrite bool_decide_false by (by intros [? ?]).
    intros [= <- <- <-]. simpl.
    split; [done|]. split.
    { split; [done|]. intros Hin. apply elem_of_dom in Hin as [? ?].
      congruence. }
    split; [done|]. split; [done|]. split; [done|]. split; [done|].
    split; [done|]. done.
Qed.

(** X23.  An object for which the key function fails is refused by
    [Add], [Update], [Delete] and [Get] with a [KeyError] that carries
    the object and the key function's error, and the cache stays as it
    was.  [Replace] refuses the whole list with the [KeyError] of the
    first such object, before it resets the policy or touches the
    store. *)
Theorem key_errors_leave_the_cache_unchanged obj err c :
  evictionCache.keyFunc c obj = Err err →
  evictionCache.Add obj c = Returned (Some (KeyError obj err), c) ∧
  evictionCache.Update obj c = Returned (Some (KeyError obj err), c) ∧
  evictionCache.Delete obj c = Returned (Some (KeyError obj err), c) ∧
  evictionCache.Get obj c = (None, false, Some (KeyError obj err), c) ∧
  ∀ before after,
    (∀ o, o ∈ before → ∃ k, evictionCache.keyFunc c o = Ok k) →
    evictionCache.Replace (before ++ obj :: after) c
    = Returned (Some (KeyError obj err), c).
Proof.
  intros Hkey.
  unfold evictionCache.Add, evictionCache.Update, evictionCache.Delete,
    evictionCache.Get, evictionCache.Replace.
  rewrite Hkey. split; [done|]. split; [done|]. split; [done|].
  split; [done|]. intros before after Hbefore.
  by rewrite (keyItems_fails _ before obj after err).
Qed.


(** X25.  [ListKeysByIndex] returns what [IndexKeys] of the store
    returns and never changes the store or the key function; when it
    fails the cache stays as it was.  When it succeeds, the policy
    afterwards is the one left by [Put] of each listed key in turn,
    what the calls return being dropped.  So, for a policy a program
    can reach, the set of tracked keys is unchanged when every listed
    key was tracked before; in particular, when store and policy held
    the same keys before the call and the listed keys are stored, they
    hold the same keys afterwards. *)
Theorem ListKeysByIndex_lists_and_puts_the_keys name v c r c' :
  evictionCache.ListKeysByIndex name v c = (r, c') →
  r = threadSafeMap.IndexKeys name v (evictionCache.store c) ∧
  evictionCache.store c' = evictionCache.store c ∧
  evictionCache.keyFunc c' = evictionCache.keyFunc c ∧
  (∀ e, r = Err e → c' = c) ∧
  (∀ keys, r = Ok keys →
     evictionCache.evictionPolicy c'
     = evictionCache.putKeys keys (evictionCache.evictionPolicy c)) ∧
  (∀ keys, r = Ok keys →
     Policy_reachable (evictionCache.evictionPolicy c) →
     (∀ k, k ∈ keys →
           k ∈ Policy_tracked (evictionCache.evictionPolicy c)) →
     Policy_tracked (evictionCache.evictionPolicy c')
       = Policy_tracked (evictionCache.evictionPolicy c)) ∧
  (∀ keys capacity,
     r = Ok keys →
     facade_inv capacity c →
     (∀ k, k ∈ keys →
           k ∈ dom (threadSafeMap.items (evictionCache.store c))) →
     Policy_tracked (evictionCache.evictionPolicy c')
       = Policy_tracked (evictionCache.evictionPolicy c) ∧
     facade_inv capacity c').
Proof.
  unfold evictionCache.ListKeysByIndex.
  destruct (threadSafeMap.IndexKeys name v (evictionCache.store c))
    as [keys|e]; intros [= <- <-].
  - split; [done|]. split; [done|]. split; [done|]. split; [done|].
    split; [by intros keys' [= <-]|]. split.
    + intros keys' [= <-] Hreach Htracked. simpl.
      apply Policy_reachable_wf in Hreach.
      by destruct (putKeys_tracked keys _ Hreach Htracked) as (_ & _ & ?).
    + intros keys' capacity [= <-] (Hwf & Hcap & Hdom & Hsize) Hstored.
      simpl.
      destruct (putKeys_tracked keys (evictionCache.evictionPolicy c) Hwf)
        as (Hwf' & Hcap' & Htr).
      { intros k Hk. rewrite <- Hdom. by apply Hstored. }
      split; [done|]. unfold facade_inv.
      cbn [evictionCache.evictionPolicy evictionCache.store].
      rewrite Htr. split; [done|]. split; [congruence|]. done.
  - split; [done|]. split; [done|]. split; [done|]. split; [done|].
    split; [done|]. split; done.
Qed.

(** X26.  With index functions that never fail, [Update] with an
    object whose key is not stored returns without error and adds the
    object to the store, so the size grows by one; the policy
    afterwards is what [Put] of the key leaves, and a key that this
    [Put] evicts stays in the store.  Hence, if store and policy held
    the same keys before the call (as they do after [Add] and [Delete]
    calls on a new cache) and the cache was full, the policy tracks as
    many keys as before and the store holds one object more than the
    policy tracks keys. *)
Theorem Update_of_a_new_key_grows_the_store obj key c :
  never_fails
    (storeIndex.indexers (threadSafeMap.index (evictionCache.store c))) →
  evictionCache.keyFunc c obj = Ok key →
  key ∉ dom (threadSafeMap.items (evictionCache.store c)) →
  ∃ c',
    evictionCache.Update obj c = Returned (None, c') ∧
    threadSafeMap.items (evictionCache.store c')
      = <[key := obj]> (threadSafeMap.items (evictionCache.store c)) ∧
    evictionCache.Size c' = S (evictionCache.Size c) ∧
    evictionCache.evictionPolicy c'
      = (Policy.Put key (evictionCache.evictionPolicy c)).2 ∧
    ∀ capacity,
      facade_inv capacity c →
      (capacity ≤ Z.of_nat (evictionCache.Size c))%Z →
      evictionCache.Size c ≠ 0 →
      Policy.Size (evictionCache.evictionPolicy c') = evictionCache.Size c ∧
      evictionCache.Size c'
        = S (Policy.Size (evictionCache.evictionPolicy c')).
Proof.
  intros Hnf Hkey Hnew.
  unfold evictionCache.Update. rewrite Hkey.
  destruct (Update_returns key obj (evictionCache.store c) Hnf)
    as (s1 & Hs1 & Hitems & _).
  rewrite Hs1. simpl.
  destruct (Policy.Put key (evictionCache.evictionPolicy c))
    as [[ek ev] p'] eqn:HPut.
  eexists. split; [done|]. simpl. split; [done|].
  assert (Hgrow : size (<[key := obj]>
                    (threadSafeMap.items (evictionCache.store c)))
                  = S (evictionCache.Size c)).
  { apply map_size_insert_None. by apply not_elem_of_dom. }
  assert (Hsize' : evictionCache.Size
            {| evictionCache.store := s1;
               evictionCache.keyFunc := evictionCache.keyFunc c;
               evictionCache.evictionPolicy := p' |}
          = S (evictionCache.Size c)).
  { unfold evictionCache.Size at 1, threadSafeMap.Size. simpl.
    by rewrite Hitems. }
  split; [done|]. split; [done|].
  intros capacity (Hwf & Hcap & Hdom & Hsize) Hfull Hnz.
  assert (Hsz : evictionCache.Size c
                = size (Policy_tracked (evictionCache.evictionPolicy c))).
  { unfold evictionCache.Size, threadSafeMap.Size.
    by rewrite <- Hdom, size_dom. }
  destruct (Policy_Put_spec _ _ _ _ _ Hwf HPut) as (_ & _ & _ & Hnotin).
  destruct Hnotin as [Hev Hnev]; [by rewrite <- Hdom|].
  rewrite Policy_Size_tracked.
  assert (Hfresh : key ∉ Policy_tracked (evictionCache.evictionPolicy c))
    by by rewrite <- Hdom.
  assert (Hsame : size (Policy_tracked p') = evictionCache.Size c).
  { destruct ev.
    - destruct (Hev eq_refl) as (Hek & _ & ->).
      rewrite size_union by (clear -Hfresh; set_solver).
      rewrite size_singleton, size_difference by set_solver.
      rewrite size_singleton. lia.
    - destruct (Hnev eq_refl) as (_ & _ & [Hroom|Hemp]).
      + lia.
      + rewrite Hsz, Hemp, size_empty in Hnz. done. }
  split; [done|]. by rewrite Hsize', Hsame.
Qed.
End facade_properties.

Section plain_store_properties.
Context {K T : Type} `{Countable K} `{Countable T} {Obj : Type}.
Implicit Types (c : cache.t K T Obj).

(** X27.  On a plain store whose index functions never fail, [Add] of
    an object that has a key returns without error; afterwards [Get]
    of the object and [GetByKey] of its key find it, the other keys
    are as before, and after [Delete] of the object [Get] does not
    find it any more. *)
Theorem Get_finds_what_Add_stored obj key c :
  never_fails (storeIndex.indexers (threadSafeMap.index (cache.store c))) →
  cache.keyFunc c obj = Ok key →
  ∃ c',
    cache.Add obj c = Returned (None, c') ∧
    cache.Get obj c' = (obj, true, None) ∧
    cache.GetByKey key c' = (obj, true, None) ∧
    (∀ k, k ≠ key → cache.GetByKey k c' = cache.GetByKey k c) ∧
    ∃ c'',
      cache.Delete obj c' = Returned (None, c'') ∧
      cache.Get obj c'' = (None, false, None) ∧
      (∀ k, k ≠ key → cache.GetByKey k c'' = cache.GetByKey k c).
Proof.
  intros Hnf Hkey. unfold cache.Add. rewrite Hkey.
  destruct (Update_returns key obj (cache.store c) Hnf)
    as (s1 & Hs1 & Hitems1 & Hix1).
  unfold threadSafeMap.Add. rewrite Hs1. simpl.
  eexists. split; [done|].
  unfold cache.Get, cache.GetByKey, threadSafeMap.Get. simpl.
  rewrite Hkey, Hitems1, lookup_insert_eq. split; [done|].
  split; [done|]. split.
  { intros k Hk. by rewrite lookup_insert_ne. }
  unfold cache.Delete. simpl. rewrite Hkey.
  destruct (Delete_returns key s1) as (s2 & Hs2 & Hitems2 & _).
  { by rewrite Hix1. }
  rewrite Hs2. simpl. eexists. split; [done|]. simpl.
  rewrite Hkey, Hitems2, lookup_delete_eq. split; [done|].
  intros k Hk. by rewrite lookup_delete_ne, Hitems1, lookup_insert_ne.
Qed.

(** X28.  [Replace] on a plain store whose index functions never fail:
    when every object of the list has a key it returns without error
    and the store then holds, under every key of the list, the last
    object of the list with that key, and nothing else, so at most as
    many objects as the list is long; when some object has no key it
    returns the [KeyError] of the first such object and leaves the
    store as it was. *)
Theorem Replace_keeps_the_last_object_of_a_key l c :
  never_fails (storeIndex.indexers (threadSafeMap.index (cache.store c))) →
  ((∀ o, o ∈ l → ∃ k, cache.keyFunc c o = Ok k) →
   ∃ c',
     cache.Replace l c = Returned (None, c') ∧
     (∀ k, threadSafeMap.items (cache.store c') !! k
           = last (objectsWithKey (cache.keyFunc c) k l)) ∧
     cache.Size c' ≤ length l) ∧
  (∀ before obj after err,
     l = before ++ obj :: after →
     (∀ o, o ∈ before → ∃ k, cache.keyFunc c o = Ok k) →
     cache.keyFunc c obj = Err err →
     cache.Replace l c = Returned (Some (KeyError obj err), c)).
Proof.
  intros Hnf. split.
  - intros Hkeys. unfold cache.Replace.
    destruct (keyItems_total (cache.keyFunc c) l ∅ Hkeys)
      as [items Hitems].
    rewrite Hitems.
    destruct (keyItems_lookup _ _ _ _ Hitems) as [_ Hlk].
    destruct (Replace_returns items (cache.store c) Hnf)
      as (s1 & Hs1 & Hst & _).
    rewrite Hs1. simpl. eexists. split; [done|]. simpl.
    assert (Hlk' : ∀ k, items !! k
              = last (objectsWithKey (cache.keyFunc c) k l)).
    { intros k. rewrite Hlk, lookup_empty. by destruct (last _). }
    split; [by rewrite Hst|].
    unfold cache.Size, threadSafeMap.Size. simpl. rewrite Hst.
    rewrite <- size_dom.
    assert (Hsub : dom items
              ⊆ list_to_set (omap (λ o,
                  match cache.keyFunc c o with
                  | Ok k => Some k
                  | Err _ => None
                  end) l)).
    { intros k Hk. apply elem_of_dom in Hk as [o Ho].
      rewrite Hlk' in Ho. apply last_Some in Ho as [l' Hl'].
      assert (Hin : o ∈ objectsWithKey (cache.keyFunc c) k l).
      { rewrite Hl'. apply elem_of_app. right. left. }
      apply list_elem_of_filter in Hin as [Hhas Hin].
      apply elem_of_list_to_set, list_elem_of_omap. exists o.
      split; [done|]. unfold hasKey in Hhas.
      destruct (cache.keyFunc c o) as [k'|]; [|done].
      by apply bool_decide_eq_true in Hhas as ->. }
    apply subseteq_size in Hsub.
    etrans; [done|]. etrans; [apply size_list_to_set_le|].
    apply length_omap_le.
  - intros before obj after err -> Hbefore Hobj. unfold cache.Replace.
    by rewrite (keyItems_fails _ before obj after err).
Qed.

(** X29.  A store made by [NewStore] or [NewIndexer] has no index
    function and no index, and [Add], [Update], [Delete] and [Replace]
    give it none.  On such a store no call panics in the store or in
    the index engine: whenever the key function returns for the objects
    of the call, with a key or with an error (a key function that
    itself panics is not a key function of this model), the call
    returns.  The only error a call returns is the [KeyError] of an
    object of the call on which the key function fails, and the store
    is then as it was.  A call that returns no error had a key for each
    of its objects and has stored the object under its key ([Add],
    [Update]), removed the key ([Delete]) or replaced the stored
    objects by the keyed ones ([Replace]).  So every sequence of such
    calls returns. *)
Theorem plain_store_calls_always_return keyFunc calls :
  storeIndex.indexers
    (threadSafeMap.index (cache.store (cache.NewStore (K:=K) keyFunc))) = ∅ ∧
  storeIndex.indices
    (threadSafeMap.index (cache.store (cache.NewStore (K:=K) keyFunc))) = ∅ ∧
  cache.NewIndexer (K:=K) keyFunc = cache.NewStore keyFunc ∧
  (∃ c, runCacheCalls (K:=K) calls (cache.NewStore keyFunc) = Returned c ∧
        cache.keyFunc c = keyFunc ∧
        storeIndex.indexers (threadSafeMap.index (cache.store c)) = ∅) ∧
  (∃ c, runCacheCalls (K:=K) calls (cache.NewIndexer keyFunc) = Returned c ∧
        cache.keyFunc c = keyFunc ∧
        storeIndex.indexers (threadSafeMap.index (cache.store c)) = ∅) ∧
  (∀ call (c : cache.t K T Obj),
     storeIndex.indexers (threadSafeMap.index (cache.store c)) = ∅ →
     ∃ err c',
       doCacheCall call c = Returned (err, c') ∧
       cache.keyFunc c' = cache.keyFunc c ∧
       storeIndex.indexers (threadSafeMap.index (cache.store c')) = ∅ ∧
       (∀ e, err = Some e →
             c' = c ∧
             ∃ obj e0, obj ∈ callObjects call ∧ e = KeyError obj e0 ∧
                       cache.keyFunc c obj = Err e0) ∧
       (err = None →
        (∀ obj, obj ∈ callObjects call →
                ∃ key, cache.keyFunc c obj = Ok key) ∧
        callStores call (cache.keyFunc c)
          (threadSafeMap.items (cache.store c))
          (threadSafeMap.items (cache.store c')))).
Proof.
  assert (Hone : ∀ call (c : cache.t K T Obj),
     storeIndex.indexers (threadSafeMap.index (cache.store c)) = ∅ →
     ∃ err c',
       doCacheCall call c = Returned (err, c') ∧
       cache.keyFunc c' = cache.keyFunc c ∧
       storeIndex.indexers (threadSafeMap.index (cache.store c')) = ∅ ∧
       (∀ e, err = Some e →
             c' = c ∧
             ∃ obj e0, obj ∈ callObjects call ∧ e = KeyError obj e0 ∧
                       cache.keyFunc c obj = Err e0) ∧
       (err = None →
        (∀ obj, obj ∈ callObjects call →
                ∃ key, cache.keyFunc c obj = Ok key) ∧
        callStores call (cache.keyFunc c)
          (threadSafeMap.items (cache.store c))
          (threadSafeMap.items (cache.store c')))).
  { intros call c Hix.
    destruct (doCacheCall_returns call c)
      as (err & c1 & Hrun & Hkf & Hix1 & Herr & Hok).
    { intros name f o. by rewrite Hix, lookup_empty. }
    exists err, c1. split; [done|]. split; [done|].
    split; [congruence|done]. }
  assert (Hgen : ∀ c,
    storeIndex.indexers (threadSafeMap.index (cache.store c)) = ∅ →
    ∃ c', runCacheCalls calls c = Returned c' ∧
          cache.keyFunc c' = cache.keyFunc c ∧
          storeIndex.indexers (threadSafeMap.index (cache.store c')) = ∅).
  { induction calls as [|call calls IH]; intros c Hix; simpl.
    - by exists c.
    - destruct (Hone call c Hix) as (err & c1 & -> & Hkf & Hix1 & _).
      simpl. destruct (IH c1 Hix1) as (c' & ? & ? & ?).
      exists c'. split; [done|]. split; [congruence|done]. }
  split; [done|]. split; [done|]. split; [done|].
  split; [by apply Hgen|]. split; [by apply Hgen|]. exact Hone.
Qed.
End plain_store_properties.

(** ** The further properties on concrete inputs *)

Lemma byTags_never_fails : never_fails (K:=Z) (Obj:=list Z) {[ "tags" := byTags ]}.
Proof.
  intros name f o Hf. apply lookup_singleton_Some in Hf as [_ <-].
  by exists o.
Qed.

Lemma no_indexer_never_fails {K Obj} :
  never_fails (K:=K) (Obj:=Obj) ∅.
Proof. intros name f o Hf. by rewrite lookup_empty in Hf. Qed.

Lemma bySize_duplicate_free :
  duplicate_free (K:=Z) (Obj:=list Z) {[ "size" := bySize ]}.
Proof.
  intros name f o Hf. apply lookup_singleton_Some in Hf as [_ <-].
  eexists. split; [reflexivity|]. apply NoDup_singleton.
Qed.

Lemma lfuAfterThreePuts_reachable :
  Policy_reachable (Policy.OfLFU lfuAfterThreePuts).
Proof.
  assert (Heq : (Policy.Put 2%Z (Policy.Put 2%Z
                   (Policy.Put 1%Z (newPolicy KindLFU 2)).2).2).2
                = Policy.OfLFU lfuAfterThreePuts) by by vm_compute.
  rewrite <- Heq. apply reach_Put, reach_Put, reach_Put, reach_new.
Qed.

Lemma getKeysFromIndex_collects_the_buckets_witness :
  storeIndex.indexers tagIndex !! "tags" = Some byTags ∧
  byTags (Some [1; 2]%Z) = Ok [1; 2]%Z ∧
  ∃ keySet,
    storeIndex.getKeysFromIndex "tags" (Some [1; 2]%Z) tagIndex = Ok keySet ∧
    ∀ k, k ∈ default ∅ keySet ↔
         ∃ v, v ∈ [1; 2]%Z ∧
              k ∈ storeIndex.bucket
                    (default ∅ (storeIndex.indices tagIndex !! "tags")) v.
Proof.
  assert (Hname : storeIndex.indexers tagIndex !! "tags" = Some byTags)
    by by vm_compute.
  assert (Hf : byTags (Some [1; 2]%Z) = Ok [1; 2]%Z) by reflexivity.
  split; [exact Hname|]. split; [exact Hf|].
  destruct (getKeysFromIndex_collects_the_buckets "tags" byTags _ _ tagIndex
              Hname Hf) as (keySet & Hget & Hks & _).
  exists keySet. split; [exact Hget|exact Hks].
Defined.

Lemma IndexKeys_returns_the_matching_keys_witness :
  duplicate_free (K:=Z) (Obj:=list Z) {[ "size" := bySize ]} ∧
  runStoreCalls [StoreAdd 7%Z (Some [5%Z])]
    (threadSafeMap.NewThreadSafeStore {[ "size" := bySize ]} ∅)
    = Returned sizedStore ∧
  ({[ "size" := bySize ]} : gmap string _) !! "size" = Some bySize ∧
  ∃ keys, threadSafeMap.IndexKeys "size" 1%Z sizedStore = Ok keys ∧
          NoDup keys.
Proof.
  assert (Hrun : runStoreCalls [StoreAdd 7%Z (Some [5%Z])]
            (threadSafeMap.NewThreadSafeStore {[ "size" := bySize ]} ∅)
          = Returned sizedStore) by by vm_compute.
  assert (Hname : ({[ "size" := bySize ]}
                   : gmap string (option (list Z) → result (list Z) (list Z)))
                  !! "size" = Some bySize) by by vm_compute.
  split; [exact bySize_duplicate_free|]. split; [exact Hrun|].
  split; [exact Hname|].
  destruct (IndexKeys_returns_the_matching_keys _ _ _ "size" bySize 1%Z
              bySize_duplicate_free Hrun Hname) as (keys & Hk & Hnd & _).
  exists keys. split; [exact Hk|exact Hnd].
Defined.

Lemma Get_after_Update_and_Delete_witness :
  never_fails (storeIndex.indexers (threadSafeMap.index emptyStore)) ∧
  ∃ tsm', threadSafeMap.Add 7%Z (Some [1%Z]) emptyStore = Returned tsm' ∧
          threadSafeMap.Get 7%Z tsm' = (Some [1%Z], true).
Proof.
  split; [exact byTags_never_fails|].
  destruct (proj1 (Get_after_Update_and_Delete 7%Z (Some [1%Z]) emptyStore
                     byTags_never_fails)) as (tsm' & Hadd & _ & Hget & _).
  exists tsm'. split; [exact Hadd|exact Hget].
Defined.

Lemma Replace_rebuilds_every_index_witness :
  never_fails (storeIndex.indexers (threadSafeMap.index storeWithUntagged)) ∧
  ∃ tsm', threadSafeMap.Replace {[ 7%Z := Some [1; 1]%Z ]} storeWithUntagged
            = Returned tsm' ∧
          threadSafeMap.Size tsm' = 1.
Proof.
  split; [exact byTags_never_fails|].
  destruct (Replace_rebuilds_every_index {[ 7%Z := Some [1; 1]%Z ]}
              storeWithUntagged byTags_never_fails)
    as (tsm' & Hrep & _ & Hsize & _).
  exists tsm'. split; [exact Hrep|]. rewrite Hsize. by vm_compute.
Defined.

Lemma AddIndexer_indexes_the_stored_objects_witness :
  storeIndex.indexers (threadSafeMap.index storeWithUntagged) !! "size" = None ∧
  storeIndex.indices (threadSafeMap.index storeWithUntagged) !! "size" = None ∧
  (∀ o, ∃ vs, bySize (Some o) = Ok vs) ∧
  ∃ tsm', threadSafeMap.AddIndexer "size" bySize storeWithUntagged
            = Returned (None, tsm') ∧
          threadSafeMap.items tsm' = threadSafeMap.items storeWithUntagged.
Proof.
  assert (Hname : storeIndex.indexers (threadSafeMap.index storeWithUntagged)
                    !! "size" = None) by by vm_compute.
  assert (Hidx : storeIndex.indices (threadSafeMap.index storeWithUntagged)
                   !! "size" = None) by by vm_compute.
  assert (Hf : ∀ o, ∃ vs, bySize (Some o) = Ok vs).
  { intros o. eexists. reflexivity. }
  split; [exact Hname|]. split; [exact Hidx|]. split; [exact Hf|].
  destruct (AddIndexer_indexes_the_stored_objects "size" bySize
              storeWithUntagged Hname Hidx Hf) as (tsm' & Hadd & Hitems & _).
  exists tsm'. split; [exact Hadd|exact Hitems].
Defined.

Lemma AddIndexers_indexes_the_stored_objects_witness :
  dom ({[ "size" := bySize ]} : gmap string _)
    ## dom (storeIndex.indexers (threadSafeMap.index storeWithUntagged)) ∧
  (∀ n, n ∈ dom ({[ "size" := bySize ]} : gmap string _) →
        storeIndex.indices (threadSafeMap.index storeWithUntagged) !! n = None) ∧
  never_fails (K:=Z) (Obj:=list Z) {[ "size" := bySize ]} ∧
  ∃ tsm', threadSafeMap.AddIndexers {[ "size" := bySize ]} storeWithUntagged
            = Returned (None, tsm') ∧
          threadSafeMap.items tsm' = threadSafeMap.items storeWithUntagged.
Proof.
  assert (Hdisj : dom ({[ "size" := bySize ]}
                       : gmap string (option (list Z) → result (list Z) (list Z)))
                  ## dom (storeIndex.indexers
                            (threadSafeMap.index storeWithUntagged))).
  { simpl. rewrite !dom_singleton_L. apply disjoint_singleton_l.
    rewrite elem_of_singleton. discriminate. }
  assert (Hidx : ∀ n, n ∈ dom ({[ "size" := bySize ]}
                   : gmap string (option (list Z) → result (list Z) (list Z))) →
            storeIndex.indices (threadSafeMap.index storeWithUntagged) !! n
            = None).
  { intros n Hn. rewrite dom_singleton_L in Hn.
    apply elem_of_singleton in Hn as ->. by vm_compute. }
  assert (Hnf : never_fails (K:=Z) (Obj:=list Z) {[ "size" := bySize ]}).
  { intros name f o Hf. apply lookup_singleton_Some in Hf as [_ <-].
    eexists. reflexivity. }
  split; [exact Hdisj|]. split; [exact Hidx|]. split; [exact Hnf|].
  destruct (AddIndexers_indexes_the_stored_objects _ storeWithUntagged
              Hdisj Hidx Hnf) as (tsm' & Hadd & Hitems & _).
  exists tsm'. split; [exact Hadd|exact Hitems].
Defined.

Lemma FIFO_evicts_in_order_of_first_Put_witness :
  (Z.of_nat (size (list_to_set [1; 2; 1; 3]%Z : gset Z)) ≤ 3)%Z ∧
  (evictN 4 (evictionCache.putKeys [1; 2; 1; 3]%Z (newPolicy KindFIFO 3))).1
  = [1; 2; 3]%Z.
Proof.
  assert (Hcap : (Z.of_nat (size (list_to_set [1; 2; 1; 3]%Z : gset Z)) ≤ 3)%Z)
    by by vm_compute.
  split; [exact Hcap|].
  exact (FIFO_evicts_in_order_of_first_Put [1; 2; 1; 3]%Z 3 Hcap).
Defined.

Lemma LRU_evicts_in_order_of_last_Put_witness :
  (Z.of_nat (size (list_to_set [1; 2; 1; 3]%Z : gset Z)) ≤ 3)%Z ∧
  (evictN 4 (evictionCache.putKeys [1; 2; 1; 3]%Z (newPolicy KindLRU 3))).1
  = [2; 1; 3]%Z.
Proof.
  assert (Hcap : (Z.of_nat (size (list_to_set [1; 2; 1; 3]%Z : gset Z)) ≤ 3)%Z)
    by by vm_compute.
  split; [exact Hcap|].
  exact (LRU_evicts_in_order_of_last_Put [1; 2; 1; 3]%Z 3 Hcap).
Defined.

Lemma LFU_evicts_in_order_of_frequency_witness :
  Policy_reachable (Policy.OfLFU lfuAfterThreePuts) ∧
  NoDup (evictN 2 (Policy.OfLFU lfuAfterThreePuts)).1 ∧
  length (evictN 2 (Policy.OfLFU lfuAfterThreePuts)).1
  = 2 `min` LFU.Size lfuAfterThreePuts.
Proof.
  split; [exact lfuAfterThreePuts_reachable|].
  destruct (LFU_evicts_in_order_of_frequency 2 lfuAfterThreePuts
              lfuAfterThreePuts_reachable) as (Hnd & _ & Hlen & _).
  split; [exact Hnd|exact Hlen].
Defined.

Lemma capacity_below_one_acts_as_one_witness :
  Policy_reachable (newPolicy (T:=Z) KindFIFO 0) ∧
  (Policy_capacity (newPolicy (T:=Z) KindFIFO 0) ≤ 1)%Z ∧
  Policy_tracked (Policy.Put 5%Z (newPolicy (T:=Z) KindFIFO 0)).2 = {[ 5%Z ]}.
Proof.
  assert (Hreach : Policy_reachable (newPolicy (T:=Z) KindFIFO 0))
    by apply reach_new.
  assert (Hcap : (Policy_capacity (newPolicy (T:=Z) KindFIFO 0) ≤ 1)%Z)
    by by vm_compute.
  split; [exact Hreach|]. split; [exact Hcap|].
  exact (proj2 (proj2 (capacity_below_one_acts_as_one _ Hreach)) Hcap 5%Z).
Defined.

Lemma lru_Put_protects_the_key_witness :
  Policy_reachable (Policy.OfLRU (lru.NewLRU (T:=Z) 2)) ∧
  lru.Evict (lru.Put 1%Z (lru.NewLRU 2)).2
    = (1%Z, true, lru.NewLRU 2) ∧
  lru.cache (lru.Put 1%Z (lru.NewLRU 2)).2 = {[ 1%Z ]}.
Proof.
  assert (Hreach : Policy_reachable (Policy.OfLRU (lru.NewLRU (T:=Z) 2)))
    by apply (reach_new KindLRU 2).
  assert (Hev : lru.Evict (lru.Put 1%Z (lru.NewLRU 2)).2
                = (1%Z, true, lru.NewLRU 2)) by by vm_compute.
  split; [exact Hreach|]. split; [exact Hev|].
  exact (lru_Put_protects_the_key 1%Z (lru.NewLRU 2) 1%Z (lru.NewLRU 2)
           Hreach Hev eq_refl).
Defined.

Lemma LFU_heap_is_well_formed_witness :
  Policy_reachable (Policy.OfLFU lfuAfterThreePuts) ∧
  LFU.Size lfuAfterThreePuts = length (LFU.freqHeap lfuAfterThreePuts) ∧
  ∀ i e, LFU.freqHeap lfuAfterThreePuts !! i = Some e → lfuEntry.index e = i.
Proof.
  split; [exact lfuAfterThreePuts_reachable|].
  destruct (LFU_heap_is_well_formed lfuAfterThreePuts
              lfuAfterThreePuts_reachable) as (_ & _ & Hsize & Hidx & _).
  split; [exact Hsize|exact Hidx].
Defined.

Lemma LFU_Delete_forgets_the_frequency_witness :
  Policy_reachable (Policy.OfLFU lfuAfterThreePuts) ∧
  LFU_freqs (LFU.Delete 2%Z lfuAfterThreePuts) !! 2%Z = None ∧
  LFU_freqs (LFU.Put 2%Z (LFU.Delete 2%Z lfuAfterThreePuts)).2 !! 2%Z
  = Some 1%Z.
Proof.
  split; [exact lfuAfterThreePuts_reachable|].
  destruct (LFU_Delete_forgets_the_frequency 2%Z lfuAfterThreePuts
              lfuAfterThreePuts_reachable) as (_ & Hnone & _ & Hone).
  split; [exact Hnone|exact Hone].
Defined.

Lemma Evict_removes_the_evicted_object_witness :
  facade_inv 2 (newIntCache KindFIFO 2) ∧
  never_fails
    (storeIndex.indexers
       (threadSafeMap.index (evictionCache.store (newIntCache KindFIFO 2)))) ∧
  ∃ err c', evictionCache.Evict (newIntCache KindFIFO 2) = Returned (err, c') ∧
            facade_inv 2 c'.
Proof.
  assert (Hinv : facade_inv 2 (newIntCache KindFIFO 2))
    by apply (New_inv KindFIFO 2 intKeyFunc ∅).
  split; [exact Hinv|]. split; [exact no_indexer_never_fails|].
  destruct (Evict_removes_the_evicted_object 2 (newIntCache KindFIFO 2)
              Hinv no_indexer_never_fails) as (err & c' & Hev & Hinv' & _).
  exists err, c'. split; [exact Hev|exact Hinv'].
Defined.

Lemma GetByKey_reads_the_store_and_puts_the_key_witness :
  evictionCache.GetByKey 1%Z overfullCache
    = (Some 1%Z, true,
       intCache fifoWith1 {[ 1%Z := Some 1%Z; 2%Z := Some 2%Z ]}) ∧
  Policy_reachable (evictionCache.evictionPolicy overfullCache) ∧
  (1%Z ∉ Policy_tracked (evictionCache.evictionPolicy overfullCache)) ∧
  evictionCache.store
    (intCache fifoWith1 {[ 1%Z := Some 1%Z; 2%Z := Some 2%Z ]})
    = evictionCache.store overfullCache ∧
  1%Z ∈ Policy_tracked
          (evictionCache.evictionPolicy
             (intCache fifoWith1 {[ 1%Z := Some 1%Z; 2%Z := Some 2%Z ]})) ∧
  Policy_tracked
    (evictionCache.evictionPolicy
       (intCache fifoWith1 {[ 1%Z := Some 1%Z; 2%Z := Some 2%Z ]}))
  ≠ Policy_tracked (evictionCache.evictionPolicy overfullCache).
Proof.
  assert (Hget : evictionCache.GetByKey 1%Z overfullCache
                 = (Some 1%Z, true,
                    intCache fifoWith1 {[ 1%Z := Some 1%Z; 2%Z := Some 2%Z ]}))
    by by vm_compute.
  assert (Heq : (Policy.Put 2%Z (Policy.Put 1%Z (newPolicy KindFIFO 1)).2).2
                = evictionCache.evictionPolicy overfullCache)
    by by vm_compute.
  assert (Hreach : Policy_reachable
                     (evictionCache.evictionPolicy overfullCache)).
  { rewrite <- Heq. apply reach_Put, reach_Put, reach_new. }
  assert (Hnew : 1%Z ∉ Policy_tracked
                         (evictionCache.evictionPolicy overfullCache)).
  { change (Policy_tracked (evictionCache.evictionPolicy overfullCache))
      with ({[ 2%Z ]} : gset Z).
    by intros Hin%elem_of_singleton. }
  split; [exact Hget|]. split; [exact Hreach|]. split; [exact Hnew|].
  destruct (GetByKey_reads_the_store_and_puts_the_key 1%Z _ _ _ _ Hget)
    as (_ & _ & Hstore & _ & _ & _ & Hput & _).
  destruct (Hput Hreach eq_refl) as (Hin & _ & Hchanged).
  split; [exact Hstore|]. split; [exact Hin|exact (Hchanged Hnew)].
Defined.

Lemma key_errors_leave_the_cache_unchanged_witness :
  evictionCache.keyFunc (newIntCache KindFIFO 2) None
    = Err (UserError "object is nil") ∧
  evictionCache.Add None (newIntCache KindFIFO 2)
    = Returned (Some (KeyError None (UserError "object is nil")),
                newIntCache KindFIFO 2).
Proof.
  assert (Hkey : evictionCache.keyFunc (newIntCache KindFIFO 2) None
                 = Err (UserError "object is nil")) by reflexivity.
  split; [exact Hkey|].
  exact (proj1 (key_errors_leave_the_cache_unchanged None _ _ Hkey)).
Defined.


Lemma ListKeysByIndex_lists_and_puts_the_keys_witness :
  evictionCache.ListKeysByIndex "size" 1%Z sizedCache
    = (Ok [7%Z], sizedCache) ∧
  facade_inv 2 sizedCache ∧
  (∀ k, k ∈ [7%Z] →
        k ∈ dom (threadSafeMap.items (evictionCache.store sizedCache))) ∧
  Ok [7%Z] = threadSafeMap.IndexKeys "size" 1%Z (evictionCache.store sizedCache) ∧
  Policy_tracked (evictionCache.evictionPolicy sizedCache)
    = Policy_tracked (evictionCache.evictionPolicy sizedCache) ∧
  facade_inv 2 sizedCache.
Proof.
  assert (Hlist : evictionCache.ListKeysByIndex "size" 1%Z sizedCache
                  = (Ok [7%Z], sizedCache)) by by vm_compute.
  assert (Hrun : runCalls [CallAdd (Some [7%Z])]
                   (evictionCache.NewEvictionCache headKeyFunc
                      (newPolicy KindFIFO 2) {[ "size" := bySize ]})
                 = Returned sizedCache) by by vm_compute.
  assert (Hinv : facade_inv 2 sizedCache).
  { exact (runCalls_inv 2 _ _ _
             (New_inv KindFIFO 2 headKeyFunc {[ "size" := bySize ]}) Hrun). }
  assert (Hstored : ∀ k, k ∈ [7%Z] →
            k ∈ dom (threadSafeMap.items (evictionCache.store sizedCache))).
  { intros k Hk. apply list_elem_of_singleton in Hk as ->.
    apply elem_of_dom. eexists. by vm_compute. }
  split; [exact Hlist|]. split; [exact Hinv|]. split; [exact Hstored|].
  destruct (ListKeysByIndex_lists_and_puts_the_keys "size" 1%Z _ _ _ Hlist)
    as (Hr & _ & _ & _ & _ & _ & Hkeep).
  split; [exact Hr|]. exact (Hkeep [7%Z] 2%Z eq_refl Hinv Hstored).
Defined.

Lemma Update_of_a_new_key_grows_the_store_witness :
  never_fails
    (storeIndex.indexers
       (threadSafeMap.index (evictionCache.store fullCache))) ∧
  evictionCache.keyFunc fullCache (Some 2%Z) = Ok 2%Z ∧
  (2%Z ∉ dom (threadSafeMap.items (evictionCache.store fullCache))) ∧
  facade_inv 1 fullCache ∧
  (1 ≤ Z.of_nat (evictionCache.Size fullCache))%Z ∧
  evictionCache.Size fullCache ≠ 0 ∧
  evictionCache.Update (Some 2%Z) fullCache = Returned (None, overfullCache) ∧
  ∃ c', evictionCache.Update (Some 2%Z) fullCache = Returned (None, c') ∧
        evictionCache.Size c' = S (evictionCache.Size fullCache) ∧
        Policy.Size (evictionCache.evictionPolicy c')
          = evictionCache.Size fullCache ∧
        evictionCache.Size c'
          = S (Policy.Size (evictionCache.evictionPolicy c')).
Proof.
  assert (Hkey : evictionCache.keyFunc fullCache (Some 2%Z) = Ok 2%Z)
    by reflexivity.
  assert (Hnew : 2%Z ∉ dom (threadSafeMap.items
                              (evictionCache.store fullCache))).
  { apply not_elem_of_dom. by vm_compute. }
  assert (Hrun : runCalls [CallAdd (Some 1%Z)] (newIntCache KindFIFO 1)
                 = Returned fullCache) by by vm_compute.
  assert (Hinv : facade_inv 1 fullCache).
  { exact (runCalls_inv 1 _ _ _ (New_inv KindFIFO 1 intKeyFunc ∅) Hrun). }
  assert (Hfull : (1 ≤ Z.of_nat (evictionCache.Size fullCache))%Z)
    by by vm_compute.
  assert (Hnz : evictionCache.Size fullCache ≠ 0).
  { intros Hz. vm_compute in Hz. discriminate Hz. }
  split; [exact no_indexer_never_fails|]. split; [exact Hkey|].
  split; [exact Hnew|]. split; [exact Hinv|]. split; [exact Hfull|].
  split; [exact Hnz|]. split; [by vm_compute|].
  destruct (Update_of_a_new_key_grows_the_store (Some 2%Z) 2%Z fullCache
              no_indexer_never_fails Hkey Hnew)
    as (c' & Hupd & _ & Hsz & _ & Hover).
  destruct (Hover 1%Z Hinv Hfull Hnz) as [Hpol Hone].
  exists c'. split; [exact Hupd|]. split; [exact Hsz|].
  split; [exact Hpol|exact Hone].
Defined.

Lemma Get_finds_what_Add_stored_witness :
  never_fails (storeIndex.indexers (threadSafeMap.index (cache.store intStore))) ∧
  cache.keyFunc intStore (Some 1%Z) = Ok 1%Z ∧
  ∃ c', cache.Add (Some 1%Z) intStore = Returned (None, c') ∧
        cache.Get (Some 1%Z) c' = (Some 1%Z, true, None).
Proof.
  assert (Hkey : cache.keyFunc intStore (Some 1%Z) = Ok 1%Z) by reflexivity.
  split; [exact no_indexer_never_fails|]. split; [exact Hkey|].
  destruct (Get_finds_what_Add_stored (Some 1%Z) 1%Z intStore
              no_indexer_never_fails Hkey) as (c' & Hadd & Hget & _).
  exists c'. split; [exact Hadd|exact Hget].
Defined.

Lemma Replace_keeps_the_last_object_of_a_key_witness :
  never_fails (storeIndex.indexers (threadSafeMap.index (cache.store intStore))) ∧
  cache.Replace [Some 1%Z; None; Some 2%Z] intStore
    = Returned (Some (KeyError None (UserError "object is nil")), intStore).
Proof.
  split; [exact no_indexer_never_fails|].
  refine (proj2 (Replace_keeps_the_last_object_of_a_key
                   [Some 1%Z; None; Some 2%Z] intStore no_indexer_never_fails)
            [Some 1%Z] None [Some 2%Z] (UserError "object is nil")
            eq_refl _ eq_refl).
  intros o Ho. apply list_elem_of_singleton in Ho as ->. by exists 1%Z.
Defined.
